(** * GPSMapCamera: the reconnecting WebSocket connection manager

    A shallow embedding of [src/context/WebSocketContext.tsx], the
    [WebSocketProvider] React component, and the properties its specification
    states about it.

    The component keeps all of its data in [useState] cells and all of its
    operations in [useCallback] closures.  Both are modelled as React defines
    them:
    - a state cell read inside a closure is the constant of the render in
      which the closure was created; a setter only queues the new value,
      which becomes visible at the next render;
    - a [useCallback] closure is re-created only in a render where one of its
      dependencies changed; a closure it names without listing it as a
      dependency is the one of the render that created it;
    - the handlers installed on a WebSocket are closures of the [connect]
      call that created the socket, and stay so for the socket's life.

    The file has five parts: the JavaScript values and the built-ins the
    component calls ([JSON.stringify], [JSON.parse], [Date.toISOString],
    [Math.pow], [Math.min], the arithmetic of doubles); the state, the
    closures and the operations of the component; the event loop that drives
    it; the vocabulary of the statements; and the properties.

    What is left out: the passing of time (a timer fires when the
    environment says so, its delay is only recorded); the choice of the URL
    (lines 8 to 16) and the [catch] around [new WebSocket] (lines 246 to
    251), since the URL is a constant that the constructor accepts; and the
    variable part of the console messages.

    Where the model of a built-in stops short of JavaScript, the definition
    says so: the order in which an object lists keys that are array indices
    ([ownProps]), and the numbers and the surrogate pairs that [JSON.parse]
    may meet in a text that [JSON.stringify] did not print ([JSON.parse]). *)

From Stdlib Require Import Ascii String QArith Qpower Qminmax Qround Qabs Lqa.
From Stdlib Require PrimFloat FloatOps SpecFloat Uint63.
From stdpp Require Import gmap strings list fin_maps.

#[local] Set Warnings "-register-all".

Open Scope string_scope.
Open Scope Z_scope.

(** ** JavaScript values *)

(** The values the component passes around ([data: any], parsed messages).
    A number is written [VNum m e] for the decimal [m * 10^e]: numbers only
    travel through the component (they are printed and parsed, never
    computed with), and every finite double has exactly one shortest decimal
    form, the one [JSON.stringify] prints.  A string is a string of bytes,
    the UTF-8 form of the text.  An object is the list of its own enumerable
    properties in insertion order.  JavaScript lists the keys that are array
    indices ([0], [1], ...) before the others, in ascending order: this is
    not modelled, so that for an object with such keys the list has the
    members of the JavaScript object in another order. *)
Inductive JsValue : Type :=
| VUndefined
| VNull
| VBool (b : bool)
| VNum (m e : Z)
| VBigInt (z : Z)
| VStr (s : string)
| VArr (xs : list JsValue)
| VObj (fields : list (string * JsValue)).

Module Obj.

(** [o[k]] on the own properties; a missing property reads [undefined]. *)
Fixpoint get (k : string) (o : list (string * JsValue)) : JsValue :=
  match o with
  | [] => VUndefined
  | (k', v) :: rest => if String.eqb k k' then v else get k rest
  end.

Fixpoint has (k : string) (o : list (string * JsValue)) : bool :=
  match o with
  | [] => false
  | (k', _) :: rest => if String.eqb k k' then true else has k rest
  end.

(** [o[k] = v]: an existing property keeps its place and takes the new
    value, a new one goes last. *)
Fixpoint set (k : string) (v : JsValue) (o : list (string * JsValue))
  : list (string * JsValue) :=
  match o with
  | [] => [(k, v)]
  | (k', v') :: rest =>
      if String.eqb k k' then (k', v) :: rest else (k', v') :: set k v rest
  end.

(** Assigning a list of properties in order, as a spread does. *)
Definition assign (src o : list (string * JsValue)) : list (string * JsValue) :=
  fold_left (fun acc kv => set (fst kv) (snd kv) acc) src o.

End Obj.

(** The double quote and the backslash, which a string literal cannot hold
    as such. *)
Definition dquote : ascii := "034"%char.
Definition backslash : ascii := "092"%char.

(** Decimal digits. *)
Definition digitChar (d : Z) : ascii :=
  match d with
  | 0 => "0" | 1 => "1" | 2 => "2" | 3 => "3" | 4 => "4"
  | 5 => "5" | 6 => "6" | 7 => "7" | 8 => "8" | _ => "9"
  end%char.

Definition digitVal (c : ascii) : option Z :=
  let n := Z.of_nat (nat_of_ascii c) in
  if (48 <=? n) && (n <=? 57) then Some (n - 48) else None.

Fixpoint digits_go (fuel : nat) (n : Z) (acc : string) : string :=
  match fuel with
  | O => acc
  | S fuel' =>
      let acc' := String (digitChar (n mod 10)) acc in
      if n <? 10 then acc' else digits_go fuel' (n / 10) acc'
  end.

(** The decimal digits of a natural number [n >= 0]. *)
Definition digits (n : Z) : string :=
  digits_go (S (Z.to_nat (Z.log2 n))) n "".

Fixpoint zeros (n : nat) : string :=
  match n with O => "" | S n' => String "0"%char (zeros n') end.

(** What a spread [...v] copies: the own enumerable properties of [v].  For
    an array these are its elements under their indices; for a string, its
    characters under their indices, which are the bytes here and the UTF-16
    code units in JavaScript (the same for a string of ASCII characters).
    As said of [JsValue], the members keep the order of insertion: the
    envelope of [send] therefore lists [type] before the members of a
    payload whose keys are array indices, where JavaScript lists those first.
    The members themselves are the same. *)
Fixpoint indexed {A} (f : A -> JsValue) (i : Z) (xs : list A)
  : list (string * JsValue) :=
  match xs with
  | [] => []
  | x :: rest => (digits i, f x) :: indexed f (i + 1) rest
  end.

Definition ownProps (v : JsValue) : list (string * JsValue) :=
  match v with
  | VObj fields => Obj.assign fields []
  | VArr xs => indexed (fun x => x) 0 xs
  | VStr s => indexed (fun c => VStr (String c "")) 0 (list_ascii_of_string s)
  | _ => []
  end.

(** ** JSON.stringify and JSON.parse *)

Module JSON.

(** [Number::toString] on the decimal [m * 10^e], whose [k] digits are
    printed with the decimal point after [n = k + e] of them, or with an
    exponent when [n] is large or small. *)
Definition numberToString (m e : Z) : string :=
  if m =? 0 then "0" else
  let ds := digits (Z.abs m) in
  let k := Z.of_nat (String.length ds) in
  let n := k + e in
  let sign := if m <? 0 then "-" else "" in
  sign ++
  (if (k <=? n) && (n <=? 21) then ds ++ zeros (Z.to_nat (n - k))
   else if (0 <? n) && (n <=? 21) then
     substring 0 (Z.to_nat n) ds ++ "." ++
     substring (Z.to_nat n) (Z.to_nat (k - n)) ds
   else if (-6 <? n) && (n <=? 0) then "0." ++ zeros (Z.to_nat (- n)) ++ ds
   else
     let ex := n - 1 in
     let exs := (if ex <? 0 then "-" else "+") ++ digits (Z.abs ex) in
     if k =? 1 then ds ++ "e" ++ exs
     else substring 0 1 ds ++ "." ++ substring 1 (Z.to_nat (k - 1)) ds
          ++ "e" ++ exs).

Definition hexChar (d : Z) : ascii :=
  match d with
  | 10 => "a" | 11 => "b" | 12 => "c" | 13 => "d" | 14 => "e" | 15 => "f"
  | _ => digitChar d
  end%char.

(** [QuoteJSONString], one character.  A string literal of Rocq has no
    escapes: the literals below are a backslash followed by a letter, which is
    what the JSON text holds. *)
Definition quoteChar (c : ascii) : string :=
  let n := Z.of_nat (nat_of_ascii c) in
  if n =? 34 then String backslash (String dquote "")
  else if n =? 92 then String backslash (String backslash "")
  else if n =? 8 then "\b"
  else if n =? 12 then "\f"
  else if n =? 10 then "\n"
  else if n =? 13 then "\r"
  else if n =? 9 then "\t"
  else if n <? 32 then
    "\u00" ++ String (hexChar (n / 16)) (String (hexChar (n mod 16)) "")
  else String c "".

Fixpoint quoteBody (s : string) : string :=
  match s with
  | EmptyString => ""
  | String c rest => quoteChar c ++ quoteBody rest
  end.

Definition quote (s : string) : string :=
  String dquote (quoteBody s ++ String dquote "").

Fixpoint join (sep : string) (parts : list string) : string :=
  match parts with
  | [] => ""
  | [p] => p
  | p :: rest => p ++ sep ++ join sep rest
  end.

(** The three outcomes of serializing a value: a text, [undefined] (the
    value has no JSON form and is left out of an object), or a thrown
    [TypeError] (a BigInt anywhere inside). *)
Inductive Result := Text (s : string) | Undefined | Throw.

Fixpoint serialize (v : JsValue) : Result :=
  match v with
  | VUndefined => Undefined
  | VNull => Text "null"
  | VBool true => Text "true"
  | VBool false => Text "false"
  | VNum m e => Text (numberToString m e)
  | VBigInt _ => Throw
  | VStr s => Text (quote s)
  | VArr xs =>
      let fix elems (xs : list JsValue) : option (list string) :=
        match xs with
        | [] => Some []
        | x :: rest =>
            match serialize x with
            | Throw => None
            | Undefined => cons "null" <$> elems rest
            | Text t => cons t <$> elems rest
            end
        end in
      match elems xs with
      | None => Throw
      | Some parts => Text ("[" ++ join "," parts ++ "]")
      end
  | VObj fields =>
      let fix members (fs : list (string * JsValue)) : option (list string) :=
        match fs with
        | [] => Some []
        | (k, x) :: rest =>
            match serialize x with
            | Throw => None
            | Undefined => members rest
            | Text t => cons (quote k ++ ":" ++ t) <$> members rest
            end
        end in
      match members fields with
      | None => Throw
      | Some parts => Text ("{" ++ join "," parts ++ "}")
      end
  end.

Definition stringify : JsValue -> Result := serialize.

(** *** JSON.parse

    A pushdown recognizer fed one character at a time: [Mode] is the
    lexical state, the stack of [Ctx] says what the enclosing arrays and
    objects expect next.  A text that is not JSON makes a step fail, which
    is the [SyntaxError] that [JSON.parse] throws.

    Which texts are accepted, and the structure of the value (its arrays,
    its objects and their keys, its strings of ASCII characters, its
    literals), are those of JavaScript.  Two details of the value are not: a
    number is read as the decimal that the text writes, where JavaScript
    rounds it to the nearest double (they differ for a literal with more
    digits than a double holds, such as an integer above [2^53]); and a
    surrogate pair written as two [\u] escapes is encoded as two code units,
    where JavaScript reads the one character.  Neither occurs in a text that
    [JSON.stringify] printed. *)

Inductive Ctx :=
| CTop
| CDone (v : JsValue)
| CArrFirst
| CArrVal (acc : list JsValue)
| CArrNext (acc : list JsValue)
| CObjFirst
| CObjKey (acc : list (string * JsValue))
| CObjColon (acc : list (string * JsValue)) (k : string)
| CObjVal (acc : list (string * JsValue)) (k : string)
| CObjNext (acc : list (string * JsValue)).

Inductive Mode :=
| MDefault
| MString (acc : list ascii)
| MEscape (acc : list ascii)
| MUnicode (acc : list ascii) (hex : list Z)
| MNumber (acc : list ascii)
| MLiteral (rest : string) (v : JsValue).

Definition PState : Type := Mode * list Ctx.

Definition code (c : ascii) : Z := Z.of_nat (nat_of_ascii c).
Definition char (n : Z) : ascii := ascii_of_nat (Z.to_nat n).

Definition isWs (c : ascii) : bool :=
  (code c =? 32) || (code c =? 9) || (code c =? 10) || (code c =? 13).

Definition isDigit (c : ascii) : bool := (48 <=? code c) && (code c <=? 57).

Definition hexVal (c : ascii) : option Z :=
  let n := code c in
  if (48 <=? n) && (n <=? 57) then Some (n - 48)
  else if (97 <=? n) && (n <=? 102) then Some (n - 87)
  else if (65 <=? n) && (n <=? 70) then Some (n - 55)
  else None.

(** A code unit below 0x10000 as UTF-8 bytes. *)
Definition utf8 (cp : Z) : list ascii :=
  if cp <? 128 then [char cp]
  else if cp <? 2048 then [char (192 + cp / 64); char (128 + cp mod 64)]
  else [char (224 + cp / 4096); char (128 + (cp / 64) mod 64);
        char (128 + cp mod 64)].

(** Reading a number token. *)
Fixpoint takeDigits (cs : list ascii) (acc count : Z) : Z * Z * list ascii :=
  match cs with
  | c :: rest =>
      if isDigit c then takeDigits rest (10 * acc + (code c - 48)) (count + 1)
      else (acc, count, cs)
  | [] => (acc, count, cs)
  end.

Fixpoint normalize (fuel : nat) (m e : Z) : Z * Z :=
  match fuel with
  | O => (m, e)
  | S fuel' =>
      if m =? 0 then (0, 0)
      else if m mod 10 =? 0 then normalize fuel' (m / 10) (e + 1)
      else (m, e)
  end.

Definition parseExponent (cs : list ascii) : option Z :=
  match cs with
  | [] => Some 0
  | c :: rest =>
      if (code c =? 101) || (code c =? 69) then
        let '(neg, rest') :=
          match rest with
          | s :: r => if code s =? 45 then (true, r)
                      else if code s =? 43 then (false, r)
                      else (false, rest)
          | [] => (false, rest)
          end in
        match takeDigits rest' 0 0 with
        | (x, n, []) => if 0 <? n then Some (if neg then - x else x) else None
        | _ => None
        end
      else None
  end.

Definition parseFraction (int : Z) (cs : list ascii) : option (Z * Z) :=
  match cs with
  | c :: rest =>
      if code c =? 46 then
        match takeDigits rest int 0 with
        | (m, n, rest') =>
            if 0 <? n then (fun x => (m, x - n)) <$> parseExponent rest'
            else None
        end
      else (fun x => (int, x)) <$> parseExponent cs
  | [] => Some (int, 0)
  end.

Definition parseNumber (cs : list ascii) : option JsValue :=
  let '(neg, cs1) :=
    match cs with
    | c :: r => if code c =? 45 then (true, r) else (false, cs)
    | [] => (false, cs)
    end in
  let body :=
    match cs1 with
    | c :: r =>
        if code c =? 48 then parseFraction 0 r
        else if isDigit c then
          match takeDigits cs1 0 0 with
          | (int, _, rest) => parseFraction int rest
          end
        else None
    | [] => None
    end in
  (fun '(m, e) =>
     let '(m', e') := normalize (length cs) m e in
     VNum (if neg then - m' else m') e') <$> body.

Definition expectsValue (stack : list Ctx) : bool :=
  match stack with
  | CTop :: _ | CArrFirst :: _ | CArrVal _ :: _ | CObjVal _ _ :: _ => true
  | _ => false
  end.

Definition expectsKey (stack : list Ctx) : bool :=
  match stack with
  | CObjFirst :: _ | CObjKey _ :: _ => true
  | _ => false
  end.

(** A finished value goes to whatever encloses it. *)
Definition deliver (v : JsValue) (stack : list Ctx) : option (list Ctx) :=
  match stack with
  | CTop :: rest => Some (CDone v :: rest)
  | CArrFirst :: rest => Some (CArrNext [v] :: rest)
  | CArrVal acc :: rest => Some (CArrNext (acc ++ [v])%list :: rest)
  | CObjVal acc k :: rest => Some (CObjNext (Obj.set k v acc) :: rest)
  | _ => None
  end.

Definition deliverString (s : string) (stack : list Ctx) : option (list Ctx) :=
  match stack with
  | CObjFirst :: rest => Some (CObjColon [] s :: rest)
  | CObjKey acc :: rest => Some (CObjColon acc s :: rest)
  | _ => deliver (VStr s) stack
  end.

Definition stepDefault (c : ascii) (stack : list Ctx) : option PState :=
  let n := code c in
  if isWs c then Some (MDefault, stack)
  else if n =? 34 then
    if expectsValue stack || expectsKey stack then Some (MString [], stack)
    else None
  else if n =? 91 then
    if expectsValue stack then Some (MDefault, CArrFirst :: stack) else None
  else if n =? 123 then
    if expectsValue stack then Some (MDefault, CObjFirst :: stack) else None
  else if n =? 93 then
    match stack with
    | CArrFirst :: rest => (fun st => (MDefault, st)) <$> deliver (VArr []) rest
    | CArrNext acc :: rest => (fun st => (MDefault, st)) <$> deliver (VArr acc) rest
    | _ => None
    end
  else if n =? 125 then
    match stack with
    | CObjFirst :: rest => (fun st => (MDefault, st)) <$> deliver (VObj []) rest
    | CObjNext acc :: rest => (fun st => (MDefault, st)) <$> deliver (VObj acc) rest
    | _ => None
    end
  else if n =? 44 then
    match stack with
    | CArrNext acc :: rest => Some (MDefault, CArrVal acc :: rest)
    | CObjNext acc :: rest => Some (MDefault, CObjKey acc :: rest)
    | _ => None
    end
  else if n =? 58 then
    match stack with
    | CObjColon acc k :: rest => Some (MDefault, CObjVal acc k :: rest)
    | _ => None
    end
  else if negb (expectsValue stack) then None
  else if (n =? 45) || isDigit c then Some (MNumber [c], stack)
  else if n =? 116 then Some (MLiteral "rue" (VBool true), stack)
  else if n =? 102 then Some (MLiteral "alse" (VBool false), stack)
  else if n =? 110 then Some (MLiteral "ull" VNull, stack)
  else None.

Definition isNumberChar (c : ascii) : bool :=
  let n := code c in
  isDigit c || (n =? 45) || (n =? 43) || (n =? 46) || (n =? 101) || (n =? 69).

Definition step (c : ascii) (st : PState) : option PState :=
  let '(mode, stack) := st in
  match mode with
  | MDefault => stepDefault c stack
  | MString acc =>
      if code c =? 34 then
        (fun st => (MDefault, st))
          <$> deliverString (string_of_list_ascii (rev acc)) stack
      else if code c =? 92 then Some (MEscape acc, stack)
      else if code c <? 32 then None
      else Some (MString (c :: acc), stack)
  | MEscape acc =>
      let n := code c in
      if (n =? 34) || (n =? 92) || (n =? 47) then Some (MString (c :: acc), stack)
      else if n =? 98 then Some (MString (char 8 :: acc), stack)
      else if n =? 102 then Some (MString (char 12 :: acc), stack)
      else if n =? 110 then Some (MString (char 10 :: acc), stack)
      else if n =? 114 then Some (MString (char 13 :: acc), stack)
      else if n =? 116 then Some (MString (char 9 :: acc), stack)
      else if n =? 117 then Some (MUnicode acc [], stack)
      else None
  | MUnicode acc hex =>
      match hexVal c with
      | None => None
      | Some h =>
          match hex with
          | [h1; h2; h3] =>
              let cp := ((h3 * 16 + h2) * 16 + h1) * 16 + h in
              Some (MString (rev (utf8 cp) ++ acc)%list, stack)
          | _ => Some (MUnicode acc (h :: hex), stack)
          end
      end
  | MNumber acc =>
      if isNumberChar c then Some (MNumber (c :: acc), stack)
      else
        v ← parseNumber (rev acc);
        stack' ← deliver v stack;
        stepDefault c stack'
  | MLiteral rest v =>
      match rest with
      | String c' rest' =>
          if Ascii.eqb c c' then
            match rest' with
            | EmptyString => (fun st => (MDefault, st)) <$> deliver v stack
            | _ => Some (MLiteral rest' v, stack)
            end
          else None
      | EmptyString => None
      end
  end.

Fixpoint feed (s : string) (st : PState) : option PState :=
  match s with
  | EmptyString => Some st
  | String c rest => st' ← step c st; feed rest st'
  end.

Definition finish (st : PState) : option JsValue :=
  match st with
  | (MDefault, [CDone v]) => Some v
  | (MNumber acc, [CTop]) => parseNumber (rev acc)
  | _ => None
  end.

(** [JSON.parse(text)]; [None] is the thrown [SyntaxError]. *)
Definition parse (text : string) : option JsValue :=
  st ← feed text (MDefault, [CTop]); finish st.

End JSON.

(** ** The arithmetic of numbers

    A JavaScript number is an IEEE 754 double.  The numbers that the
    component computes (the reconnect delay) are finite: each is modelled as
    the rational it denotes, and every operation rounds its exact result to
    the nearest double, a tie going to the double whose last bit is 0
    ([Number::add], [Number::multiply]).  A literal of the source denotes the
    double nearest to it.  A result of magnitude [2^1024] or more stands for
    an infinity: only a power of 1.5 can be one, and only for a counter that
    the component never reaches; [Math.min(30000, _)] makes 30000 of it as of
    any other number above. *)

Module Double.

(** The binade of a positive rational: the [e] with [2^e <= q < 2^(e+1)]. *)
Definition ilog2 (q : Q) : Z :=
  let e := Z.log2 (Qnum q) - Z.log2 (Z.pos (Qden q)) in
  if Qle_bool (2 ^ e) q then e else e - 1.

(** The nearest integer, a tie going to the even one. *)
Definition rne (q : Q) : Z :=
  let f := Qfloor q in
  match (q - inject_Z f ?= 1 # 2)%Q with
  | Lt => f
  | Gt => f + 1
  | Eq => if Z.even f then f else f + 1
  end.

(** The exponent of the unit in the last place of the doubles around [q]:
    53 significant bits, and a spacing of [2^-1074] below [2^-1022]. *)
Definition ulpExp (q : Q) : Z := Z.max (ilog2 (Qabs q)) (-1022) - 52.

(** The double nearest to [q]. *)
Definition round (q : Q) : Q :=
  if Qeq_bool q 0 then 0
  else let p := ulpExp q in (inject_Z (rne (q / 2 ^ p)) * 2 ^ p)%Q.

(** [x + y] and [x * y] on doubles. *)
Definition add (x y : Q) : Q := round (x + y).

Definition mul (x y : Q) : Q := round (x * y).

(** A rational that is a double. *)
Definition isDouble (q : Q) : bool := Qeq_bool (round q) q.

End Double.

Module Math.

(** [Math.pow(x, n)] with an integer [n].  ECMAScript leaves the accuracy of
    [Math.pow] to the implementation; it is taken as correctly rounded.  The
    powers of 1.5 that the component computes, with the exponents 0 to 4, are
    doubles: any result within less than one unit in the last place is the
    exact one. *)
Definition pow (x : Q) (n : Z) : Q := Double.round (x ^ n).

Definition min (x y : Q) : Q := Qmin x y.

End Math.

(** The doubles of the kernel, which computes with the binary64 numbers of
    the machine: what [Double] is checked against. *)
Module Binary64.

(** The rational that a finite double denotes. *)
Definition toQ (f : PrimFloat.float) : option Q :=
  match FloatOps.Prim2SF f with
  | SpecFloat.S754_zero _ => Some 0%Q
  | SpecFloat.S754_finite s m e =>
      Some ((if s then -1 else 1) * inject_Z (Z.pos m) * 2 ^ e)%Q
  | _ => None
  end.

(** The double nearest to a rational whose numerator and denominator, in
    lowest terms, are doubles below [2^63] (an integer below [2^53], a power
    of 2): the quotient of the two. *)
Definition ofZ (z : Z) : PrimFloat.float := PrimFloat.of_uint63 (Uint63.of_Z z).

Definition ofQ (q : Q) : PrimFloat.float :=
  let q' := Qred q in
  PrimFloat.div (ofZ (Qnum q')) (ofZ (Z.pos (Qden q'))).

End Binary64.

(** ** Date.prototype.toISOString *)

Module Date.

Definition msPerDay : Z := 86400000.

(** Days since 1970-01-01 to year, month and day of the proleptic
    Gregorian calendar. *)
Definition civil (days : Z) : Z * Z * Z :=
  let z := days + 719468 in
  let era := z / 146097 in
  let doe := z mod 146097 in
  let yoe := (doe - doe / 1460 + doe / 36524 - doe / 146096) / 365 in
  let doy := doe - (365 * yoe + yoe / 4 - yoe / 100) in
  let mp := (5 * doy + 2) / 153 in
  let d := doy - (153 * mp + 2) / 5 + 1 in
  let m := if mp <? 10 then mp + 3 else mp - 9 in
  (yoe + era * 400 + (if m <=? 2 then 1 else 0), m, d).

Definition pad2 (n : Z) : string :=
  String (digitChar (n / 10 mod 10)) (String (digitChar (n mod 10)) "").

Definition pad3 (n : Z) : string :=
  String (digitChar (n / 100 mod 10)) (pad2 n).

Definition pad4 (n : Z) : string :=
  String (digitChar (n / 1000 mod 10)) (pad3 n).

Definition pad6 (n : Z) : string :=
  String (digitChar (n / 100000 mod 10))
    (String (digitChar (n / 10000 mod 10)) (pad4 n)).

(** Years 0 to 9999 take four digits, the others a sign and six. *)
Definition yearString (y : Z) : string :=
  if (0 <=? y) && (y <=? 9999) then pad4 y
  else (if y <? 0 then "-" else "+") ++ pad6 (Z.abs y).

(** [new Date(t).toISOString()] for [t] milliseconds since the epoch. *)
Definition toISOString (t : Z) : string :=
  let ms := t mod msPerDay in
  let '(y, m, d) := civil (t / msPerDay) in
  yearString y ++ "-" ++ pad2 m ++ "-" ++ pad2 d ++ "T"
    ++ pad2 (ms / 3600000) ++ ":" ++ pad2 (ms / 60000 mod 60) ++ ":"
    ++ pad2 (ms / 1000 mod 60) ++ "." ++ pad3 (ms mod 1000) ++ "Z".

(** The first and the last instant whose year has four digits. *)
Definition minFourDigit : Z := -62167219200000.
Definition maxFourDigit : Z := 253402300799999.

Definition num2 (a b : ascii) : option Z :=
  x ← digitVal a; y ← digitVal b; Some (10 * x + y).

Definition monthLength (m : Z) : Z :=
  if m =? 2 then 29
  else if (m =? 4) || (m =? 6) || (m =? 9) || (m =? 11) then 30
  else 31.

(** The ISO 8601 extended format [YYYY-MM-DDTHH:mm:ss.sssZ], with every
    field in its range. *)
Definition isISO8601 (s : string) : bool :=
  match list_ascii_of_string s with
  | [y1; y2; y3; y4; s1; m1; m2; s2; d1; d2; st; h1; h2; s3; n1; n2; s4;
     c1; c2; s5; f1; f2; f3; z] =>
      match num2 y1 y2, num2 y3 y4, num2 m1 m2, num2 d1 d2,
            num2 h1 h2, num2 n1 n2, num2 c1 c2, num2 f1 f2, digitVal f3 with
      | Some _, Some _, Some mo, Some dd, Some hh, Some mi, Some ss,
        Some _, Some _ =>
          Ascii.eqb s1 "-" && Ascii.eqb s2 "-" && Ascii.eqb st "T"
          && Ascii.eqb s3 ":" && Ascii.eqb s4 ":" && Ascii.eqb s5 "."
          && Ascii.eqb z "Z"
          && (1 <=? mo) && (mo <=? 12) && (1 <=? dd) && (dd <=? monthLength mo)
          && (hh <=? 23) && (mi <=? 59) && (ss <=? 59)
      | _, _, _, _, _, _, _, _, _ => false
      end
  | _ => false
  end.

End Date.

(** ** The component's state *)

Inductive AppStateStatus := active | background | inactive | unknown | extension.

#[global] Instance AppStateStatus_eq_dec : EqDecision AppStateStatus.
Proof. solve_decision. Defined.

(** [WebSocket.readyState]. *)
Inductive ReadyState := CONNECTING | OPEN | CLOSING | CLOSED.

#[global] Instance ReadyState_eq_dec : EqDecision ReadyState.
Proof. solve_decision. Defined.

(** A listener callback: [lid] stands for the function's reference (what the
    [Set] compares), [throwsOn] says on which messages the call throws. *)
Record Listener := mkListener { lid : nat; throwsOn : JsValue -> bool }.

(** The [useState] cells of [WebSocketProvider], lines 53 to 63.  Sockets and
    timers are handles (numbers from 1 on, so that a handle is truthy). *)
Record State := mkState {
  socket : option nat;
  isConnected : bool;
  isConnecting : bool;
  connectionError : option string;
  lastMessage : JsValue;
  listeners : list Listener;
  reconnectTimer : option nat;
  pingInterval : option nat;
  reconnectAttempts : Z;
  isNetworkAvailable : bool;
  appState : AppStateStatus
}.

Definition MAX_RECONNECT_ATTEMPTS : Z := 5.
Definition BASE_RECONNECT_DELAY : Q := 3000.

(** The [useState] setters.  Applied to the pending state, see [setState]. *)
Definition setSocket v (s : State) : State :=
  mkState v (isConnected s) (isConnecting s) (connectionError s) (lastMessage s)
    (listeners s) (reconnectTimer s) (pingInterval s) (reconnectAttempts s)
    (isNetworkAvailable s) (appState s).
Definition setIsConnected v (s : State) : State :=
  mkState (socket s) v (isConnecting s) (connectionError s) (lastMessage s)
    (listeners s) (reconnectTimer s) (pingInterval s) (reconnectAttempts s)
    (isNetworkAvailable s) (appState s).
Definition setIsConnecting v (s : State) : State :=
  mkState (socket s) (isConnected s) v (connectionError s) (lastMessage s)
    (listeners s) (reconnectTimer s) (pingInterval s) (reconnectAttempts s)
    (isNetworkAvailable s) (appState s).
Definition setConnectionError v (s : State) : State :=
  mkState (socket s) (isConnected s) (isConnecting s) v (lastMessage s)
    (listeners s) (reconnectTimer s) (pingInterval s) (reconnectAttempts s)
    (isNetworkAvailable s) (appState s).
Definition setLastMessage v (s : State) : State :=
  mkState (socket s) (isConnected s) (isConnecting s) (connectionError s) v
    (listeners s) (reconnectTimer s) (pingInterval s) (reconnectAttempts s)
    (isNetworkAvailable s) (appState s).
Definition setListeners (f : list Listener -> list Listener) (s : State) : State :=
  mkState (socket s) (isConnected s) (isConnecting s) (connectionError s)
    (lastMessage s) (f (listeners s)) (reconnectTimer s) (pingInterval s)
    (reconnectAttempts s) (isNetworkAvailable s) (appState s).
Definition setReconnectTimer v (s : State) : State :=
  mkState (socket s) (isConnected s) (isConnecting s) (connectionError s)
    (lastMessage s) (listeners s) v (pingInterval s) (reconnectAttempts s)
    (isNetworkAvailable s) (appState s).
Definition setPingInterval v (s : State) : State :=
  mkState (socket s) (isConnected s) (isConnecting s) (connectionError s)
    (lastMessage s) (listeners s) (reconnectTimer s) v (reconnectAttempts s)
    (isNetworkAvailable s) (appState s).
Definition setReconnectAttempts v (s : State) : State :=
  mkState (socket s) (isConnected s) (isConnecting s) (connectionError s)
    (lastMessage s) (listeners s) (reconnectTimer s) (pingInterval s) v
    (isNetworkAvailable s) (appState s).
Definition setIsNetworkAvailable v (s : State) : State :=
  mkState (socket s) (isConnected s) (isConnecting s) (connectionError s)
    (lastMessage s) (listeners s) (reconnectTimer s) (pingInterval s)
    (reconnectAttempts s) v (appState s).
Definition setAppState v (s : State) : State :=
  mkState (socket s) (isConnected s) (isConnecting s) (connectionError s)
    (lastMessage s) (listeners s) (reconnectTimer s) (pingInterval s)
    (reconnectAttempts s) (isNetworkAvailable s) v.

(** The first render: the initial values of the cells. *)
Definition initialState (app : AppStateStatus) : State :=
  mkState None false false None VNull [] None None 0 true app.

(** The connection state the specification speaks of, as the component
    exposes it ([isConnected], [isConnecting]). *)
Inductive ConnectionState := Disconnected | Connecting | Connected.

Definition connectionState (s : State) : ConnectionState :=
  if isConnected s then Connected
  else if isConnecting s then Connecting
  else Disconnected.

(** ** Closures

    What a closure reads is fixed by the render that created it.
    - [stopPingInterval], [cleanupConnection], [send], [disconnect] list
      every cell and closure they read as dependencies: they always read
      the cells of the latest render, a [State].
    - [startPingInterval] has [socket] as only dependency, and names
      [stopPingInterval] and [send]: it reads the [State] of the render in
      which [socket] last changed.
    - [scheduleReconnect] has [reconnectAttempts] and [reconnectTimer] as
      dependencies, and names [connect]: the [connect] it calls is the one
      of the render in which it was created, with every cell and closure as
      they were then ([SchedEnv]).
    - [connect] lists everything it reads: it sees the cells of the latest
      render, the memoized [scheduleReconnect] and the memoized
      [startPingInterval] ([Scope]).  The handlers it installs on the new
      socket keep that [Scope]. *)
Record SchedEnv := mkSchedEnv { se_cur : State; se_start : State }.

Record Scope := mkScope { sc_cur : State; sc_sched : SchedEnv; sc_start : State }.

(** The scope of the [connect] that a [scheduleReconnect] closure calls. *)
Definition schedScope (env : SchedEnv) : Scope :=
  mkScope (se_cur env) env (se_start env).

(** ** The world outside the component *)

Inductive Timer :=
| ReconnectTimer (nextAttempt : Z) (env : SchedEnv)
| PingTimer (env : State).

Inductive Level := Log | Warn | Error.

(** What the component does to the outside, in order.  [Console] keeps the
    constant part of the message.  [Resolve] and [Reject] settle the promise
    that [connect] returned for socket [s]; what the caller chained to that
    promise is not traced. *)
Inductive Effect :=
| NewWebSocket (s : nat)
| SocketSend (s : nat) (text : string)
| SocketClose (s : nat) (code : Z)
| SetTimeout (t : nat) (delay : Q)
| SetInterval (t : nat)
| ClearTimer (t : nat)
| CallListener (l : nat) (message : JsValue)
| Console (lvl : Level) (what : string)
| Resolve (s : nat)
| Reject (s : nat).

(** The component between two events: the cells as the latest render saw
    them and as the queued updates will make them, the memoized closures
    ([scheduleReconnect], [startPingInterval], the two subscriptions of
    lines 69 to 104), the sockets with their ready state and the scope of
    their handlers, the timers that are set, and the effects so far. *)
Record World := mkWorld {
  rendered : State;
  pending : State;
  memo_sched : SchedEnv;
  memo_start : State;
  eff_app : Scope;
  eff_net : Scope;
  sockets : gmap nat (ReadyState * Scope);
  timers : gmap nat Timer;
  next_socket : nat;
  next_timer : nat;
  trace : list Effect
}.

(** The closures of the latest render. *)
Definition currentScope (w : World) : Scope :=
  mkScope (rendered w) (memo_sched w) (memo_start w).

Definition initialWorld (app : AppStateStatus) : World :=
  let s := initialState app in
  let sc := mkScope s (mkSchedEnv s s) s in
  mkWorld s s (mkSchedEnv s s) s sc sc ∅ ∅ 1 1 [].

(** *** The state monad of the handlers *)

Definition M (A : Type) : Type := World -> A * World.

#[global] Instance M_ret : MRet M := fun A x w => (x, w).
#[global] Instance M_bind : MBind M :=
  fun A B f m w => let '(x, w') := m w in f x w'.

Definition emit (e : Effect) : M unit := fun w =>
  (tt, mkWorld (rendered w) (pending w) (memo_sched w) (memo_start w)
         (eff_app w) (eff_net w) (sockets w) (timers w)
         (next_socket w) (next_timer w) (trace w ++ [e])%list).

(** A setter call: the update is queued, the closures keep their values. *)
Definition setState (f : State -> State) : M unit := fun w =>
  (tt, mkWorld (rendered w) (f (pending w)) (memo_sched w) (memo_start w)
         (eff_app w) (eff_net w) (sockets w) (timers w)
         (next_socket w) (next_timer w) (trace w)).

Definition withSockets (f : gmap nat (ReadyState * Scope) -> gmap nat (ReadyState * Scope))
  : M unit := fun w =>
  (tt, mkWorld (rendered w) (pending w) (memo_sched w) (memo_start w)
         (eff_app w) (eff_net w) (f (sockets w)) (timers w)
         (next_socket w) (next_timer w) (trace w)).

Definition withTimers (f : gmap nat Timer -> gmap nat Timer) : M unit := fun w =>
  (tt, mkWorld (rendered w) (pending w) (memo_sched w) (memo_start w)
         (eff_app w) (eff_net w) (sockets w) (f (timers w))
         (next_socket w) (next_timer w) (trace w)).

Definition console (lvl : Level) (what : string) : M unit :=
  emit (Console lvl what).

(** [socket.readyState], and the test [socket?.readyState === WebSocket.OPEN]. *)
Definition readyState (s : nat) : M (option ReadyState) := fun w =>
  (fst <$> sockets w !! s, w).

Definition isOpen (s : option nat) : M bool :=
  match s with
  | None => mret false
  | Some h => rs ← readyState h; mret (bool_decide (rs = Some OPEN))
  end.

(** [new WebSocket(url)] with the four handlers of [scope]. *)
Definition newWebSocket (scope : Scope) : M nat := fun w =>
  let h := next_socket w in
  (h, mkWorld (rendered w) (pending w) (memo_sched w) (memo_start w)
        (eff_app w) (eff_net w) (<[h := (CONNECTING, scope)]> (sockets w))
        (timers w) (S h) (next_timer w) (trace w ++ [NewWebSocket h])%list).

(** [setTimeout] and [setInterval]. *)
Definition newTimer (tm : Timer) (e : nat -> Effect) : M nat := fun w =>
  let t := next_timer w in
  (t, mkWorld (rendered w) (pending w) (memo_sched w) (memo_start w)
        (eff_app w) (eff_net w) (sockets w) (<[t := tm]> (timers w))
        (next_socket w) (S t) (trace w ++ [e t])%list).

(** [clearTimeout] and [clearInterval]. *)
Definition clearTimer (t : nat) : M unit :=
  withTimers (delete t);; emit (ClearTimer t).

(** [socket.send(text)] on an open socket. *)
Definition socketSend (s : nat) (text : string) : M unit :=
  emit (SocketSend s text).

(** [socket.close(code, reason)]: the socket is closing from now on. *)
Definition socketClose (s : nat) (code : Z) : M unit :=
  withSockets (alter (fun '(_, sc) => (CLOSING, sc)) s);;
  emit (SocketClose s code).

(** ** The operations of the component

    Each takes what its closure captured and runs in [M].  The clock
    ([new Date()]) and the random draw ([Math.random()]) are arguments. *)

(** Lines 143 and 144: [Math.min(30000, BASE * Math.pow(1.5, attempts))],
    the jitter factor [0.8 + Math.random() * 0.4] and their product, in the
    arithmetic of doubles.  The numbers 30000, 3000 and 1.5 are doubles; 0.8
    and 0.4 are not, and stand for the doubles nearest to them. *)
Definition backoffBase (attempts : Z) : Q :=
  Math.min 30000 (Double.mul BASE_RECONNECT_DELAY (Math.pow 1.5 attempts)).

Definition jitterFactor (random : Q) : Q :=
  Double.add (Double.round 0.8) (Double.mul random (Double.round 0.4)).

Definition reconnectDelay (attempts : Z) (random : Q) : Q :=
  Double.mul (backoffBase attempts) (jitterFactor random).

(** The same product computed by the kernel on its doubles. *)
Definition reconnectDelay64 (attempts : Z) (random : Q) : option Q :=
  Binary64.toQ
    (PrimFloat.mul (Binary64.ofQ (backoffBase attempts))
       (PrimFloat.add (Binary64.ofQ 0.8)
          (PrimFloat.mul (Binary64.ofQ random) (Binary64.ofQ 0.4)))).

(** Lines 122 to 127. *)
Definition stopPingInterval (env : State) : M unit :=
  match pingInterval env with
  | Some i => clearTimer i;; setState (setPingInterval None)
  | None => mret tt
  end.

(** Lines 288 to 292: [{ type, ...data, timestamp: new Date().toISOString() }]. *)
Definition envelope (type : string) (data : JsValue) (now : Z)
  : list (string * JsValue) :=
  Obj.set "timestamp" (VStr (Date.toISOString now))
    (Obj.assign (ownProps data) [("type", VStr type)]).

(** Lines 281 to 299.  [data] defaults to [{}] when it is [undefined]. *)
Definition send (env : State) (type : string) (data : JsValue) (now : Z) : M bool :=
  let data := match data with VUndefined => VObj [] | _ => data end in
  open ← isOpen (socket env);
  match socket env with
  | Some s =>
      if open : bool then
        match JSON.stringify (VObj (envelope type data now)) with
        | JSON.Text message => socketSend s message;; mret true
        | _ => console Error "Error sending WebSocket message:";; mret false
        end
      else console Warn "Cannot send message: WebSocket is not connected";;
           mret false
  | None => console Warn "Cannot send message: WebSocket is not connected";;
            mret false
  end.

(** Lines 302 to 304 and 307 to 309. *)
Definition sendLocation (env : State) (latitude longitude : JsValue) (now : Z)
  : M bool :=
  send env "location" (VObj [("latitude", latitude); ("longitude", longitude)]) now.

Definition notifyPhotoCapture (env : State) (photoId metadata : JsValue) (now : Z)
  : M bool :=
  send env "photo_capture" (VObj [("photoId", photoId); ("metadata", metadata)]) now.

(** Lines 107 to 119; [pingTick] is the interval's callback. *)
Definition startPingInterval (env : State) : M unit :=
  stopPingInterval env;;
  i ← newTimer (PingTimer env) SetInterval;
  setState (setPingInterval (Some i)).

Definition pingTick (env : State) (now : Z) : M unit :=
  open ← isOpen (socket env);
  if open : bool then send env "ping" VUndefined now;; mret tt
  else stopPingInterval env.

(** Lines 160 to 167. *)
Definition cleanupConnection (env : State) : M unit :=
  stopPingInterval env;;
  match reconnectTimer env with
  | Some t => clearTimer t;; setState (setReconnectTimer None)
  | None => mret tt
  end.

(** Lines 130 to 157.  The timer's callback is [reconnectTick] below; it
    carries [nextAttempt] and the closure's environment. *)
Definition scheduleReconnect (env : SchedEnv) (random : Q) : M unit :=
  let cur := se_cur env in
  match reconnectTimer cur with
  | Some t => clearTimer t
  | None => mret tt
  end;;
  if MAX_RECONNECT_ATTEMPTS <=? reconnectAttempts cur then
    console Log "Max reconnect attempts (5) reached, giving up"
  else
    let nextAttempt := reconnectAttempts cur + 1 in
    let delay := reconnectDelay (reconnectAttempts cur) random in
    console Log "Scheduling reconnect attempt";;
    t ← newTimer (ReconnectTimer nextAttempt env) (fun t => SetTimeout t delay);
    setState (setReconnectTimer (Some t)).

(** What [connect()] returns: a promise already resolved, already rejected,
    or one that the handlers of socket [s] settle. *)
Inductive ConnectResult := Resolved | Rejected (reason : string) | Pending (s : nat).

(** Lines 170 to 191: the guards and [new WebSocket(wsUrl)].  The handlers
    assigned in lines 193 to 245 are [onopen], [onclose], [onerror] and
    [onmessage] below, run with this [scope]. *)
Definition connect (scope : Scope) : M ConnectResult :=
  let cur := sc_cur scope in
  open ← isOpen (socket cur);
  if open : bool then mret Resolved
  else if isConnecting cur then mret Resolved
  else if negb (isNetworkAvailable cur) then
    mret (Rejected "No network connection available")
  else
    setState (setIsConnecting true);;
    setState (setConnectionError None);;
    console Log "Connecting to WebSocket at";;
    s ← newWebSocket scope;
    mret (Pending s).

(** Lines 193 to 201. *)
Definition onopen (scope : Scope) (s : nat) : M unit :=
  console Log "WebSocket connection established";;
  setState (setSocket (Some s));;
  setState (setIsConnected true);;
  setState (setIsConnecting false);;
  setState (setReconnectAttempts 0);;
  startPingInterval (sc_start scope);;
  emit (Resolve s).

(** Lines 203 to 214. *)
Definition onclose (scope : Scope) (code : Z) (random : Q) : M unit :=
  let cur := sc_cur scope in
  console Log "WebSocket connection closed:";;
  setState (setIsConnected false);;
  setState (setIsConnecting false);;
  setState (setSocket None);;
  cleanupConnection cur;;
  if negb (code =? 1000) && bool_decide (appState cur = active)
     && isNetworkAvailable cur
  then scheduleReconnect (sc_sched scope) random
  else mret tt.

(** Lines 216 to 221. *)
Definition onerror (s : nat) : M unit :=
  console Error "WebSocket error:";;
  setState (setConnectionError (Some "WebSocket connection error"));;
  setState (setIsConnecting false);;
  emit (Reject s).

(** [v.k]: reading a property of [null] or [undefined] throws. *)
Definition property (k : string) (v : JsValue) : option JsValue :=
  match v with
  | VNull | VUndefined => None
  | VObj fields => Some (Obj.get k fields)
  | _ => Some VUndefined
  end.

Definition isString (s : string) (v : JsValue) : bool :=
  match v with VStr s' => String.eqb s s' | _ => false end.

(** [ToString(v)] throws, for a value that [JSON.parse] returned.  The
    template literal of line 229 converts [message.type] to a string.  For an
    object this calls its [toString]: an own property of that name is never
    callable in a parsed value, and [Object.prototype.valueOf], tried next
    unless an own [valueOf] hides it, returns the object itself, so that the
    conversion throws a [TypeError]; without such a property the object
    prints as [[object Object]].  An array joins the strings of its elements,
    [null] counting as the empty string. *)
Fixpoint toStringThrows (v : JsValue) : bool :=
  match v with
  | VObj fields => Obj.has "toString" fields
  | VArr xs => existsb toStringThrows xs
  | _ => false
  end.

(** Lines 235 to 241: each call in its own [try]. *)
Fixpoint notify (ls : list Listener) (message : JsValue) : M unit :=
  match ls with
  | [] => mret tt
  | l :: rest =>
      emit (CallListener (lid l) message);;
      (if throwsOn l message then console Error "Error in WebSocket listener:"
       else mret tt);;
      notify rest message
  end.

(** Lines 223 to 245.  The outer [catch] takes a [SyntaxError] of
    [JSON.parse], a [TypeError] of [message.type] and a [TypeError] of the
    template literal that prints the type alike. *)
Definition onmessage (scope : Scope) (data : string) : M unit :=
  match JSON.parse data with
  | None => console Error "Error parsing WebSocket message:"
  | Some message =>
      match property "type" message with
      | None => console Error "Error parsing WebSocket message:"
      | Some type =>
          let logged := negb (isString "pong" type)
                        && negb (isString "server_ping" type) in
          if logged && toStringThrows type
          then console Error "Error parsing WebSocket message:"
          else
            (if logged then console Log "Received WebSocket message:"
             else mret tt);;
            setState (setLastMessage message);;
            notify (listeners (sc_cur scope)) message
      end
  end.

(** Lines 265 to 278. *)
Definition disconnect (env : State) : M unit :=
  cleanupConnection env;;
  open ← isOpen (socket env);
  match socket env with
  | Some s => if open : bool then socketClose s 1000 else mret tt
  | None => mret tt
  end;;
  setState (setSocket None);;
  setState (setIsConnected false).

(** Lines 312 to 327: a copy of the previous [Set] with the callback added
    or deleted. *)
Definition sameListener (a b : Listener) : bool := Nat.eqb (lid a) (lid b).

Definition addListener (cb : Listener) : M unit :=
  setState (setListeners (fun prev =>
    if existsb (sameListener cb) prev then prev else (prev ++ [cb])%list)).

Definition removeListener (cb : Listener) : M unit :=
  setState (setListeners (List.filter (fun l => negb (sameListener cb l)))).

(** Lines 148 to 154: the callback of the reconnect timer. *)
Definition reconnectTick (nextAttempt : Z) (env : SchedEnv) : M unit :=
  setState (setReconnectAttempts nextAttempt);;
  console Log "Reconnect attempt";;
  r ← connect (schedScope env);
  match r : ConnectResult with
  | Rejected _ => console Error "Reconnect attempt failed:"
  | _ => mret tt
  end.

(** [connect().catch(console.error)]: a promise rejected at once logs its
    reason (the rejection of a pending promise is the effect [Reject]). *)
Definition catchLog (r : ConnectResult) : M unit :=
  match r with
  | Rejected reason => console Error reason
  | _ => mret tt
  end.

(** Lines 70 to 78: [appState.match(/inactive|background/)]. *)
Definition wasAway (a : AppStateStatus) : bool :=
  match a with inactive | background => true | _ => false end.

Definition handleAppStateChange (scope : Scope) (next : AppStateStatus) : M unit :=
  let cur := sc_cur scope in
  (if wasAway (appState cur) && bool_decide (next = active)
      && negb (isConnected cur) && negb (isConnecting cur)
      && isNetworkAvailable cur
   then r ← connect scope; catchLog r else mret tt);;
  setState (setAppState next).

(** Lines 89 to 99; [connected] is [state.isConnected], which may be null. *)
Definition handleNetInfo (scope : Scope) (connected : option bool) : M unit :=
  let cur := sc_cur scope in
  let nowAvailable := bool_decide (connected = Some true) in
  (if nowAvailable && negb (isNetworkAvailable cur)
      && negb (isConnected cur) && negb (isConnecting cur)
   then r ← connect scope; catchLog r else mret tt);;
  setState (setIsNetworkAvailable nowAvailable).

(** Lines 330 to 336: the effect that runs once after the first render. *)
Definition mount (scope : Scope) : M unit :=
  let cur := sc_cur scope in
  if bool_decide (appState cur = active) && isNetworkAvailable cur then
    r ← connect scope;
    match r : ConnectResult with
    | Rejected _ => console Error "Initial WebSocket connection failed:"
    | _ => mret tt
    end
  else mret tt.

(** ** The event loop *)

(** What can happen to the component: a render, the effect that runs after
    the first render, a call of the consumer through the context value of
    the latest render, a callback of a socket, a timer that fires, a
    notification of [AppState] or [NetInfo].  An event carries what the
    environment decides: the close code, the frame, the clock reading, the
    random number that [Math.random()] returns during the handler. *)
Inductive Event :=
| Render
| Mount
| CallConnect
| CallDisconnect
| CallSend (type : string) (data : JsValue) (now : Z)
| CallSendLocation (latitude longitude : JsValue) (now : Z)
| CallNotifyPhotoCapture (photoId metadata : JsValue) (now : Z)
| CallAddListener (cb : Listener)
| CallRemoveListener (cb : Listener)
| SocketOpened (s : nat)
| SocketError (s : nat)
| SocketClosed (s : nat) (code : Z) (random : Q)
| SocketMessage (s : nat) (data : string)
| TimerFired (t : nat) (now : Z)
| AppStateChanged (next : AppStateStatus)
| NetInfoChanged (connected : option bool).

(** A render: the queued updates become the cells, and each memoized
    closure is re-created if one of its dependencies changed (lines 85, 104,
    119 and 157). *)
Definition render (w : World) : World :=
  let old := rendered w in
  let new := pending w in
  let start :=
    if bool_decide (socket old = socket new) then memo_start w else new in
  let sched :=
    if bool_decide (reconnectAttempts old = reconnectAttempts new)
       && bool_decide (reconnectTimer old = reconnectTimer new)
    then memo_sched w else mkSchedEnv new start in
  let scope := mkScope new sched start in
  let same3 :=
    bool_decide (isNetworkAvailable old = isNetworkAvailable new)
    && bool_decide (isConnected old = isConnected new)
    && bool_decide (isConnecting old = isConnecting new) in
  let app :=
    if bool_decide (appState old = appState new) && same3
    then eff_app w else scope in
  let net := if same3 then eff_net w else scope in
  mkWorld new new sched start app net (sockets w) (timers w)
    (next_socket w) (next_timer w) (trace w).

Definition setReadyState (s : nat) (rs : ReadyState) : M unit :=
  withSockets (alter (fun '(_, sc) => (rs, sc)) s).

Definition handle (e : Event) : M unit := fun w =>
  match e with
  | Render => (tt, render w)
  | Mount => mount (currentScope w) w
  | CallConnect => (connect (currentScope w);; mret tt) w
  | CallDisconnect => disconnect (rendered w) w
  | CallSend type data now => (send (rendered w) type data now;; mret tt) w
  | CallSendLocation latitude longitude now =>
      (sendLocation (rendered w) latitude longitude now;; mret tt) w
  | CallNotifyPhotoCapture photoId metadata now =>
      (notifyPhotoCapture (rendered w) photoId metadata now;; mret tt) w
  | CallAddListener cb => addListener cb w
  | CallRemoveListener cb => removeListener cb w
  | SocketOpened s =>
      match sockets w !! s with
      | Some (CONNECTING, scope) => (setReadyState s OPEN;; onopen scope s) w
      | _ => (tt, w)
      end
  | SocketError s =>
      match sockets w !! s with
      | Some (CONNECTING, _) | Some (OPEN, _) | Some (CLOSING, _) => onerror s w
      | _ => (tt, w)
      end
  | SocketClosed s code random =>
      match sockets w !! s with
      | Some (CLOSED, _) | None => (tt, w)
      | Some (_, scope) => (setReadyState s CLOSED;; onclose scope code random) w
      end
  | SocketMessage s data =>
      match sockets w !! s with
      | Some (OPEN, scope) | Some (CLOSING, scope) => onmessage scope data w
      | _ => (tt, w)
      end
  | TimerFired t now =>
      match timers w !! t with
      | Some (ReconnectTimer nextAttempt env) =>
          (withTimers (delete t);; reconnectTick nextAttempt env) w
      | Some (PingTimer env) => pingTick env now w
      | None => (tt, w)
      end
  | AppStateChanged next => handleAppStateChange (eff_app w) next w
  | NetInfoChanged connected => handleNetInfo (eff_net w) connected w
  end.

Definition step (w : World) (e : Event) : World := snd (handle e w).

Definition run (es : list Event) (w : World) : World := fold_left step es w.

(** *** Observations *)

Definition isNewWebSocket (e : Effect) : bool :=
  match e with NewWebSocket _ => true | _ => false end.

Definition isSocketSend (e : Effect) : bool :=
  match e with SocketSend _ _ => true | _ => false end.

Definition isSetTimeout (e : Effect) : bool :=
  match e with SetTimeout _ _ => true | _ => false end.

Definition isReconnectTimer (tm : Timer) : bool :=
  match tm with ReconnectTimer _ _ => true | PingTimer _ => false end.

(** How many times the Transport was opened, how many frames were written,
    how many reconnect timers were scheduled. *)
Definition opens (w : World) : nat := length (List.filter isNewWebSocket (trace w)).
Definition writes (w : World) : nat := length (List.filter isSocketSend (trace w)).
Definition scheduled (w : World) : nat := length (List.filter isSetTimeout (trace w)).

(** The frames written to the Transport, oldest first. *)
Definition frames (w : World) : list string :=
  omap (fun e => match e with SocketSend _ text => Some text | _ => None end)
    (trace w).

(** The handles of the reconnect timers that are outstanding. *)
Definition outstanding (w : World) : list nat :=
  (List.filter (fun kv => isReconnectTimer (snd kv)) (map_to_list (timers w))).*1.

(** The calls of listeners, oldest first. *)
Definition calls (w : World) : list (nat * JsValue) :=
  omap (fun e => match e with CallListener l m => Some (l, m) | _ => None end)
    (trace w).

(** ** Vocabulary of the statements *)

(** The world after one more effect. *)
Definition after (e : Effect) (w : World) : World := snd (emit e w).

(** A character that [JSON.stringify] prints as it is and that [JSON.parse]
    reads as it is. *)
Definition plain (c : ascii) : bool :=
  negb (JSON.code c =? 34) && negb (JSON.code c =? 92) && negb (JSON.code c <? 32).

Definition allPlain (s : string) : bool := forallb plain (list_ascii_of_string s).

(** The payload of [sendLocation(48.8584, 2.2945)], and the message its
    frame parses to. *)
Definition locationPayload : JsValue :=
  VObj [("latitude", VNum 488584 (-4)); ("longitude", VNum 22945 (-4))].

(** The text of a location frame up to the opening quote of the timestamp. *)
Definition locationPrefix : string :=
  String "{" (JSON.quote "type" ++ ":" ++ JSON.quote "location" ++ ","
              ++ JSON.quote "latitude" ++ ":48.8584,"
              ++ JSON.quote "longitude" ++ ":2.2945,"
              ++ JSON.quote "timestamp" ++ ":" ++ String dquote "").

Definition locationMessage (ts : string) : JsValue :=
  VObj [("type", VStr "location"); ("latitude", VNum 488584 (-4));
        ("longitude", VNum 22945 (-4)); ("timestamp", VStr ts)].

(** Every socket has a handle below the next one. *)
Definition fresh (w : World) : Prop :=
  forall s, is_Some (sockets w !! s) -> (s < next_socket w)%nat.

(** An operation that leaves the cells of the latest render alone, does not
    queue an update of [socket] or [isConnected], and leaves the sockets
    that exist as they are. *)
Definition keeps {A} (m : M A) : Prop :=
  forall w,
    let w' := snd (m w) in
    rendered w' = rendered w
    /\ socket (pending w') = socket (pending w)
    /\ isConnected (pending w') = isConnected (pending w)
    /\ (next_socket w <= next_socket w')%nat
    /\ (forall s, (s < next_socket w)%nat -> sockets w' !! s = sockets w !! s)
    /\ (fresh w -> fresh w').

(** In every state the component reaches, a state that is not Connected has
    no socket, and the socket of the state to come, if Connected, is open. *)
Definition consistent (s : State) : Prop := isConnected s = false -> socket s = None.

Definition connectedOpen (w : World) : Prop :=
  isConnected (pending w) = true ->
  exists s scope, socket (pending w) = Some s /\ sockets w !! s = Some (OPEN, scope).

Definition invariant (w : World) : Prop :=
  consistent (rendered w) /\ consistent (pending w)
  /\ fresh w /\ connectedOpen w.

Definition reachable (w : World) : Prop :=
  exists app es, w = run es (initialWorld app).

(** One failed automatic attempt: socket [s] errors and closes abnormally,
    the reconnect timer [s] that this schedules fires. *)
Definition failedAttempt (s : nat) : list Event :=
  [SocketError s; SocketClosed s 1006 0.5; Render; TimerFired s 0; Render].

(** A listener that never throws, and one that always does. *)
Definition quiet : Listener := mkListener 7 (fun _ => false).

Definition thrower : Listener := mkListener 8 (fun _ => true).

(** The text frame of an object whose [type] is [hello]. *)
Definition helloFrame : string :=
  "{" ++ JSON.quote "type" ++ ":" ++ JSON.quote "hello" ++ "}".

(** The text frame of an object whose [type] is an object with a [toString]
    member of its own. *)
Definition unprintableFrame : string :=
  "{" ++ JSON.quote "type" ++ ":{" ++ JSON.quote "toString" ++ ":1}}".

(** ** Vocabulary of the further properties

    The invariant of the event loop, and what is needed to state the
    properties that follow the claims: the operations that write no frame,
    the cleanup at unmount, the values that have a JSON text. *)

(** The ready state of a socket only moves forward: a socket that is no
    longer connecting never connects again, and one that is closing or closed
    never opens again. *)
Definition advances (rs rs' : ReadyState) : bool :=
  match rs, rs' with
  | CONNECTING, _ => true
  | OPEN, CONNECTING => false
  | OPEN, _ => true
  | _, CLOSING | _, CLOSED => true
  | _, _ => false
  end.

(** The socket that a cell holds, if any, has opened at some point. *)
Definition hasOpened (w : World) (o : option nat) : bool :=
  match o with
  | None => true
  | Some s =>
      match sockets w !! s with
      | Some (OPEN, _) | Some (CLOSING, _) | Some (CLOSED, _) => true
      | _ => false
      end
  end.

(** The socket that a cell holds, if any, is closing or closed: it will
    never be open again. *)
Definition isOver (w : World) (o : option nat) : bool :=
  match o with
  | None => true
  | Some s =>
      match sockets w !! s with
      | Some (CLOSING, _) | Some (CLOSED, _) => true
      | _ => false
      end
  end.

(** A later world: the sockets that exist have moved forward, with the
    handlers they had, and no timer handle has been given back. *)
Definition later (w w' : World) : Prop :=
  (forall s rs scope,
     sockets w !! s = Some (rs, scope) ->
     exists rs', sockets w' !! s = Some (rs', scope) /\ advances rs rs' = true)
  /\ (next_timer w <= next_timer w')%nat.

(** The cells of some render, as a closure may hold them. *)
Definition goodState (w : World) (st : State) : Prop :=
  hasOpened w (socket st) = true
  /\ 0 <= reconnectAttempts st <= MAX_RECONNECT_ATTEMPTS
  /\ NoDup (lid <$> listeners st)
  /\ (forall t, pingInterval st = Some t -> (t < next_timer w)%nat)
  /\ (forall t, reconnectTimer st = Some t -> (t < next_timer w)%nat).

(** The same for what [scheduleReconnect] and [connect] capture: the
    [startPingInterval] they hold reads the socket that they read. *)
Definition goodEnv (w : World) (env : SchedEnv) : Prop :=
  goodState w (se_cur env) /\ goodState w (se_start env)
  /\ socket (se_start env) = socket (se_cur env).

Definition goodScope (w : World) (scope : Scope) : Prop :=
  goodState w (sc_cur scope) /\ goodEnv w (sc_sched scope)
  /\ goodState w (sc_start scope)
  /\ socket (sc_start scope) = socket (sc_cur scope).

(** A reconnect timer carries an attempt number from 1 to the ceiling; a
    ping interval reads a socket that is over, and an interval handle older
    than its own. *)
Definition goodTimer (w : World) (t : nat) (tm : Timer) : Prop :=
  match tm with
  | ReconnectTimer nextAttempt env =>
      goodEnv w env /\ 1 <= nextAttempt <= MAX_RECONNECT_ATTEMPTS
  | PingTimer env =>
      isOver w (socket env) = true
      /\ (forall i, pingInterval env = Some i -> (i < t)%nat)
  end.

(** What holds of every world the component reaches.  A socket that is
    still connecting has handlers whose [startPingInterval] reads a socket
    that is over: [connect] only goes on when the socket it reads is not
    open. *)
Definition sound (w : World) : Prop :=
  goodState w (rendered w)
  /\ goodState w (pending w)
  /\ goodScope w (currentScope w)
  /\ goodScope w (eff_app w)
  /\ goodScope w (eff_net w)
  /\ (forall t tm, timers w !! t = Some tm ->
        (t < next_timer w)%nat /\ goodTimer w t tm)
  /\ (forall s rs scope, sockets w !! s = Some (rs, scope) ->
        (s < next_socket w)%nat /\ goodScope w scope
        /\ (rs = CONNECTING -> isOver w (socket (sc_start scope)) = true)).

(** The invariant, in a world later than [w0]. *)
Definition inv (w0 w : World) : Prop := sound w /\ later w0 w.

(** An operation that writes no frame to any socket. *)
Definition silent {A} (m : M A) : Prop :=
  forall w, frames (snd (m w)) = frames w.

(** The calls of the consumer that send. *)
Definition isSendCall (e : Event) : bool :=
  match e with
  | CallSend _ _ _ | CallSendLocation _ _ _ | CallNotifyPhotoCapture _ _ _ => true
  | _ => false
  end.

(** A reconnect timer is set with a delay between 2.4 and 18.225 seconds,
    the ends included. *)
Definition delayInRange (e : Effect) : Prop :=
  match e with
  | SetTimeout _ delay => (2400 <= delay)%Q /\ (delay <= 18225)%Q
  | _ => True
  end.

(** [Math.random()] returns a double in [0, 1). *)
Definition randomInRange (e : Event) : Prop :=
  match e with
  | SocketClosed _ _ random =>
      Double.isDouble random = true /\ (0 <= random)%Q /\ (random < 1)%Q
  | _ => True
  end.

(** A connection made by hand that fails: [connect()] opens socket [s], which
    closes abnormally; the reconnect timer that this sets (its handle is [s]
    as well when every connection so far went this way) fires and opens the
    next socket, which closes in turn; the consumer then calls
    [disconnect()], which cancels the timer that is left. *)
Definition failedManualAttempt (s : nat) : list Event :=
  [CallConnect; Render; SocketClosed s 1006 0.5; Render; TimerFired s 0; Render;
   SocketClosed (S s) 1006 0.5; Render; CallDisconnect; Render].

(** An operation whose effects all satisfy [P]. *)
Definition emits (P : Effect -> Prop) {A} (m : M A) : Prop :=
  forall w, exists l, trace (snd (m w)) = (trace w ++ l)%list /\ Forall P l.

(** Lines 339 to 347: the cleanup of the mount effect, which React runs when
    the provider unmounts.  The effect has no dependencies: its cleanup is a
    closure of the first render.  [socket.close()] without a code does
    nothing on a socket that is closing or closed; the close event of a
    socket closed without a code reports 1005. *)
Definition unmount (scope : Scope) : M unit :=
  let cur := sc_cur scope in
  cleanupConnection cur;;
  match socket cur with
  | Some s =>
      rs ← readyState s;
      match rs : option ReadyState with
      | Some CONNECTING | Some OPEN => socketClose s 1005
      | _ => mret tt
      end
  | None => mret tt
  end.

(** The world [connect] leaves when it passes its three guards. *)
Definition connecting (scope : Scope) (w : World) : World :=
  snd (newWebSocket scope
         (after (Console Log "Connecting to WebSocket at")
            (snd (setState (setConnectionError None)
                    (snd (setState (setIsConnecting true) w)))))).

(** The condition under which [handleAppStateChange] calls [connect]. *)
Definition cameToForeground (cur : State) (next : AppStateStatus) : bool :=
  wasAway (appState cur) && bool_decide (next = active)
  && negb (isConnected cur) && negb (isConnecting cur) && isNetworkAvailable cur.

(** The events that change or render the listener set. *)
Definition isListenerEvent (e : Event) : bool :=
  match e with
  | CallAddListener _ | CallRemoveListener _ | Render => true
  | _ => false
  end.

(** Reading one more decimal digit. *)
Definition digitStep (a : Z) (c : ascii) : Z := 10 * a + (JSON.code c - 48).

(** The decimal [m * 10^e] is written in its shortest form: [m] does not end
    in a zero, and zero is [0 * 10^0]. *)
Definition canonical (m e : Z) : bool :=
  if m =? 0 then e =? 0 else negb (m mod 10 =? 0).

(** The number token after its sign, as [JSON.parseNumber] reads it. *)
Definition unsignedNumber (cs1 : list ascii) : option (Z * Z) :=
  match cs1 with
  | c :: r =>
      if JSON.code c =? 48 then JSON.parseFraction 0 r
      else if JSON.isDigit c then
        match JSON.takeDigits cs1 0 0 with
        | (int, _, rest) => JSON.parseFraction int rest
        end
      else None
  | [] => None
  end.

(** The end of a token: a number is complete when a character that cannot
    continue it arrives, or when the text ends. *)
Definition settle (st : JSON.PState) : option JSON.PState :=
  match st with
  | (JSON.MDefault, _) => Some st
  | (JSON.MNumber acc, stack) =>
      v ← JSON.parseNumber (rev acc);
      stack' ← JSON.deliver v stack;
      Some (JSON.MDefault, stack')
  | _ => None
  end.

(** A value that has a JSON text of its own: no [undefined], no BigInt,
    numbers in their shortest form, objects with distinct keys. *)
Fixpoint jsonValue (v : JsValue) : bool :=
  match v with
  | VUndefined | VBigInt _ => false
  | VNull | VBool _ | VStr _ => true
  | VNum m e => canonical m e
  | VArr xs => forallb jsonValue xs
  | VObj fields =>
      forallb (fun '(_, x) => jsonValue x) fields && bool_decide (NoDup fields.*1)
  end.

(** Printing [v] gives a text [t] that the parser, started where a value is
    expected, reads as [v]. *)
Definition readsAs (v : JsValue) (t : string) : Prop :=
  JSON.serialize v = JSON.Text t
  /\ forall stack, JSON.expectsValue stack = true ->
       exists st, JSON.feed t (JSON.MDefault, stack) = Some st
                  /\ settle st = (stack' ← JSON.deliver v stack;
                                  Some (JSON.MDefault, stack')).

(** The text of an object member whose value has the text [t]. *)
Definition memberText (k t : string) : string := JSON.quote k ++ ":" ++ t.

(** The text of a member whose value reads back. *)
Definition memberReadsAs (kv : string * JsValue) (part : string) : Prop :=
  exists t, readsAs (snd kv) t /\ part = memberText (fst kv) t.

(** [v === undefined]. *)
Definition isUndefined (v : JsValue) : bool :=
  match v with VUndefined => true | _ => false end.

(** The members that [JSON.stringify] prints: those whose value is not
    [undefined]. *)
Definition defined (fields : list (string * JsValue)) : list (string * JsValue) :=
  List.filter (fun kv => negb (isUndefined (snd kv))) fields.

(** Members that are [undefined] or JSON values. *)
Definition jsonFields (fields : list (string * JsValue)) : bool :=
  forallb (fun kv => isUndefined (snd kv) || jsonValue (snd kv)) fields.

(** A payload of [send]: absent, or an object whose members are [undefined]
    or JSON values. *)
Definition jsonPayload (data : JsValue) : bool :=
  match data with
  | VUndefined => true
  | VObj fields => jsonFields fields
  | _ => false
  end.

(** The message that a frame of [send] carries. *)
Definition sentMessage (type : string) (data : JsValue) (now : Z) : JsValue :=
  VObj (defined (envelope type
                   (match data with VUndefined => VObj [] | _ => data end) now)).

(** A payload with a string, a negative decimal, an array and a member that
    is [undefined]. *)
Definition chatPayload : JsValue :=
  VObj [("text", VStr (String "010"%char "a new line, a back\slash"));
        ("offset", VNum (-15) (-1));
        ("tags", VArr [VStr "a"; VNull; VBool true; VNum 12 3]);
        ("draft", VUndefined)].

(** * Properties *)

(** Running a handler on a symbolic world: unfold the monad and the
    primitive operations, down to the record of the resulting world. *)
Ltac run_prims :=
  repeat progress
    (try unfold clearTimer; try unfold socketClose; try unfold isOpen;
     try unfold console; try unfold socketSend; try unfold setReadyState;
     try unfold mbind; try unfold M_bind; try unfold mret; try unfold M_ret;
     cbn [emit setState withSockets withTimers readyState newWebSocket newTimer
          rendered pending memo_sched memo_start eff_app eff_net sockets timers
          next_socket next_timer trace fst snd]).

(** ** The rounding of doubles *)

Section Rounding.

Open Scope Q_scope.

Lemma pow2_pos (e : Z) : 0 < 2 ^ e.
Proof. apply Qpower_0_lt. reflexivity. Qed.

Lemma pow2_plus (a b : Z) : 2 ^ (a + b) == 2 ^ a * 2 ^ b.
Proof. apply Qpower_plus. discriminate. Qed.

Lemma pow2_succ (a : Z) : 2 ^ (a + 1) == 2 * 2 ^ a.
Proof. rewrite pow2_plus. change (2 ^ 1) with 2. ring. Qed.

Lemma pow2_minus (a b : Z) : 2 ^ (a - b) == 2 ^ a / 2 ^ b.
Proof.
  unfold Z.sub. rewrite pow2_plus, Qpower_opp. reflexivity.
Qed.

Lemma pow2_le (a b : Z) : (a <= b)%Z -> 2 ^ a <= 2 ^ b.
Proof. intros H. apply Qpower_le_compat_l; [exact H | discriminate]. Qed.

Lemma pow2_inject (n : Z) : (0 <= n)%Z -> inject_Z (2 ^ n) == 2 ^ n.
Proof. intros H. apply (Zpower_Qpower 2 n H). Qed.

(** A positive rational lies in the binade that [ilog2] names. *)
Lemma ilog2_spec (q : Q) :
  0 < q -> 2 ^ Double.ilog2 q <= q /\ q < 2 ^ (Double.ilog2 q + 1).
Proof.
  intros Hq. unfold Double.ilog2.
  destruct q as [a b]. cbn [Qnum Qden].
  assert (Ha : (0 < a)%Z).
  { unfold Qlt in Hq. cbn in Hq. lia. }
  set (la := Z.log2 a). set (lb := Z.log2 (Z.pos b)).
  assert (Hla : (0 <= la)%Z) by apply Z.log2_nonneg.
  assert (Hlb : (0 <= lb)%Z) by apply Z.log2_nonneg.
  destruct (Z.log2_spec a Ha) as [A1 A2]. fold la in A1, A2.
  destruct (Z.log2_spec (Z.pos b) eq_refl) as [B1 B2]. fold lb in B1, B2.
  rewrite Zle_Qle in A1, B1. rewrite Zlt_Qlt in A2, B2.
  rewrite pow2_inject in A1, B1 by assumption.
  rewrite pow2_inject in A2, B2 by lia.
  change (Z.succ la) with (la + 1)%Z in A2.
  change (Z.succ lb) with (lb + 1)%Z in B2.
  rewrite pow2_succ in A2, B2.
  pose proof (pow2_pos la) as Pa. pose proof (pow2_pos lb) as Pb.
  assert (Hq' : a # b == inject_Z a / inject_Z (Z.pos b)) by apply Qmake_Qdiv.
  set (A := inject_Z a) in *. set (B := inject_Z (Z.pos b)) in *.
  set (PA := 2 ^ la) in *. set (PB := 2 ^ lb) in *.
  assert (HB : 0 < B) by lra.
  assert (Hup : a # b < 2 * (PA / PB)).
  { rewrite Hq'. apply Qlt_shift_div_r; [exact HB|].
    assert (E : 2 * (PA / PB) * B == 2 * PA * (B / PB)) by (field; lra).
    rewrite E. clear E.
    assert (1 <= B / PB) by (apply Qle_shift_div_l; lra).
    nra. }
  assert (Hlo : PA / PB / 2 < a # b).
  { rewrite Hq'. apply Qlt_shift_div_l; [exact HB|].
    assert (E : PA / PB / 2 * B == PA * (B / PB / 2)) by (field; lra).
    rewrite E. clear E.
    assert (B / PB / 2 < 1).
    { apply Qlt_shift_div_r; [reflexivity|]. apply Qlt_shift_div_r; lra. }
    nra. }
  assert (E0 : 2 ^ (la - lb) == PA / PB) by apply pow2_minus.
  destruct (Qle_bool (2 ^ (la - lb)) (a # b)) eqn:Hle.
  - apply Qle_bool_iff in Hle. split; [exact Hle|].
    rewrite pow2_succ, E0. exact Hup.
  - assert (Hlt : a # b < 2 ^ (la - lb)).
    { apply Qnot_le_lt. intros H. apply Qle_bool_iff in H. congruence. }
    replace (la - lb - 1 + 1)%Z with (la - lb)%Z by lia.
    split; [|exact Hlt].
    assert (E1 : 2 ^ (la - lb - 1) == PA / PB / 2).
    { rewrite pow2_minus, E0. reflexivity. }
    rewrite E1. apply Qlt_le_weak. exact Hlo.
Qed.

(** The binade of a number is the only one that holds it. *)
Lemma ilog2_unique (q : Q) (e : Z) :
  2 ^ e <= q -> q < 2 ^ (e + 1) -> Double.ilog2 q = e.
Proof.
  intros H1 H2.
  assert (Hq : 0 < q) by (pose proof (pow2_pos e); lra).
  destruct (ilog2_spec q Hq) as [S1 S2].
  assert (L1 : (Double.ilog2 q < e + 1)%Z).
  { apply (Qpower_lt_compat_l_inv 2); [lra | reflexivity]. }
  assert (L2 : (e < Double.ilog2 q + 1)%Z).
  { apply (Qpower_lt_compat_l_inv 2); [lra | reflexivity]. }
  lia.
Qed.

Lemma ilog2_le (x y : Q) : 0 < x -> x <= y -> (Double.ilog2 x <= Double.ilog2 y)%Z.
Proof.
  intros Hx Hxy.
  destruct (ilog2_spec x Hx) as [X1 _].
  destruct (ilog2_spec y) as [_ Y2]; [lra|].
  assert (L : (Double.ilog2 x < Double.ilog2 y + 1)%Z).
  { apply (Qpower_lt_compat_l_inv 2); [lra | reflexivity]. }
  lia.
Qed.

Lemma ilog2_comp (x y : Q) : 0 < x -> x == y -> Double.ilog2 x = Double.ilog2 y.
Proof.
  intros Hx E. destruct (ilog2_spec x Hx) as [X1 X2].
  symmetry. apply ilog2_unique; rewrite <- E; assumption.
Qed.

Lemma rne_cases (q : Q) :
  Double.rne q = Qfloor q \/ Double.rne q = (Qfloor q + 1)%Z.
Proof.
  unfold Double.rne. destruct (_ ?= _); [destruct (Z.even _)| |]; auto.
Qed.

Lemma rne_comp (x y : Q) : x == y -> Double.rne x = Double.rne y.
Proof.
  intros E. unfold Double.rne. rewrite (Qfloor_comp x y E).
  assert (E' : x - inject_Z (Qfloor y) == y - inject_Z (Qfloor y)) by (rewrite E; reflexivity).
  rewrite (Qcompare_comp _ _ E' (1 # 2) (1 # 2) (Qeq_refl _)). reflexivity.
Qed.

(** Rounding to the nearest integer keeps the order. *)
Lemma rne_le (x y : Q) : x <= y -> (Double.rne x <= Double.rne y)%Z.
Proof.
  intros Hxy. pose proof (Qfloor_resp_le x y Hxy) as Hf.
  destruct (Z.eq_dec (Qfloor x) (Qfloor y)) as [E|N].
  - unfold Double.rne. rewrite <- E.
    destruct (Qcompare_spec (x - inject_Z (Qfloor x)) (1 # 2)) as [Hx|Hx|Hx];
      destruct (Qcompare_spec (y - inject_Z (Qfloor x)) (1 # 2)) as [Hy|Hy|Hy];
      try destruct (Z.even (Qfloor x)); try lia; exfalso; lra.
  - destruct (rne_cases x) as [-> | ->], (rne_cases y) as [-> | ->]; lia.
Qed.

Lemma rne_Z (n : Z) : Double.rne (inject_Z n) = n.
Proof.
  unfold Double.rne. rewrite Qfloor_Z.
  destruct (Qcompare_spec (inject_Z n - inject_Z n) (1 # 2)) as [H|H|H];
    [exfalso; lra | reflexivity | exfalso; lra].
Qed.

Lemma ulpExp_pos (q : Q) : 0 < q -> Double.ulpExp q = (Z.max (Double.ilog2 q) (-1022) - 52)%Z.
Proof.
  intros Hq. unfold Double.ulpExp.
  rewrite (ilog2_comp (Qabs q) q); [reflexivity | | apply Qabs_pos; lra].
  rewrite Qabs_pos; lra.
Qed.

Lemma round_pos (q : Q) :
  0 < q ->
  Double.round q
  = inject_Z (Double.rne (q / 2 ^ Double.ulpExp q)) * 2 ^ Double.ulpExp q.
Proof.
  intros Hq. unfold Double.round.
  destruct (Qeq_bool q 0) eqn:E; [|reflexivity].
  apply Qeq_bool_eq in E. lra.
Qed.

Lemma round_zero (q : Q) : q == 0 -> Double.round q = 0.
Proof.
  intros E. unfold Double.round. rewrite (Qeq_eq_bool _ _ E). reflexivity.
Qed.

(** A positive number rounds into its binade, ends included. *)
Lemma round_binade (q : Q) :
  0 < q ->
  let e := Z.max (Double.ilog2 q) (-1022) in
  Double.round q <= 2 ^ (e + 1)
  /\ ((-1022 <= Double.ilog2 q)%Z -> 2 ^ e <= Double.round q)
  /\ 0 <= Double.round q.
Proof.
  intros Hq e. rewrite round_pos by exact Hq. rewrite ulpExp_pos by exact Hq.
  fold e. set (p := (e - 52)%Z).
  destruct (ilog2_spec q Hq) as [S1 S2].
  pose proof (pow2_pos p) as Pp.
  assert (E53 : 2 ^ (e + 1) == inject_Z (2 ^ 53) * 2 ^ p).
  { replace (e + 1)%Z with (53 + p)%Z by (unfold p; lia).
    rewrite pow2_plus. reflexivity. }
  assert (E52 : 2 ^ e == inject_Z (2 ^ 52) * 2 ^ p).
  { replace e with (52 + p)%Z at 1 by (unfold p; lia).
    rewrite pow2_plus. reflexivity. }
  assert (Hup : q / 2 ^ p <= inject_Z (2 ^ 53)).
  { apply Qle_shift_div_r; [exact Pp|]. rewrite <- E53.
    apply Qlt_le_weak. apply (Qlt_le_trans _ _ _ S2).
    apply pow2_le. unfold e. lia. }
  split; [|split].
  - rewrite E53. apply Qmult_le_compat_r; [|lra].
    rewrite <- Zle_Qle. rewrite <- (rne_Z (2 ^ 53)). apply rne_le. exact Hup.
  - intros Hn. rewrite E52. apply Qmult_le_compat_r; [|lra].
    rewrite <- Zle_Qle. rewrite <- (rne_Z (2 ^ 52)). apply rne_le.
    apply Qle_shift_div_l; [exact Pp|]. rewrite <- E52.
    replace e with (Double.ilog2 q) by (unfold e; lia). exact S1.
  - apply Qmult_le_0_compat; [|lra].
    assert (H0 : (0 <= Double.rne (q / 2 ^ p))%Z).
    { rewrite <- (rne_Z 0) at 1. apply rne_le.
      apply Qle_shift_div_l; [exact Pp|]. change (inject_Z 0) with 0. lra. }
    rewrite Zle_Qle in H0. exact H0.
Qed.

(** Rounding to the nearest double keeps the order. *)
Lemma round_le (x y : Q) : 0 <= x -> x <= y -> Double.round x <= Double.round y.
Proof.
  intros Hx Hxy.
  destruct (Qeq_dec x 0) as [E|N].
  { rewrite (round_zero x E).
    destruct (Qeq_dec y 0) as [Ey|Ny]; [rewrite (round_zero y Ey); lra|].
    apply round_binade. lra. }
  assert (Hx' : 0 < x) by lra. assert (Hy' : 0 < y) by lra.
  pose proof (ilog2_le x y Hx' Hxy) as Hlog.
  destruct (Z.eq_dec (Z.max (Double.ilog2 x) (-1022)) (Z.max (Double.ilog2 y) (-1022)))
    as [E|Hne].
  - rewrite !round_pos, !ulpExp_pos by assumption. rewrite <- E.
    set (p := (Z.max (Double.ilog2 x) (-1022) - 52)%Z).
    pose proof (pow2_pos p) as Pp.
    apply Qmult_le_compat_r; [|lra].
    rewrite <- Zle_Qle. apply rne_le.
    apply Qle_shift_div_l; [exact Pp|].
    rewrite Qmult_comm, Qmult_div_r by lra. exact Hxy.
  - destruct (round_binade x Hx') as (X1 & _ & _).
    destruct (round_binade y Hy') as (_ & Y2 & _).
    cbv zeta in X1, Y2.
    apply (Qle_trans _ _ _ X1). apply (Qle_trans _ (2 ^ Z.max (Double.ilog2 y) (-1022))).
    + apply pow2_le. lia.
    + apply Y2. lia.
Qed.

Lemma round_comp (x y : Q) : x == y -> Double.round x = Double.round y.
Proof.
  intros E. unfold Double.round. rewrite (Qeqb_comp x y E 0 0 (Qeq_refl 0)).
  destruct (Qeq_bool y 0) eqn:Hy; [reflexivity|].
  apply Qeq_bool_neq in Hy.
  assert (Hp : Double.ulpExp x = Double.ulpExp y).
  { unfold Double.ulpExp. rewrite (ilog2_comp (Qabs x) (Qabs y)); [reflexivity| |].
    - rewrite E. destruct (Qlt_le_dec 0 y) as [Hpos|Hneg].
      + rewrite Qabs_pos; lra.
      + rewrite Qabs_neg by exact Hneg.
        destruct (Qeq_dec y 0) as [Hz|Hnz]; [contradiction|].
        apply Qnot_le_lt. intros Hle. apply Hnz. lra.
    - rewrite E. reflexivity. }
  rewrite Hp. rewrite (rne_comp (x / 2 ^ Double.ulpExp y) (y / 2 ^ Double.ulpExp y));
    [reflexivity | rewrite E; reflexivity].
Qed.

Lemma round_nonneg (q : Q) : 0 <= q -> 0 <= Double.round q.
Proof.
  intros Hq. destruct (Qeq_dec q 0) as [E|N].
  - rewrite (round_zero q E). lra.
  - apply round_binade. lra.
Qed.

(** The largest double below 1 is [1 - 2^-53]. *)
Lemma isDouble_below_one (r : Q) :
  Double.isDouble r = true -> 0 <= r -> r < 1 -> r <= 1 - 2 ^ (-53).
Proof.
  intros Hd H0 H1. change (2 ^ (-53)) with (1 # 9007199254740992).
  destruct (Qlt_le_dec r (1 # 2)) as [Hs|Hb]; [lra|].
  assert (Hlog : Double.ilog2 r = (-1)%Z).
  { apply ilog2_unique; [exact Hb | exact H1]. }
  apply Qeq_bool_eq in Hd. rewrite round_pos in Hd by lra.
  rewrite ulpExp_pos in Hd by lra. rewrite Hlog in Hd.
  change (Z.max (-1) (-1022) - 52)%Z with (-53)%Z in Hd.
  change (2 ^ (-53)) with (1 # 9007199254740992) in Hd.
  set (k := Double.rne _) in Hd.
  assert (Hk : (k < 9007199254740992)%Z).
  { rewrite Zlt_Qlt. change (inject_Z 9007199254740992) with 9007199254740992. lra. }
  assert (Hk' : inject_Z k <= inject_Z 9007199254740991).
  { rewrite <- Zle_Qle. lia. }
  change (inject_Z 9007199254740991) with 9007199254740991 in Hk'. lra.
Qed.

End Rounding.

(** ** The backoff delay *)

(** Comparing two numbers that are given in full. *)
Ltac by_computation :=
  first [ apply Qle_bool_imp_le; vm_compute; reflexivity
        | apply Qlt_alt; vm_compute; reflexivity
        | apply Qeq_bool_eq; vm_compute; reflexivity ].

Section Backoff.

Open Scope Q_scope.

(** The jitter factor of a random number in [0, 1) lies between the doubles
    nearest to 0.8 and to 1.2. *)
Lemma jitterFactor_range (random : Q) :
  Double.isDouble random = true -> 0 <= random -> random < 1 ->
  Double.round 0.8 <= jitterFactor random
  /\ jitterFactor random <= Double.round 1.2.
Proof.
  intros Hd H0 H1. pose proof (isDouble_below_one random Hd H0 H1) as Hmax.
  unfold jitterFactor, Double.add, Double.mul.
  set (c8 := Double.round 0.8). set (c4 := Double.round 0.4).
  assert (P8 : 0 <= c8) by by_computation.
  assert (P4 : 0 <= c4) by by_computation.
  set (s := Double.round (random * c4)).
  assert (S0 : 0 <= s) by (apply round_nonneg; nra).
  assert (S1 : s <= Double.round ((1 - 2 ^ (-53)) * c4)).
  { apply round_le; [nra|]. apply Qmult_le_compat_r; assumption. }
  split.
  - apply (Qle_trans _ (Double.round c8)); [by_computation|].
    apply round_le; lra.
  - apply (Qle_trans _ (Double.round (c8 + Double.round ((1 - 2 ^ (-53)) * c4))));
      [|by_computation].
    apply round_le; lra.
Qed.

(** From 6 attempts on the cap of 30 seconds applies. *)
Lemma backoffBase_capped (attempts : Z) :
  (6 <= attempts)%Z -> backoffBase attempts == 30000.
Proof.
  intros H. unfold backoffBase, Math.min, Math.pow, Double.mul, BASE_RECONNECT_DELAY.
  apply Q.min_l.
  apply (Qle_trans _ (Double.round (3000 * Double.round (1.5 ^ 6)))); [by_computation|].
  assert (P : 0 <= Double.round (1.5 ^ 6)) by by_computation.
  apply round_le; [nra|].
  apply Qmult_le_l; [reflexivity|].
  apply round_le; [by_computation|].
  apply Qpower_le_compat_l; [exact H | by_computation].
Qed.

(** The delay stays between 0.8 and 1.2 times the base delay: the two ends
    are doubles, for each base delay there is. *)
Lemma reconnectDelay_bounds (attempts : Z) (random : Q) :
  Double.isDouble random = true -> 0 <= random -> random < 1 ->
  (0 <= attempts)%Z ->
  0.8 * backoffBase attempts <= reconnectDelay attempts random
  /\ reconnectDelay attempts random <= 1.2 * backoffBase attempts.
Proof.
  intros Hd H0 H1 Ha.
  destruct (jitterFactor_range random Hd H0 H1) as [Jlo Jhi].
  assert (J0 : 0 <= Double.round 0.8) by by_computation.
  assert (Hb : forall b : Q,
             0 <= b ->
             0.8 * b <= Double.round (b * Double.round 0.8) ->
             Double.round (b * Double.round 1.2) <= 1.2 * b ->
             0.8 * b <= Double.mul b (jitterFactor random)
             /\ Double.mul b (jitterFactor random) <= 1.2 * b).
  { intros b B0 Blo Bhi. unfold Double.mul. split.
    - apply (Qle_trans _ _ _ Blo). apply round_le; nra.
    - apply (Qle_trans _ (Double.round (b * Double.round 1.2))); [|exact Bhi].
      apply round_le; nra. }
  unfold reconnectDelay.
  destruct (Z_lt_le_dec attempts 6) as [Hlt|Hge].
  - assert (Hcase : (attempts = 0 \/ attempts = 1 \/ attempts = 2 \/ attempts = 3
                     \/ attempts = 4 \/ attempts = 5)%Z) by lia.
    repeat (destruct Hcase as [Hcase|Hcase]); subst attempts;
      apply Hb; by_computation.
  - pose proof (backoffBase_capped attempts Hge) as E.
    unfold Double.mul. rewrite (round_comp _ (30000 * jitterFactor random))
      by (rewrite E; reflexivity).
    rewrite E. apply (Hb 30000); by_computation.
Qed.

(** Below the ceiling of 5 attempts the cap of 30 seconds is not reached:
    the base delay is [3000 * 1.5^attempts], between 3 and 15.1875
    seconds. *)
Lemma backoffBase_below_ceiling (attempts : Z) :
  (0 <= attempts < MAX_RECONNECT_ATTEMPTS)%Z ->
  backoffBase attempts == 3000 * 1.5 ^ attempts
  /\ 3000 <= backoffBase attempts /\ backoffBase attempts <= 15187.5.
Proof.
  unfold MAX_RECONNECT_ATTEMPTS. intros H.
  assert (Hcase : (attempts = 0 \/ attempts = 1 \/ attempts = 2 \/ attempts = 3
                   \/ attempts = 4)%Z) by lia.
  repeat (destruct Hcase as [Hcase|Hcase]); subst attempts;
    (split; [|split]); by_computation.
Qed.


End Backoff.

(** The rounding of [Double] is the rounding of the machine: for random
    numbers across [0, 1), its two ends among them, and for each number of
    attempts below the ceiling, the delay computed here is the one that the
    kernel computes on its binary64 numbers. *)
Example reconnectDelay_agrees_with_binary64 :
  forallb
    (fun q : Q =>
       let random := Double.round q in
       Double.isDouble random
       && forallb
            (fun attempts : Z =>
               match reconnectDelay64 attempts random with
               | Some delay => Qeq_bool delay (reconnectDelay attempts random)
               | None => false
               end)
            [0; 1; 2; 3; 4])
    [0; 1 # 1000; 0.1; 0.25; 1 # 3; 0.5; 0.7; 0.9; 1 - 2 ^ (-50);
     1 - 2 ^ (-51); 1 - 2 ^ (-52); 1 - 2 ^ (-53)]%Q
  = true.
Proof. vm_compute. reflexivity. Qed.

Lemma scheduleReconnect_below_ceiling (env : SchedEnv) (random : Q) (w : World) :
  reconnectAttempts (se_cur env) < MAX_RECONNECT_ATTEMPTS ->
  let attempts := reconnectAttempts (se_cur env) in
  let w' := snd (scheduleReconnect env random w) in
  List.filter isSetTimeout (trace w')
  = (List.filter isSetTimeout (trace w)
       ++ [SetTimeout (next_timer w) (reconnectDelay attempts random)])%list
  /\ timers w' !! next_timer w = Some (ReconnectTimer (attempts + 1) env)
  /\ reconnectTimer (pending w') = Some (next_timer w)
  /\ reconnectAttempts (pending w') = reconnectAttempts (pending w).
Proof.
  intros Hlt. unfold scheduleReconnect.
  apply Z.leb_gt in Hlt. rewrite Hlt.
  destruct (reconnectTimer (se_cur env)) as [t|]; run_prims;
    rewrite ?List.filter_app; cbn [List.filter isSetTimeout app];
    rewrite ?app_nil_r, ?lookup_insert_eq; auto.
Qed.



(** ** The attempts counter *)

(** The timer callback writes the counter, whatever [connect] does next. *)
Lemma reconnectTick_sets_attempts (nextAttempt : Z) (env : SchedEnv) (w : World) :
  reconnectAttempts (pending (snd (reconnectTick nextAttempt env w))) = nextAttempt.
Proof.
  unfold reconnectTick, connect, schedScope. cbn [sc_cur].
  destruct (socket (se_cur env)) as [s|]; run_prims;
    [destruct (bool_decide _)|]; cbn;
    destruct (isConnecting (se_cur env)), (isNetworkAvailable (se_cur env));
    reflexivity.
Qed.

(** C8, as the code has it.  [scheduleReconnect] leaves the counter as it is:
    it sets a timer that carries [nextAttempt = attempts + 1] and whose delay
    is computed with exponent [nextAttempt - 1]; the counter becomes
    [nextAttempt] when that timer fires, in its callback. *)
Theorem attempts_written_when_timer_fires
  (env : SchedEnv) (random : Q) (w wfire : World) :
  reconnectAttempts (se_cur env) < MAX_RECONNECT_ATTEMPTS ->
  let nextAttempt := reconnectAttempts (se_cur env) + 1 in
  let w' := snd (scheduleReconnect env random w) in
  reconnectAttempts (pending w') = reconnectAttempts (pending w)
  /\ timers w' !! next_timer w = Some (ReconnectTimer nextAttempt env)
  /\ List.filter isSetTimeout (trace w')
     = (List.filter isSetTimeout (trace w)
          ++ [SetTimeout (next_timer w)
                (Double.mul (backoffBase (nextAttempt - 1))
                   (jitterFactor random))])%list
  /\ reconnectAttempts (pending (snd (reconnectTick nextAttempt env wfire)))
     = nextAttempt.
Proof.
  intros Hlt nextAttempt w'.
  destruct (scheduleReconnect_below_ceiling env random w Hlt)
    as (Htrace & Htimer & _ & Hsame).
  split; [exact Hsame|]. split; [exact Htimer|].
  split; [|apply reconnectTick_sets_attempts].
  subst w' nextAttempt. rewrite Htrace.
  replace (reconnectAttempts (se_cur env) + 1 - 1)
    with (reconnectAttempts (se_cur env)) by lia.
  reflexivity.
Qed.

Lemma attempts_written_when_timer_fires_witness :
  let env := mkSchedEnv (initialState active) (initialState active) in
  let w := initialWorld active in
  reconnectAttempts (pending (snd (scheduleReconnect env 0.5 w))) = 0
  /\ timers (snd (scheduleReconnect env 0.5 w)) !! 1%nat
     = Some (ReconnectTimer 1 env).
Proof.
  intros env w.
  pose proof (attempts_written_when_timer_fires env 0.5 w w) as H.
  destruct H as (H1 & H2 & _); [reflexivity|].
  split; [exact H1 | exact H2].
Defined.

(** C8, as the specification has it, fails: a first abnormal close schedules
    timer 1, and while that timer is outstanding the counter is still 0, in
    the cells of the latest render and in the queued updates alike. *)
Lemma attempts_not_written_when_scheduled :
  let w := run [Mount; Render; SocketClosed 1 1006 0.5; Render]
             (initialWorld active) in
  outstanding w = [1%nat]
  /\ reconnectAttempts (rendered w) = 0
  /\ reconnectAttempts (pending w) = 0
  /\ reconnectAttempts (pending w) <> 1.
Proof. vm_compute. repeat split; discriminate. Qed.

(** ** The envelope *)

Section ObjectLemmas.

Implicit Types (k : string) (v : JsValue) (o src : list (string * JsValue)).



Lemma has_In k o : Obj.has k o = true <-> k ∈ o.*1.
Proof.
  induction o as [|[k' v'] o IH]; cbn.
  - split; [discriminate|]. intros H. inversion H.
  - destruct (String.eqb k k') eqn:E.
    + apply String.eqb_eq in E. subst. split; auto. intros _. left.
    + apply String.eqb_neq in E. rewrite IH. split.
      * intros H. right. exact H.
      * intros H. inversion H; subst; [congruence | assumption].
Qed.

Lemma set_fresh k v o : Obj.has k o = false -> Obj.set k v o = (o ++ [(k, v)])%list.
Proof.
  induction o as [|[k' v'] o IH]; cbn; [reflexivity|].
  destruct (String.eqb k k'); [discriminate|].
  intros H. rewrite IH by exact H. reflexivity.
Qed.

Lemma keys_set_present k v o : Obj.has k o = true -> (Obj.set k v o).*1 = o.*1.
Proof.
  induction o as [|[k' v'] o IH]; cbn; [discriminate|].
  destruct (String.eqb k k'); cbn; [reflexivity|].
  intros H. rewrite IH by exact H. reflexivity.
Qed.

Lemma NoDup_set k v o : NoDup o.*1 -> NoDup (Obj.set k v o).*1.
Proof.
  intros Hnd. destruct (Obj.has k o) eqn:E.
  - rewrite keys_set_present by exact E. exact Hnd.
  - rewrite set_fresh by exact E. rewrite fmap_app. cbn.
    apply NoDup_app. split; [exact Hnd|]. split; [|apply NoDup_singleton].
    intros x Hx Hx'. apply list_elem_of_singleton in Hx'. subst x.
    apply has_In in Hx. congruence.
Qed.

Lemma NoDup_assign src o : NoDup o.*1 -> NoDup (Obj.assign src o).*1.
Proof.
  unfold Obj.assign. revert o.
  induction src as [|[k v] src IH]; intros o Hnd; cbn; [exact Hnd|].
  apply IH. apply NoDup_set. exact Hnd.
Qed.



End ObjectLemmas.

(** ** The timestamp *)

Section DateLemmas.

#[local] Ltac Zify.zify_post_hook ::= Z.div_mod_to_equations.

Lemma digitVal_digitChar (n : Z) : digitVal (digitChar (n mod 10)) = Some (n mod 10).
Proof.
  assert (H : 0 <= n mod 10 < 10) by lia.
  assert (Hcase : n mod 10 = 0 \/ n mod 10 = 1 \/ n mod 10 = 2 \/ n mod 10 = 3
                  \/ n mod 10 = 4 \/ n mod 10 = 5 \/ n mod 10 = 6
                  \/ n mod 10 = 7 \/ n mod 10 = 8 \/ n mod 10 = 9) by lia.
  repeat (destruct Hcase as [Hcase|Hcase]); rewrite Hcase; reflexivity.
Qed.

Lemma num2_digits (a b : Z) :
  Date.num2 (digitChar (a mod 10)) (digitChar (b mod 10))
  = Some (10 * (a mod 10) + b mod 10).
Proof. unfold Date.num2. rewrite !digitVal_digitChar. reflexivity. Qed.

Lemma monthLength_cases (m : Z) :
  1 <= m <= 12 ->
  (m = 2 /\ Date.monthLength m = 29)
  \/ ((m = 4 \/ m = 6 \/ m = 9 \/ m = 11) /\ Date.monthLength m = 30)
  \/ ((m = 1 \/ m = 3 \/ m = 5 \/ m = 7 \/ m = 8 \/ m = 10 \/ m = 12)
      /\ Date.monthLength m = 31).
Proof.
  intros H.
  assert (Hcase : m = 1 \/ m = 2 \/ m = 3 \/ m = 4 \/ m = 5 \/ m = 6 \/ m = 7
                  \/ m = 8 \/ m = 9 \/ m = 10 \/ m = 11 \/ m = 12) by lia.
  repeat (destruct Hcase as [Hcase|Hcase]); subst m; vm_compute; intuition congruence.
Qed.

Lemma civil_fields (days : Z) :
  let '(y, m, d) := Date.civil days in
  1 <= m <= 12 /\ 1 <= d <= Date.monthLength m
  /\ (-719528 <= days <= 2932896 -> 0 <= y <= 9999).
Proof.
  unfold Date.civil.
  set (z := days + 719468).
  set (doe := z mod 146097).
  set (yoe := (doe - doe / 1460 + doe / 36524 - doe / 146096) / 365).
  set (doy := doe - (365 * yoe + yoe / 4 - yoe / 100)).
  set (mp := (5 * doy + 2) / 153).
  set (m := if mp <? 10 then mp + 3 else mp - 9).
  assert (Hdoe : 0 <= doe < 146097) by (subst doe; lia).
  assert (Hyoe : 0 <= yoe <= 399 /\ 0 <= doy <= 365) by (subst doy yoe; lia).
  assert (Hmp : 0 <= mp <= 11) by (subst mp; lia).
  assert (Hm : (mp < 10 /\ m = mp + 3) \/ (10 <= mp /\ m = mp - 9)).
  { subst m. destruct (Z.ltb_spec mp 10); lia. }
  assert (Hm12 : 1 <= m <= 12) by lia.
  pose proof (monthLength_cases m Hm12) as HML.
  split; [exact Hm12|]. split.
  - clearbody m doe yoe. subst mp. lia.
  - intros Hdays. destruct (Z.leb_spec m 2); subst mp doy yoe doe z; lia.
Qed.

(** Every timestamp with a four-digit year has the ISO 8601 format. *)
Lemma toISOString_valid (t : Z) :
  Date.minFourDigit <= t <= Date.maxFourDigit ->
  Date.isISO8601 (Date.toISOString t) = true.
Proof.
  unfold Date.minFourDigit, Date.maxFourDigit. intros Ht.
  unfold Date.toISOString.
  pose proof (civil_fields (t / Date.msPerDay)) as Hciv.
  destruct (Date.civil (t / Date.msPerDay)) as [[y m] d].
  destruct Hciv as (Hm & Hd & Hy).
  assert (Hy' : 0 <= y <= 9999) by (apply Hy; unfold Date.msPerDay; lia).
  clear Hy. unfold Date.yearString.
  replace ((0 <=? y) && (y <=? 9999)) with true
    by (symmetry; apply andb_true_iff; split; apply Z.leb_le; lia).
  set (ms := t mod Date.msPerDay).
  assert (Hms : 0 <= ms < 86400000) by (subst ms; unfold Date.msPerDay; lia).
  assert (Hmonth : Date.monthLength m <= 31).
  { unfold Date.monthLength. repeat case_match; lia. }
  unfold Date.isISO8601, Date.pad4, Date.pad3, Date.pad2.
  cbv beta iota delta [String.append list_ascii_of_string].
  rewrite !num2_digits, !digitVal_digitChar.
  cbv beta iota delta [Ascii.eqb Bool.eqb andb].
  replace (10 * (m / 10 mod 10) + m mod 10) with m by lia.
  replace (10 * (d / 10 mod 10) + d mod 10) with d by lia.
  replace (10 * (ms / 3600000 / 10 mod 10) + ms / 3600000 mod 10)
    with (ms / 3600000) by lia.
  replace (10 * (ms / 60000 mod 60 / 10 mod 10) + ms / 60000 mod 60 mod 10)
    with (ms / 60000 mod 60) by lia.
  replace (10 * (ms / 1000 mod 60 / 10 mod 10) + ms / 1000 mod 60 mod 10)
    with (ms / 1000 mod 60) by lia.
  repeat (apply andb_true_iff; split); apply Z.leb_le; lia.
Qed.

End DateLemmas.

(** ** Printing and parsing a string without escapes *)

Section PlainStrings.

#[local] Ltac Zify.zify_post_hook ::= Z.div_mod_to_equations.

Lemma quoteChar_plain (c : ascii) : plain c = true -> JSON.quoteChar c = String c "".
Proof.
  unfold plain, JSON.quoteChar, JSON.code.
  set (n := Z.of_nat (nat_of_ascii c)).
  rewrite !andb_true_iff, !negb_true_iff. intros [[H34 H92] H32].
  rewrite H34, H92.
  assert (Hn : 32 <= n /\ n <> 34 /\ n <> 92)
    by (apply Z.ltb_ge in H32; apply Z.eqb_neq in H34, H92; lia).
  destruct (Z.eqb_spec n 8); [lia|]. destruct (Z.eqb_spec n 12); [lia|].
  destruct (Z.eqb_spec n 10); [lia|]. destruct (Z.eqb_spec n 13); [lia|].
  destruct (Z.eqb_spec n 9); [lia|].
  rewrite ?H32. reflexivity.
Qed.

Lemma quoteBody_plain (s : string) : allPlain s = true -> JSON.quoteBody s = s.
Proof.
  unfold allPlain. induction s as [|c s IH]; cbn; [reflexivity|].
  rewrite andb_true_iff. intros [Hc Hs].
  rewrite quoteChar_plain by exact Hc. rewrite IH by exact Hs. reflexivity.
Qed.

Lemma step_plain (c : ascii) (acc : list ascii) (stack : list JSON.Ctx) :
  plain c = true ->
  JSON.step c (JSON.MString acc, stack) = Some (JSON.MString (c :: acc), stack).
Proof.
  unfold plain. rewrite !andb_true_iff, !negb_true_iff. intros [[H34 H92] H32].
  cbn. rewrite H34, H92, H32. reflexivity.
Qed.

Lemma feed_plain (s : string) (acc : list ascii) (stack : list JSON.Ctx) :
  allPlain s = true ->
  JSON.feed s (JSON.MString acc, stack)
  = Some (JSON.MString (rev (list_ascii_of_string s) ++ acc)%list, stack).
Proof.
  unfold allPlain. revert acc.
  induction s as [|c s IH]; intros acc; cbn [JSON.feed list_ascii_of_string forallb rev].
  - intros _. reflexivity.
  - rewrite andb_true_iff. intros [Hc Hs].
    rewrite step_plain by exact Hc. cbn. rewrite IH by exact Hs.
    rewrite <- app_assoc. reflexivity.
Qed.

Lemma feed_app (s1 s2 : string) (st : JSON.PState) :
  JSON.feed (s1 ++ s2) st = st' ← JSON.feed s1 st; JSON.feed s2 st'.
Proof.
  revert st. induction s1 as [|c s1 IH]; intros st; [reflexivity|].
  change (JSON.feed (String c (s1 ++ s2)) st
          = st' ← JSON.feed (String c s1) st; JSON.feed s2 st').
  cbn [JSON.feed].
  destruct (JSON.step c st) as [st'|]; cbn; [apply IH | reflexivity].
Qed.

Lemma digitChar_plain (n : Z) : plain (digitChar (n mod 10)) = true.
Proof.
  pose proof (Z.mod_pos_bound n 10 ltac:(lia)) as H.
  assert (Hcase : n mod 10 = 0 \/ n mod 10 = 1 \/ n mod 10 = 2 \/ n mod 10 = 3
                  \/ n mod 10 = 4 \/ n mod 10 = 5 \/ n mod 10 = 6
                  \/ n mod 10 = 7 \/ n mod 10 = 8 \/ n mod 10 = 9) by lia.
  repeat (destruct Hcase as [Hcase|Hcase]); rewrite Hcase; reflexivity.
Qed.

Lemma toISOString_plain (t : Z) :
  Date.minFourDigit <= t <= Date.maxFourDigit ->
  allPlain (Date.toISOString t) = true.
Proof.
  unfold Date.minFourDigit, Date.maxFourDigit. intros Ht.
  unfold Date.toISOString.
  pose proof (civil_fields (t / Date.msPerDay)) as Hciv.
  destruct (Date.civil (t / Date.msPerDay)) as [[y m] d].
  destruct Hciv as (_ & _ & Hy).
  assert (Hy' : 0 <= y <= 9999).
  { apply Hy. unfold Date.msPerDay. lia. }
  unfold Date.yearString.
  replace ((0 <=? y) && (y <=? 9999)) with true
    by (symmetry; apply andb_true_iff; split; apply Z.leb_le; lia).
  unfold allPlain, Date.pad4, Date.pad3, Date.pad2.
  cbv beta iota delta [String.append list_ascii_of_string forallb].
  rewrite !digitChar_plain. reflexivity.
Qed.

End PlainStrings.

(** ** What [send] does *)

Lemma send_unfold (env : State) (type : string) (data : JsValue) (now : Z) (w : World) :
  send env type data now w =
  let data' := match data with VUndefined => VObj [] | _ => data end in
  match socket env with
  | Some s =>
      if bool_decide (fst <$> sockets w !! s = Some OPEN) then
        match JSON.stringify (VObj (envelope type data' now)) with
        | JSON.Text message => (true, after (SocketSend s message) w)
        | _ => (false, after (Console Error "Error sending WebSocket message:") w)
        end
      else
        (false,
         after (Console Warn "Cannot send message: WebSocket is not connected") w)
  | None =>
      (false,
       after (Console Warn "Cannot send message: WebSocket is not connected") w)
  end.
Proof.
  unfold send, after. destruct (socket env) as [s|]; run_prims; [|reflexivity].
  destruct (bool_decide _); [|reflexivity].
  destruct (JSON.stringify _); reflexivity.
Qed.

Lemma frames_after (e : Effect) (w : World) :
  frames (after e w)
  = (frames w ++ match e with SocketSend _ text => [text] | _ => [] end)%list.
Proof.
  unfold frames, after, emit. cbn. rewrite omap_app. cbn.
  destruct e; reflexivity.
Qed.

(** ** The location frame *)

Lemma location_frame_text (now : Z) :
  JSON.stringify (VObj (envelope "location" locationPayload now))
  = JSON.Text (locationPrefix
               ++ (JSON.quoteBody (Date.toISOString now) ++ String dquote "")
               ++ "}").
Proof.
  unfold envelope. generalize (Date.toISOString now) as ts. intros ts.
  lazy -[JSON.quoteBody]. reflexivity.
Qed.

Lemma location_frame_closes (acc : list ascii) :
  (st ← JSON.feed (String dquote "")
          (JSON.MString acc,
           [JSON.CObjVal [("type", VStr "location"); ("latitude", VNum 488584 (-4));
                          ("longitude", VNum 22945 (-4))] "timestamp";
            JSON.CTop]);
   st' ← JSON.feed "}" st; JSON.finish st')
  = Some (locationMessage (string_of_list_ascii (rev acc))).
Proof. vm_compute. reflexivity. Qed.

Lemma location_frame_parses (ts : string) :
  allPlain ts = true ->
  JSON.parse (locationPrefix ++ (ts ++ String dquote "") ++ "}")
  = Some (locationMessage ts).
Proof.
  intros Hplain. unfold JSON.parse. rewrite feed_app.
  replace (JSON.feed locationPrefix (JSON.MDefault, [JSON.CTop]))
    with (Some (JSON.MString [],
                [JSON.CObjVal [("type", VStr "location");
                               ("latitude", VNum 488584 (-4));
                               ("longitude", VNum 22945 (-4))] "timestamp";
                 JSON.CTop]))
    by (vm_compute; reflexivity).
  cbn [mbind option_bind]. rewrite !feed_app.
  rewrite feed_plain by exact Hplain. cbn [mbind option_bind].
  rewrite app_nil_r.
  pose proof (location_frame_closes (rev (list_ascii_of_string ts))) as H.
  rewrite rev_involutive, string_of_list_ascii_of_string in H.
  destruct (JSON.feed (String dquote "") _) as [st|]; [|discriminate H].
  exact H.
Qed.

(** The frame of [sendLocation(48.8584, 2.2945)] on an open socket. *)
Lemma sendLocation_on_open_socket (w : World) (s : nat) (scope : Scope) (now : Z) :
  socket (rendered w) = Some s ->
  sockets w !! s = Some (OPEN, scope) ->
  Date.minFourDigit <= now <= Date.maxFourDigit ->
  exists (frame : string) (fields : list (string * JsValue)) (ts : string),
    sendLocation (rendered w) (VNum 488584 (-4)) (VNum 22945 (-4)) now w
    = (true, after (SocketSend s frame) w)
    /\ frames (after (SocketSend s frame) w) = (frames w ++ [frame])%list
    /\ JSON.parse frame = Some (VObj fields)
    /\ Obj.get "type" fields = VStr "location"
    /\ Obj.get "latitude" fields = VNum 488584 (-4)
    /\ Obj.get "longitude" fields = VNum 22945 (-4)
    /\ Obj.get "timestamp" fields = VStr ts
    /\ Date.isISO8601 ts = true.
Proof.
  intros Hsock Hopen Hnow.
  pose proof (toISOString_plain now Hnow) as Hplain.
  set (ts := Date.toISOString now) in *.
  exists (locationPrefix ++ (ts ++ String dquote "") ++ "}").
  exists [("type", VStr "location"); ("latitude", VNum 488584 (-4));
          ("longitude", VNum 22945 (-4)); ("timestamp", VStr ts)].
  exists ts.
  split.
  - unfold sendLocation. rewrite send_unfold. cbv zeta.
    rewrite Hsock, Hopen. cbn [fmap option_fmap option_map fst].
    rewrite bool_decide_eq_true_2 by reflexivity.
    fold locationPayload. rewrite location_frame_text. fold ts.
    rewrite quoteBody_plain by exact Hplain. reflexivity.
  - split; [apply frames_after|].
    split; [apply location_frame_parses; exact Hplain|].
    repeat (split; [reflexivity|]).
    apply toISOString_valid. exact Hnow.
Qed.

Lemma digitChar_isDigit (n : Z) : JSON.isDigit (digitChar (n mod 10)) = true.
Proof.
  pose proof (digitVal_digitChar n) as H. unfold digitVal in H.
  unfold JSON.isDigit, JSON.code.
  destruct (_ && _); [reflexivity | discriminate H].
Qed.

(** ** Reading back what [JSON.stringify] prints

    Strings first, then numbers, then every value. *)

Section Strings.

(** Whatever the character, the parser reads back what [QuoteJSONString]
    prints for it. *)
Lemma feed_quoteChar (c : ascii) (acc : list ascii) (stack : list JSON.Ctx) :
  JSON.feed (JSON.quoteChar c) (JSON.MString acc, stack)
  = Some (JSON.MString (c :: acc), stack).
Proof.
  destruct c as [[] [] [] [] [] [] [] []]; vm_compute; reflexivity.
Qed.

Lemma feed_quoteBody (s : string) (acc : list ascii) (stack : list JSON.Ctx) :
  JSON.feed (JSON.quoteBody s) (JSON.MString acc, stack)
  = Some (JSON.MString (rev (list_ascii_of_string s) ++ acc)%list, stack).
Proof.
  revert acc. induction s as [|c s IH]; intros acc; [reflexivity|].
  cbn [JSON.quoteBody list_ascii_of_string rev].
  rewrite feed_app, feed_quoteChar. cbn [mbind option_bind].
  rewrite IH, <- app_assoc. reflexivity.
Qed.

End Strings.

Section Numbers.

#[local] Ltac Zify.zify_post_hook ::= Z.div_mod_to_equations.

Lemma chars_app (s1 s2 : string) :
  list_ascii_of_string (s1 ++ s2)
  = (list_ascii_of_string s1 ++ list_ascii_of_string s2)%list.
Proof.
  induction s1 as [|c s1 IH]; [reflexivity|].
  change (c :: list_ascii_of_string (s1 ++ s2)
          = c :: (list_ascii_of_string s1 ++ list_ascii_of_string s2)%list).
  rewrite IH. reflexivity.
Qed.

Lemma chars_length (s : string) :
  length (list_ascii_of_string s) = String.length s.
Proof. induction s as [|c s IH]; cbn; [reflexivity | rewrite IH; reflexivity]. Qed.

Lemma chars_substring (s : string) (a b : nat) :
  list_ascii_of_string (substring a b s) = take b (drop a (list_ascii_of_string s)).
Proof.
  revert a b. induction s as [|c s IH]; intros [|a] [|b]; cbn; try reflexivity.
  - rewrite IH. reflexivity.
  - rewrite IH. reflexivity.
  - rewrite IH. reflexivity.
Qed.

Lemma string_of_list_snoc (l : list ascii) (d : ascii) (s : string) :
  string_of_list_ascii (l ++ [d]) ++ s = string_of_list_ascii l ++ String d s.
Proof.
  induction l as [|x l IH]; [reflexivity|].
  change (String x (string_of_list_ascii (l ++ [d]) ++ s)
          = String x (string_of_list_ascii l ++ String d s)).
  rewrite IH. reflexivity.
Qed.

Lemma string_app_nil (s : string) : s ++ "" = s.
Proof.
  induction s as [|c s IH]; [reflexivity|].
  change (String c (s ++ "") = String c s). rewrite IH. reflexivity.
Qed.

Lemma string_app_assoc (s1 s2 s3 : string) : (s1 ++ s2) ++ s3 = s1 ++ s2 ++ s3.
Proof.
  induction s1 as [|c s1 IH]; [reflexivity|].
  change (String c ((s1 ++ s2) ++ s3) = String c (s1 ++ s2 ++ s3)).
  rewrite IH. reflexivity.
Qed.

Lemma takeDigits_digits (l rest : list ascii) (a n : Z) :
  forallb JSON.isDigit l = true ->
  JSON.takeDigits (l ++ rest) a n
  = JSON.takeDigits rest (fold_left digitStep l a) (n + Z.of_nat (length l)).
Proof.
  revert a n. induction l as [|c l IH]; intros a n; cbn [forallb app fold_left length].
  - intros _. f_equal. lia.
  - rewrite andb_true_iff. intros [Hc Hl]. cbn [JSON.takeDigits]. rewrite Hc.
    rewrite IH by exact Hl. unfold digitStep at 2. f_equal. lia.
Qed.

Lemma takeDigits_stop (rest : list ascii) (a n : Z) :
  match rest with [] => True | c :: _ => JSON.isDigit c = false end ->
  JSON.takeDigits rest a n = (a, n, rest).
Proof. destruct rest as [|c rest]; cbn; [reflexivity | intros ->; reflexivity]. Qed.

Lemma digitChar_code (n : Z) : JSON.code (digitChar (n mod 10)) - 48 = n mod 10.
Proof.
  pose proof (digitVal_digitChar n) as H. unfold digitVal in H. unfold JSON.code.
  destruct (_ && _); [|discriminate H]. injection H as H. exact H.
Qed.

Lemma digits_go_spec (f : nat) (n : Z) (accs : string) :
  0 <= n < 2 ^ Z.of_nat (S f) ->
  exists l,
    digits_go (S f) n accs = string_of_list_ascii l ++ accs
    /\ forallb JSON.isDigit l = true
    /\ fold_left digitStep l 0 = n
    /\ (exists c r, l = c :: r /\ (0 < n -> JSON.code c <> 48)).
Proof.
  revert n accs. induction f as [|f IH]; intros n accs Hn.
  - assert (Hlt : (n <? 10) = true) by (apply Z.ltb_lt; cbn in Hn; lia).
    cbn [digits_go]. rewrite Hlt. exists [digitChar (n mod 10)].
    split; [reflexivity|]. split; [cbn; rewrite digitChar_isDigit; reflexivity|].
    split; [cbn; unfold digitStep; rewrite digitChar_code; cbn in Hn; lia|].
    eexists _, _. split; [reflexivity|]. intros Hpos.
    pose proof (digitChar_code n). cbn in Hn. lia.
  - change (digits_go (S (S f)) n accs)
      with (let acc' := String (digitChar (n mod 10)) accs in
            if n <? 10 then acc' else digits_go (S f) (n / 10) acc').
    cbv zeta. destruct (Z.ltb_spec n 10) as [Hlt|Hge].
    + exists [digitChar (n mod 10)].
      split; [reflexivity|]. split; [cbn; rewrite digitChar_isDigit; reflexivity|].
      split; [cbn; unfold digitStep; rewrite digitChar_code; lia|].
      eexists _, _. split; [reflexivity|]. intros Hpos.
      pose proof (digitChar_code n). lia.
    + assert (Hdiv : 0 <= n / 10 < 2 ^ Z.of_nat (S f)).
      { replace (Z.of_nat (S (S f))) with (Z.succ (Z.of_nat (S f))) in Hn by lia.
        rewrite Z.pow_succ_r in Hn by lia. lia. }
      destruct (IH (n / 10) (String (digitChar (n mod 10)) accs) Hdiv)
        as (l & Hl & Hd & Hv & c & r & Hc & Hnz).
      exists (l ++ [digitChar (n mod 10)])%list.
      split.
      { rewrite Hl. symmetry. apply string_of_list_snoc. }
      split; [rewrite forallb_app, Hd; cbn; rewrite digitChar_isDigit; reflexivity|].
      split.
      { rewrite fold_left_app, Hv. cbn. unfold digitStep. rewrite digitChar_code. lia. }
      exists c, (r ++ [digitChar (n mod 10)])%list. split; [rewrite Hc; reflexivity|].
      intros _. apply Hnz. lia.
Qed.

Lemma digits_spec (n : Z) :
  0 <= n ->
  exists l,
    digits n = string_of_list_ascii l
    /\ forallb JSON.isDigit l = true
    /\ fold_left digitStep l 0 = n
    /\ (exists c r, l = c :: r /\ (0 < n -> JSON.code c <> 48)).
Proof.
  intros Hn. unfold digits.
  destruct (digits_go_spec (Z.to_nat (Z.log2 n)) n "") as (l & Hl & H).
  - split; [exact Hn|].
    replace (Z.of_nat (S (Z.to_nat (Z.log2 n)))) with (Z.succ (Z.log2 n))
      by (pose proof (Z.log2_nonneg n); lia).
    destruct (Z.eq_dec n 0) as [->|Hne]; [reflexivity|].
    apply Z.log2_spec. lia.
  - exists l. split; [|exact H]. rewrite Hl. apply string_app_nil.
Qed.

Lemma zeros_digits (z : nat) :
  forallb JSON.isDigit (list_ascii_of_string (zeros z)) = true.
Proof. induction z as [|z IH]; cbn; [reflexivity | exact IH]. Qed.

Lemma zeros_length (z : nat) : length (list_ascii_of_string (zeros z)) = z.
Proof. induction z as [|z IH]; cbn; [reflexivity | rewrite IH; reflexivity]. Qed.

Lemma zeros_value (z : nat) (a : Z) :
  fold_left digitStep (list_ascii_of_string (zeros z)) a = a * 10 ^ Z.of_nat z.
Proof.
  revert a. induction z as [|z IH]; intros a; cbn [zeros list_ascii_of_string fold_left].
  - cbn. lia.
  - rewrite IH. unfold digitStep.
    replace (Z.of_nat (S z)) with (Z.succ (Z.of_nat z)) by lia.
    rewrite Z.pow_succ_r by lia.
    change (JSON.code "0") with 48. ring.
Qed.

Lemma normalize_strip (z fuel : nat) (m e0 : Z) :
  m mod 10 <> 0 -> (z < fuel)%nat ->
  JSON.normalize fuel (m * 10 ^ Z.of_nat z) e0 = (m, e0 + Z.of_nat z).
Proof.
  intros Hm. revert fuel e0. induction z as [|z IH]; intros [|fuel] e0 Hlt; try lia.
  - cbn [JSON.normalize]. replace (m * 10 ^ Z.of_nat 0) with m by (cbn; lia).
    destruct (Z.eqb_spec m 0) as [->|_]; [cbn in Hm; lia|].
    destruct (Z.eqb_spec (m mod 10) 0); [lia|]. f_equal. lia.
  - cbn [JSON.normalize].
    replace (Z.of_nat (S z)) with (Z.succ (Z.of_nat z)) by lia.
    rewrite Z.pow_succ_r by lia.
    assert (Hpos : 0 < 10 ^ Z.of_nat z) by (apply Z.pow_pos_nonneg; lia).
    destruct (Z.eqb_spec (m * (10 * 10 ^ Z.of_nat z)) 0) as [E|_].
    { apply Z.mul_eq_0 in E as [E|E]; [subst m; cbn in Hm; lia | lia]. }
    replace (m * (10 * 10 ^ Z.of_nat z)) with ((m * 10 ^ Z.of_nat z) * 10) by lia.
    rewrite Z.mod_mul by lia. cbn [Z.eqb].
    rewrite Z.div_mul by lia. rewrite IH by lia. f_equal. lia.
Qed.

End Numbers.

Section NumberRoundTrip.

#[local] Ltac Zify.zify_post_hook ::= Z.div_mod_to_equations.

Lemma parseNumber_negative (b : list ascii) :
  JSON.parseNumber ("-"%char :: b)
  = (fun '(m, e) =>
       let '(m', e') := JSON.normalize (S (length b)) m e in VNum (- m') e')
      <$> unsignedNumber b.
Proof. reflexivity. Qed.

Lemma parseNumber_positive (c : ascii) (r : list ascii) :
  JSON.isDigit c = true ->
  JSON.parseNumber (c :: r)
  = (fun '(m, e) =>
       let '(m', e') := JSON.normalize (S (length r)) m e in VNum m' e')
      <$> unsignedNumber (c :: r).
Proof.
  intros Hc. unfold JSON.parseNumber.
  assert (H45 : (JSON.code c =? 45) = false).
  { unfold JSON.isDigit in Hc. apply andb_true_iff in Hc as [H1 _].
    apply Z.leb_le in H1. apply Z.eqb_neq. lia. }
  rewrite H45. reflexivity.
Qed.

(** A run of digits that starts a token, then the rest of the token. *)
Lemma unsignedNumber_digits (c : ascii) (r rest : list ascii) :
  forallb JSON.isDigit (c :: r) = true -> JSON.code c <> 48 ->
  match rest with [] => True | x :: _ => JSON.isDigit x = false end ->
  unsignedNumber ((c :: r) ++ rest)
  = JSON.parseFraction (fold_left digitStep (c :: r) 0) rest.
Proof.
  intros Hd Hnz Hrest. unfold unsignedNumber. cbn [app].
  apply Z.eqb_neq in Hnz. rewrite Hnz.
  pose proof Hd as Hd'. cbn [forallb] in Hd'. apply andb_true_iff in Hd' as [Hc _].
  rewrite Hc. change (c :: r ++ rest)%list with ((c :: r) ++ rest)%list.
  rewrite takeDigits_digits by exact Hd. rewrite takeDigits_stop by exact Hrest.
  reflexivity.
Qed.

Lemma parseFraction_point (int : Z) (d rest : list ascii) :
  forallb JSON.isDigit d = true -> d <> [] ->
  match rest with [] => True | x :: _ => JSON.isDigit x = false end ->
  JSON.parseFraction int ("."%char :: d ++ rest)
  = (fun x => (fold_left digitStep d int, x - Z.of_nat (length d)))
      <$> JSON.parseExponent rest.
Proof.
  intros Hd Hne Hrest. unfold JSON.parseFraction.
  change (JSON.code "." =? 46) with true. cbv iota.
  rewrite takeDigits_digits by exact Hd. rewrite takeDigits_stop by exact Hrest.
  assert (Hlen : (0 <? 0 + Z.of_nat (length d)) = true).
  { apply Z.ltb_lt. destruct d; [congruence | cbn [length]; lia]. }
  rewrite Hlen. rewrite Z.add_0_l. reflexivity.
Qed.

Lemma parseExponent_digits (neg : bool) (lx : list ascii) :
  forallb JSON.isDigit lx = true -> lx <> [] ->
  JSON.parseExponent ("e"%char :: (if neg then "-"%char else "+"%char) :: lx)
  = Some (if neg then - fold_left digitStep lx 0 else fold_left digitStep lx 0).
Proof.
  intros Hd Hne. unfold JSON.parseExponent.
  change (JSON.code "e" =? 101) with true. cbn [orb].
  assert (Htake : JSON.takeDigits lx 0 0
                  = (fold_left digitStep lx 0, Z.of_nat (length lx), [])).
  { rewrite <- (app_nil_r lx) at 1. rewrite takeDigits_digits by exact Hd.
    cbn [JSON.takeDigits]. reflexivity. }
  assert (Hlen : (0 <? Z.of_nat (length lx)) = true).
  { apply Z.ltb_lt. destruct lx; [congruence | cbn [length]; lia]. }
  destruct neg.
  - change (JSON.code "-" =? 45) with true. cbv iota. rewrite Htake, Hlen. reflexivity.
  - change (JSON.code "+" =? 45) with false. change (JSON.code "+" =? 43) with true.
    cbv iota. rewrite Htake, Hlen. reflexivity.
Qed.

End NumberRoundTrip.

Section NumberText.

#[local] Ltac Zify.zify_post_hook ::= Z.div_mod_to_equations.

Lemma isDigit_isNumberChar (l : list ascii) :
  forallb JSON.isDigit l = true -> forallb JSON.isNumberChar l = true.
Proof.
  induction l as [|c l IH]; cbn [forallb]; [reflexivity|].
  rewrite !andb_true_iff. intros [Hc Hl]. split; [|auto].
  unfold JSON.isNumberChar. rewrite Hc. reflexivity.
Qed.

Lemma split_digits (n : nat) (l : list ascii) :
  forallb JSON.isDigit l = true ->
  forallb JSON.isDigit (take n l) = true /\ forallb JSON.isDigit (drop n l) = true.
Proof.
  intros H. rewrite <- (take_drop n l), forallb_app in H.
  apply andb_true_iff in H. exact H.
Qed.

Lemma split_value (n : nat) (l : list ascii) (a : Z) :
  fold_left digitStep (drop n l) (fold_left digitStep (take n l) a)
  = fold_left digitStep l a.
Proof. rewrite <- fold_left_app, take_drop. reflexivity. Qed.

(** The text of a number other than zero: a sign, then a token that starts
    with a digit, is made of number characters and reads as the number, up to
    the zeros that the integer form appends. *)
Lemma numberToString_body (m e : Z) :
  m <> 0 -> m mod 10 <> 0 ->
  exists (body : list ascii) (z : nat),
    list_ascii_of_string (JSON.numberToString m e)
    = ((if m <? 0 then ["-"%char] else []) ++ body)%list
    /\ unsignedNumber body = Some (Z.abs m * 10 ^ Z.of_nat z, e - Z.of_nat z)
    /\ (z < length body)%nat
    /\ forallb JSON.isNumberChar body = true
    /\ exists c r, body = c :: r /\ JSON.isDigit c = true.
Proof.
  intros Hm0 Hm10.
  destruct (digits_spec (Z.abs m)) as (l & Hds & Hd & Hv & c & r & Hl & Hnz); [lia|].
  assert (Hc48 : JSON.code c <> 48) by (apply Hnz; lia). clear Hnz.
  assert (Hc : JSON.isDigit c = true).
  { rewrite Hl in Hd. cbn [forallb] in Hd. apply andb_true_iff in Hd. apply Hd. }
  unfold JSON.numberToString.
  destruct (Z.eqb_spec m 0) as [|_]; [contradiction|]. cbv zeta.
  rewrite Hds.
  assert (Hlen : String.length (string_of_list_ascii l) = length l)
    by (rewrite <- chars_length, list_ascii_of_string_of_list_ascii; reflexivity).
  rewrite Hlen. set (k := Z.of_nat (length l)). set (n := k + e).
  assert (Hk : 1 <= k) by (subst k; rewrite Hl; cbn [length]; lia).
  rewrite chars_app.
  assert (Hsign : list_ascii_of_string (if m <? 0 then "-" else "")
                  = if m <? 0 then ["-"%char] else [])
    by (destruct (m <? 0); reflexivity).
  rewrite Hsign. clear Hsign.
  assert (Hdot : JSON.isDigit "." = false) by reflexivity.
  assert (He : JSON.isDigit "e" = false) by reflexivity.
  destruct ((k <=? n) && (n <=? 21)) eqn:EA.
  { (* the digits, then zeros *)
    apply andb_true_iff in EA as [EA _]. apply Z.leb_le in EA.
    set (z := Z.to_nat (n - k)).
    exists (l ++ list_ascii_of_string (zeros z))%list, z.
    rewrite chars_app, list_ascii_of_string_of_list_ascii.
    split; [reflexivity|]. split.
    - rewrite <- (app_nil_r (l ++ _)). rewrite Hl at 1. cbn [app].
      change (c :: (r ++ list_ascii_of_string (zeros z)) ++ [])%list
        with ((c :: r ++ list_ascii_of_string (zeros z)) ++ [])%list.
      rewrite unsignedNumber_digits; [| |exact Hc48|exact I].
      + cbn [JSON.parseFraction]. rewrite app_comm_cons, <- Hl.
        rewrite fold_left_app, Hv, zeros_value. do 3 f_equal. subst z n. lia.
      + rewrite app_comm_cons, <- Hl, forallb_app, Hd, zeros_digits. reflexivity.
    - split; [rewrite length_app, Hl; cbn [length]; rewrite zeros_length; lia|].
      split; [rewrite forallb_app, (isDigit_isNumberChar _ Hd),
                (isDigit_isNumberChar _ (zeros_digits z)); reflexivity|].
      exists c, (r ++ list_ascii_of_string (zeros z))%list.
      rewrite Hl. split; [reflexivity | exact Hc]. }
  destruct ((0 <? n) && (n <=? 21)) eqn:EB.
  { (* digits, the point, digits *)
    apply andb_true_iff in EB as [EB EB']. apply Z.ltb_lt in EB.
    apply Z.leb_le in EB'.
    assert (Hnk : n < k).
    { apply andb_false_iff in EA as [EA|EA]; apply Z.leb_gt in EA; lia. }
    set (n' := Z.to_nat n).
    destruct (split_digits n' l Hd) as [Hd1 Hd2].
    assert (Htake : take n' l = c :: take (pred n') r).
    { rewrite Hl. destruct n' as [|n''] eqn:E; [lia | reflexivity]. }
    assert (Hdrop : drop n' l <> []).
    { intros E. apply (f_equal length) in E. rewrite length_drop in E.
      cbn in E. lia. }
    exists (take n' l ++ "."%char :: drop n' l)%list, O.
    split.
    { rewrite !chars_app, !chars_substring, list_ascii_of_string_of_list_ascii.
      rewrite drop_0. rewrite (take_ge (drop n' l)); [reflexivity|].
      rewrite length_drop; lia. }
    split.
    { rewrite Htake in *.
      rewrite <- (app_nil_r (drop n' l)).
      rewrite unsignedNumber_digits; [|exact Hd1|exact Hc48|exact Hdot].
      rewrite parseFraction_point; [|exact Hd2|exact Hdrop|exact I].
      cbn [JSON.parseExponent fmap option_fmap option_map].
      rewrite <- Htake, split_value, Hv. do 2 f_equal; [cbn; lia|].
      rewrite length_drop. subst n k n'. cbn. lia. }
    split; [rewrite length_app, Htake; cbn [length]; lia|].
    split.
    { rewrite forallb_app. cbn [forallb].
      rewrite (isDigit_isNumberChar _ Hd1), (isDigit_isNumberChar _ Hd2). reflexivity. }
    exists c, (take (pred n') r ++ "."%char :: drop n' l)%list.
    rewrite Htake. split; [reflexivity | exact Hc]. }
  destruct ((-6 <? n) && (n <=? 0)) eqn:EC.
  { (* zero, the point, zeros, the digits *)
    apply andb_true_iff in EC as [_ EC]. apply Z.leb_le in EC.
    set (z := Z.to_nat (- n)).
    exists ("0"%char :: "."%char :: list_ascii_of_string (zeros z) ++ l)%list, O.
    split.
    { change "0." with (String "0" (String "." "")).
      rewrite !chars_app, list_ascii_of_string_of_list_ascii. reflexivity. }
    split.
    { unfold unsignedNumber. change (JSON.code "0" =? 48) with true. cbv iota.
      rewrite <- (app_nil_r (_ ++ l)).
      rewrite parseFraction_point; [| |destruct z; rewrite Hl; discriminate|exact I].
      - cbn [JSON.parseExponent fmap option_fmap option_map].
        rewrite fold_left_app, zeros_value, Z.mul_0_l, Hv.
        rewrite length_app, zeros_length. do 2 f_equal; [cbn; lia|].
        subst z n k. cbn. lia.
      - rewrite forallb_app, zeros_digits, Hd. reflexivity. }
    split; [cbn [length]; lia|].
    split.
    { cbn [forallb]. rewrite forallb_app.
      rewrite (isDigit_isNumberChar _ (zeros_digits z)), (isDigit_isNumberChar _ Hd).
      reflexivity. }
    eexists _, _. split; reflexivity. }
  (* the exponent form *)
  set (ex := n - 1).
  destruct (digits_spec (Z.abs ex)) as (lx & Hxs & Hxd & Hxv & cx & rx & Hlx & _); [lia|].
  assert (Hlxne : lx <> []) by (rewrite Hlx; discriminate).
  rewrite Hxs.
  assert (Hexs : list_ascii_of_string (if ex <? 0 then "-" else "+")
                 = [if ex <? 0 then "-"%char else "+"%char])
    by (destruct (ex <? 0); reflexivity).
  assert (Hexp : JSON.parseExponent ("e"%char :: (if ex <? 0 then "-"%char else "+"%char) :: lx)
                 = Some ex).
  { rewrite parseExponent_digits by assumption. rewrite Hxv.
    destruct (Z.ltb_spec ex 0); f_equal; lia. }
  assert (Hexn : forallb JSON.isNumberChar
                   ("e"%char :: (if ex <? 0 then "-"%char else "+"%char) :: lx) = true).
  { cbn [forallb]. rewrite (isDigit_isNumberChar _ Hxd).
    destruct (ex <? 0); reflexivity. }
  destruct (Z.eqb_spec k 1) as [Hk1|Hk1].
  { exists (l ++ "e"%char :: (if ex <? 0 then "-"%char else "+"%char) :: lx)%list, O.
    split.
    { rewrite !chars_app, Hexs, !list_ascii_of_string_of_list_ascii. reflexivity. }
    split.
    { rewrite Hl at 1. rewrite unsignedNumber_digits;
        [|rewrite <- Hl; exact Hd|exact Hc48|exact He].
      unfold JSON.parseFraction. change (JSON.code "e" =? 46) with false. cbv iota.
      rewrite Hexp. cbn [fmap option_fmap option_map]. rewrite <- Hl, Hv.
      do 2 f_equal; [cbn; lia|]. subst ex n. cbn. lia. }
    split; [rewrite length_app, Hl; cbn [length]; lia|].
    split; [rewrite forallb_app, (isDigit_isNumberChar _ Hd), Hexn; reflexivity|].
    exists c, (r ++ "e"%char :: (if ex <? 0 then "-"%char else "+"%char) :: lx)%list.
    rewrite Hl. split; [reflexivity | exact Hc]. }
  destruct (split_digits 1 l Hd) as [Hd1 Hd2].
  assert (Htake : take 1 l = [c]) by (rewrite Hl; reflexivity).
  assert (Hdrop : drop 1 l <> []).
  { intros E. apply (f_equal length) in E. rewrite length_drop in E. cbn in E. lia. }
  exists ([c] ++ "."%char :: drop 1 l
          ++ "e"%char :: (if ex <? 0 then "-"%char else "+"%char) :: lx)%list, O.
  split.
  { rewrite !chars_app, !chars_substring, Hexs, !list_ascii_of_string_of_list_ascii.
    rewrite drop_0, Htake. rewrite (take_ge (drop 1 l)); [reflexivity|].
    rewrite length_drop; lia. }
  split.
  { rewrite unsignedNumber_digits; [|rewrite <- Htake; exact Hd1|exact Hc48|exact Hdot].
    rewrite parseFraction_point; [|exact Hd2|exact Hdrop|exact He].
    rewrite Hexp. cbn [fmap option_fmap option_map].
    rewrite <- Htake, split_value, Hv. do 2 f_equal; [cbn; lia|].
    rewrite length_drop. subst ex n k. cbn. lia. }
  split; [cbn [length app]; lia|].
  split.
  { rewrite forallb_app. rewrite <- Htake at 1.
    rewrite (isDigit_isNumberChar _ Hd1). cbn [forallb]. rewrite forallb_app.
    rewrite (isDigit_isNumberChar _ Hd2).
    rewrite Hexn. reflexivity. }
  eexists _, _. split; [reflexivity | exact Hc].
Qed.

End NumberText.

Section Tokens.

#[local] Ltac Zify.zify_post_hook ::= Z.div_mod_to_equations.

Lemma step_settle (c : ascii) (st st' : JSON.PState) :
  settle st = Some st' -> JSON.isNumberChar c = false ->
  JSON.step c st = JSON.step c st'.
Proof.
  destruct st as [[] stack]; cbn [settle]; try discriminate.
  - intros [= <-] _. reflexivity.
  - intros H Hc. cbn [JSON.step]. rewrite Hc.
    destruct (JSON.parseNumber (rev acc)) as [v|]; [|discriminate H].
    cbn [mbind option_bind] in *.
    destruct (JSON.deliver v stack) as [stack'|]; [|discriminate H].
    cbn [mbind option_bind] in *. injection H as <-. reflexivity.
Qed.

Lemma finish_settle (st : JSON.PState) (v : JsValue) :
  settle st = Some (JSON.MDefault, [JSON.CDone v]) -> JSON.finish st = Some v.
Proof.
  destruct st as [[] stack]; cbn [settle]; try discriminate.
  - intros [= ->]. reflexivity.
  - intros H. destruct (JSON.parseNumber (rev acc)) as [v'|] eqn:E; [|discriminate H].
    cbn [mbind option_bind] in H.
    destruct stack as [|[] stack]; cbn in H; try discriminate H.
    injection H as -> ->. cbn [JSON.finish]. exact E.
Qed.

Lemma deliver_expected (v : JsValue) (stack : list JSON.Ctx) :
  JSON.expectsValue stack = true -> is_Some (JSON.deliver v stack).
Proof. destruct stack as [|[] stack]; try discriminate; intros _; cbn; eauto. Qed.

Lemma stepDefault_number (c : ascii) (stack : list JSON.Ctx) :
  JSON.code c = 45 \/ JSON.isDigit c = true -> JSON.expectsValue stack = true ->
  JSON.stepDefault c stack = Some (JSON.MNumber [c], stack).
Proof.
  intros Hc Hs. unfold JSON.stepDefault, JSON.isWs. cbv zeta.
  assert (Hn : JSON.code c = 45 \/ 48 <= JSON.code c <= 57).
  { destruct Hc as [Hc|Hc]; [left; exact Hc|right].
    unfold JSON.isDigit in Hc. apply andb_true_iff in Hc as [H1 H2].
    apply Z.leb_le in H1, H2. lia. }
  assert (Hlast : (JSON.code c =? 45) || JSON.isDigit c = true).
  { destruct Hc as [Hc|Hc]; rewrite Hc; [reflexivity | apply orb_true_r]. }
  repeat match goal with
         | |- context [JSON.code c =? ?k] =>
             lazymatch k with
             | 45 => fail
             | _ => destruct (Z.eqb_spec (JSON.code c) k); [lia|]
             end
         end.
  cbn [orb]. rewrite Hs. cbn [negb]. rewrite Hlast. reflexivity.
Qed.

Lemma feed_numberChars (s : string) (acc : list ascii) (stack : list JSON.Ctx) :
  forallb JSON.isNumberChar (list_ascii_of_string s) = true ->
  JSON.feed s (JSON.MNumber acc, stack)
  = Some (JSON.MNumber (rev (list_ascii_of_string s) ++ acc)%list, stack).
Proof.
  revert acc. induction s as [|c s IH]; intros acc;
    cbn [list_ascii_of_string forallb JSON.feed rev]; [reflexivity|].
  rewrite andb_true_iff. intros [Hc Hs]. cbn [JSON.step]. rewrite Hc.
  cbn [mbind option_bind]. rewrite IH by exact Hs. rewrite <- app_assoc. reflexivity.
Qed.

Lemma feed_number (s : string) (stack : list JSON.Ctx) :
  (exists c r, list_ascii_of_string s = c :: r
               /\ (JSON.code c = 45 \/ JSON.isDigit c = true)) ->
  forallb JSON.isNumberChar (list_ascii_of_string s) = true ->
  JSON.expectsValue stack = true ->
  JSON.feed s (JSON.MDefault, stack)
  = Some (JSON.MNumber (rev (list_ascii_of_string s)), stack).
Proof.
  intros (c & r & Hs & Hc) Hall Hstack.
  destruct s as [|c' s]; [discriminate Hs|].
  cbn [list_ascii_of_string] in *. injection Hs as -> <-.
  cbn [forallb] in Hall. apply andb_true_iff in Hall as [_ Hall].
  cbn [JSON.feed JSON.step]. rewrite stepDefault_number by assumption.
  cbn [mbind option_bind]. rewrite feed_numberChars by exact Hall.
  cbn [rev]. reflexivity.
Qed.

(** A number prints as a token that reads as the number. *)
Lemma number_token (m e : Z) :
  canonical m e = true ->
  let cs := list_ascii_of_string (JSON.numberToString m e) in
  JSON.parseNumber cs = Some (VNum m e)
  /\ forallb JSON.isNumberChar cs = true
  /\ exists c r, cs = c :: r /\ (JSON.code c = 45 \/ JSON.isDigit c = true).
Proof.
  unfold canonical. destruct (Z.eqb_spec m 0) as [->|Hm].
  - intros He. apply Z.eqb_eq in He. subst e. cbv zeta.
    split; [reflexivity|]. split; [reflexivity|].
    eexists _, _. split; [reflexivity | right; reflexivity].
  - intros H10. apply negb_true_iff, Z.eqb_neq in H10. cbv zeta.
    destruct (numberToString_body m e Hm H10)
      as (body & z & Htext & Hparse & Hz & Hall & c & r & Hbody & Hc).
    rewrite Htext.
    assert (Hnorm : forall fuel, (z < fuel)%nat ->
              JSON.normalize fuel (Z.abs m * 10 ^ Z.of_nat z) (e - Z.of_nat z)
              = (Z.abs m, e)).
    { intros fuel Hf. rewrite normalize_strip by (try exact Hf; lia).
      f_equal. lia. }
    destruct (Z.ltb_spec m 0) as [Hneg|Hpos]; cbn [app].
    + split.
      { rewrite parseNumber_negative, Hparse. cbn [fmap option_fmap option_map].
        rewrite Hnorm by lia. do 2 f_equal. lia. }
      split; [cbn [forallb]; rewrite Hall; reflexivity|].
      eexists _, _. split; [reflexivity | left; reflexivity].
    + split.
      { rewrite Hbody in *. rewrite parseNumber_positive by exact Hc.
        rewrite Hparse. cbn [fmap option_fmap option_map].
        rewrite Hnorm by (cbn [length] in Hz; lia). do 2 f_equal. lia. }
      split; [exact Hall|].
      exists c, r. split; [exact Hbody | right; exact Hc].
Qed.

End Tokens.

Section Values.

Lemma JsValue_nested_ind (P : JsValue -> Prop) :
  P VUndefined -> P VNull -> (forall b, P (VBool b)) -> (forall m e, P (VNum m e)) ->
  (forall z, P (VBigInt z)) -> (forall s, P (VStr s)) ->
  (forall xs, Forall P xs -> P (VArr xs)) ->
  (forall fields, Forall (fun kv => P (snd kv)) fields -> P (VObj fields)) ->
  forall v, P v.
Proof.
  intros HU HN HB HNum HBig HS HArr HObj. fix IH 1. intros [| |b|m e|z|s|xs|fields].
  - exact HU.
  - exact HN.
  - apply HB.
  - apply HNum.
  - apply HBig.
  - apply HS.
  - apply HArr. revert xs. fix IHxs 1. intros [|x xs]; constructor;
      [apply IH | apply IHxs].
  - apply HObj. revert fields. fix IHfs 1. intros [|[k x] fields]; constructor;
      [apply IH | apply IHfs].
Qed.

Lemma readsAs_literal (v : JsValue) (t : string) :
  (v = VNull /\ t = "null") \/ (v = VBool true /\ t = "true")
  \/ (v = VBool false /\ t = "false") ->
  readsAs v t.
Proof.
  intros H. split.
  - destruct H as [[-> ->]|[[-> ->]|[-> ->]]]; reflexivity.
  - intros stack Hs.
    destruct stack as [|[] stack]; try discriminate Hs;
      destruct H as [[-> ->]|[[-> ->]|[-> ->]]];
      eexists; (split; [vm_compute; reflexivity | reflexivity]).
Qed.

Lemma readsAs_string (s : string) : readsAs (VStr s) (JSON.quote s).
Proof.
  split; [reflexivity|]. intros stack Hs. unfold JSON.quote.
  assert (Hopen : JSON.step dquote (JSON.MDefault, stack)
                  = Some (JSON.MString [], stack)).
  { destruct stack as [|[] stack]; try discriminate Hs; reflexivity. }
  assert (Hclose : forall acc,
            JSON.step dquote (JSON.MString acc, stack)
            = (fun st => (JSON.MDefault, st))
                <$> JSON.deliver (VStr (string_of_list_ascii (rev acc))) stack).
  { intros acc. destruct stack as [|[] stack]; try discriminate Hs; reflexivity. }
  change (String dquote (JSON.quoteBody s ++ String dquote ""))
    with (String dquote "" ++ JSON.quoteBody s ++ String dquote "").
  rewrite feed_app. cbn [JSON.feed]. rewrite Hopen. cbn [mbind option_bind].
  rewrite feed_app, feed_quoteBody. cbn [mbind option_bind JSON.feed].
  rewrite Hclose.
  rewrite app_nil_r, rev_involutive, string_of_list_ascii_of_string.
  destruct (deliver_expected (VStr s) stack Hs) as [stack' E]. rewrite E.
  eexists. split; reflexivity.
Qed.

Lemma readsAs_number (m e : Z) :
  canonical m e = true -> readsAs (VNum m e) (JSON.numberToString m e).
Proof.
  intros Hc. destruct (number_token m e Hc) as (Hparse & Hall & Hhead).
  split; [reflexivity|]. intros stack Hs.
  exists (JSON.MNumber (rev (list_ascii_of_string (JSON.numberToString m e))), stack).
  split; [apply feed_number; assumption|].
  cbn [settle]. rewrite rev_involutive, Hparse. reflexivity.
Qed.

(** The elements of an array, from the context that expects the next one. *)
Lemma feed_elements (xs : list JsValue) (parts : list string) :
  Forall2 readsAs xs parts -> xs <> [] ->
  forall (acc : list JsValue) (ctx : JSON.Ctx) (stack : list JSON.Ctx),
    (ctx = JSON.CArrFirst /\ acc = []) \/ ctx = JSON.CArrVal acc ->
    JSON.feed (JSON.join "," parts ++ "]") (JSON.MDefault, ctx :: stack)
    = (fun st => (JSON.MDefault, st)) <$> JSON.deliver (VArr (acc ++ xs)) stack.
Proof.
  induction 1 as [|x p xs parts [_ Hx] Hrest IH]; [congruence|].
  intros _ acc ctx stack Hctx.
  assert (Hexp : JSON.expectsValue (ctx :: stack) = true)
    by (destruct Hctx as [[-> _]| ->]; reflexivity).
  destruct (Hx _ Hexp) as (st & Hfeed & Hsettle).
  assert (Hdel : JSON.deliver x (ctx :: stack)
                 = Some (JSON.CArrNext (acc ++ [x]) :: stack))
    by (destruct Hctx as [[-> ->]| ->]; reflexivity).
  rewrite Hdel in Hsettle. cbn [mbind option_bind] in Hsettle.
  destruct Hrest as [|x' p' xs' parts' Hx' Hrest'].
  - cbn [JSON.join]. rewrite feed_app, Hfeed. cbn [mbind option_bind JSON.feed].
    rewrite (step_settle _ _ _ Hsettle) by reflexivity.
    change (JSON.step "]" (JSON.MDefault, JSON.CArrNext (acc ++ [x]) :: stack))
      with ((fun st => (JSON.MDefault, st))
              <$> JSON.deliver (VArr (acc ++ [x])) stack).
    destruct (JSON.deliver (VArr (acc ++ [x])) stack); reflexivity.
  - change (JSON.join "," (p :: p' :: parts'))
      with (p ++ "," ++ JSON.join "," (p' :: parts')).
    rewrite string_app_assoc, feed_app, Hfeed. cbn [mbind option_bind].
    change (("," ++ JSON.join "," (p' :: parts')) ++ "]")
      with (String "," (JSON.join "," (p' :: parts') ++ "]")).
    cbn [JSON.feed]. rewrite (step_settle _ _ _ Hsettle) by reflexivity.
    change (JSON.step "," (JSON.MDefault, JSON.CArrNext (acc ++ [x]) :: stack))
      with (Some (JSON.MDefault, JSON.CArrVal (acc ++ [x]) :: stack)).
    cbn [mbind option_bind].
    rewrite (IH ltac:(discriminate) (acc ++ [x])%list _ stack (or_intror eq_refl)).
    rewrite <- app_assoc. reflexivity.
Qed.

End Values.

Section Composite.

Lemma serialize_array (xs : list JsValue) (parts : list string) :
  Forall2 (fun x p => JSON.serialize x = JSON.Text p) xs parts ->
  JSON.serialize (VArr xs) = JSON.Text ("[" ++ JSON.join "," parts ++ "]").
Proof.
  intros H. cbn [JSON.serialize].
  match goal with |- match ?f xs with _ => _ end = _ => set (elems := f) end.
  assert (Helems : elems xs = Some parts).
  { induction H as [|x p xs parts Hx _ IH]; [reflexivity|].
    change (elems (x :: xs))
      with (match JSON.serialize x with
            | JSON.Throw => None
            | JSON.Undefined => cons "null" <$> elems xs
            | JSON.Text t => cons t <$> elems xs
            end).
    rewrite Hx, IH. reflexivity. }
  rewrite Helems. reflexivity.
Qed.

Lemma serialize_object (fields : list (string * JsValue)) (parts : list string) :
  Forall2 (fun kv p => exists t, JSON.serialize (snd kv) = JSON.Text t
                                 /\ p = memberText (fst kv) t) fields parts ->
  JSON.serialize (VObj fields) = JSON.Text ("{" ++ JSON.join "," parts ++ "}").
Proof.
  intros H. cbn [JSON.serialize].
  match goal with |- match ?f fields with _ => _ end = _ => set (members := f) end.
  assert (Hmembers : members fields = Some parts).
  { induction H as [|[k x] p fields parts (t & Hx & ->) _ IH]; [reflexivity|].
    change (members ((k, x) :: fields))
      with (match JSON.serialize x with
            | JSON.Throw => None
            | JSON.Undefined => members fields
            | JSON.Text t => cons (JSON.quote k ++ ":" ++ t) <$> members fields
            end).
    cbn [snd fst] in *. rewrite Hx, IH. reflexivity. }
  rewrite Hmembers. reflexivity.
Qed.

(** A key and its colon, from a context that expects a key. *)
Lemma feed_key (k : string) (acc : list (string * JsValue)) (ctx : JSON.Ctx)
      (stack : list JSON.Ctx) :
  (ctx = JSON.CObjFirst /\ acc = []) \/ ctx = JSON.CObjKey acc ->
  JSON.feed (JSON.quote k ++ ":") (JSON.MDefault, ctx :: stack)
  = Some (JSON.MDefault, JSON.CObjVal acc k :: stack).
Proof.
  intros Hctx. unfold JSON.quote.
  change (String dquote (JSON.quoteBody k ++ String dquote "") ++ ":")
    with (String dquote "" ++ (JSON.quoteBody k ++ String dquote "") ++ ":").
  rewrite feed_app.
  assert (Hopen : JSON.feed (String dquote "") (JSON.MDefault, ctx :: stack)
                  = Some (JSON.MString [], ctx :: stack))
    by (destruct Hctx as [[-> _]| ->]; reflexivity).
  rewrite Hopen. cbn [mbind option_bind].
  rewrite string_app_assoc, feed_app, feed_quoteBody. cbn [mbind option_bind].
  rewrite app_nil_r.
  change (String dquote "" ++ ":") with (String dquote (String ":" "")).
  cbn [JSON.feed]. cbn [JSON.step].
  change (JSON.code dquote =? 34) with true. cbv iota.
  rewrite rev_involutive, string_of_list_ascii_of_string.
  destruct Hctx as [[-> ->]| ->]; reflexivity.
Qed.

(** The members of an object, from the context that expects the next key. *)
Lemma feed_members (fields : list (string * JsValue)) (parts : list string) :
  Forall2 memberReadsAs fields parts -> fields <> [] ->
  forall (acc : list (string * JsValue)) (ctx : JSON.Ctx) (stack : list JSON.Ctx),
    (ctx = JSON.CObjFirst /\ acc = []) \/ ctx = JSON.CObjKey acc ->
    NoDup ((acc ++ fields)%list).*1 ->
    JSON.feed (JSON.join "," parts ++ "}") (JSON.MDefault, ctx :: stack)
    = (fun st => (JSON.MDefault, st)) <$> JSON.deliver (VObj (acc ++ fields)) stack.
Proof.
  induction 1 as [|[k x] p fields parts (t & [_ Hx] & ->) Hrest IH]; [congruence|].
  intros _ acc ctx stack Hctx Hnd. cbn [fst snd] in *.
  assert (Hfresh : Obj.set k x acc = (acc ++ [(k, x)])%list).
  { apply set_fresh. destruct (Obj.has k acc) eqn:E; [|reflexivity].
    apply has_In in E. rewrite fmap_app in Hnd.
    apply NoDup_app in Hnd as (_ & Hdis & _). exfalso. apply (Hdis k E). left. }
  destruct (Hx (JSON.CObjVal acc k :: stack) eq_refl) as (st & Hfeed & Hsettle).
  cbn [JSON.deliver mbind option_bind] in Hsettle. rewrite Hfresh in Hsettle.
  assert (Hmember : forall rest,
            JSON.feed (memberText k t ++ rest) (JSON.MDefault, ctx :: stack)
            = JSON.feed rest st).
  { intros rest. unfold memberText.
    rewrite <- (string_app_assoc (JSON.quote k) ":" t).
    rewrite string_app_assoc, feed_app, (feed_key k acc ctx stack Hctx).
    cbn [mbind option_bind]. rewrite feed_app, Hfeed. reflexivity. }
  destruct Hrest as [|kv' p' fields' parts' Hkv' Hrest'].
  - cbn [JSON.join]. rewrite Hmember. cbn [JSON.feed].
    rewrite (step_settle _ _ _ Hsettle) by reflexivity.
    change (JSON.step "}" (JSON.MDefault, JSON.CObjNext (acc ++ [(k, x)]) :: stack))
      with ((fun st => (JSON.MDefault, st))
              <$> JSON.deliver (VObj (acc ++ [(k, x)])) stack).
    destruct (JSON.deliver (VObj (acc ++ [(k, x)])) stack); reflexivity.
  - change (JSON.join "," (memberText k t :: p' :: parts'))
      with (memberText k t ++ "," ++ JSON.join "," (p' :: parts')).
    rewrite string_app_assoc, Hmember.
    change (("," ++ JSON.join "," (p' :: parts')) ++ "}")
      with (String "," (JSON.join "," (p' :: parts') ++ "}")).
    cbn [JSON.feed]. rewrite (step_settle _ _ _ Hsettle) by reflexivity.
    change (JSON.step "," (JSON.MDefault, JSON.CObjNext (acc ++ [(k, x)]) :: stack))
      with (Some (JSON.MDefault, JSON.CObjKey (acc ++ [(k, x)]) :: stack)).
    cbn [mbind option_bind].
    rewrite (IH ltac:(discriminate) (acc ++ [(k, x)])%list _ stack (or_intror eq_refl)).
    + rewrite <- app_assoc. reflexivity.
    + rewrite <- app_assoc. exact Hnd.
Qed.

Lemma readsAs_array (xs : list JsValue) (parts : list string) :
  Forall2 readsAs xs parts ->
  readsAs (VArr xs) ("[" ++ JSON.join "," parts ++ "]").
Proof.
  intros H. split.
  { apply serialize_array. eapply Forall2_impl; [exact H|]. intros x p [Hx _]. exact Hx. }
  intros stack Hs.
  destruct (deliver_expected (VArr xs) stack Hs) as [stack' Hdel].
  exists (JSON.MDefault, stack'). rewrite Hdel. split; [|reflexivity].
  change ("[" ++ JSON.join "," parts ++ "]")
    with (String "[" (JSON.join "," parts ++ "]")).
  cbn [JSON.feed].
  assert (Hopen : JSON.step "[" (JSON.MDefault, stack)
                  = Some (JSON.MDefault, JSON.CArrFirst :: stack))
    by (destruct stack as [|[] stack]; try discriminate Hs; reflexivity).
  rewrite Hopen. cbn [mbind option_bind].
  destruct xs as [|x xs].
  - inversion H; subst. cbn [JSON.join].
    change ("" ++ "]") with "]". cbn [JSON.feed].
    change (JSON.step "]" (JSON.MDefault, JSON.CArrFirst :: stack))
      with ((fun st => (JSON.MDefault, st)) <$> JSON.deliver (VArr []) stack).
    rewrite Hdel. reflexivity.
  - rewrite (feed_elements _ _ H ltac:(discriminate) [] JSON.CArrFirst stack)
      by (left; auto).
    cbn [app]. rewrite Hdel. reflexivity.
Qed.

Lemma readsAs_object (fields : list (string * JsValue)) (parts : list string) :
  Forall2 memberReadsAs fields parts -> NoDup fields.*1 ->
  readsAs (VObj fields) ("{" ++ JSON.join "," parts ++ "}").
Proof.
  intros H Hnd. split.
  { apply serialize_object. eapply Forall2_impl; [exact H|].
    intros kv p (t & [Hx _] & Hp). eauto. }
  intros stack Hs.
  destruct (deliver_expected (VObj fields) stack Hs) as [stack' Hdel].
  exists (JSON.MDefault, stack'). rewrite Hdel. split; [|reflexivity].
  change ("{" ++ JSON.join "," parts ++ "}")
    with (String "{" (JSON.join "," parts ++ "}")).
  cbn [JSON.feed].
  assert (Hopen : JSON.step "{" (JSON.MDefault, stack)
                  = Some (JSON.MDefault, JSON.CObjFirst :: stack))
    by (destruct stack as [|[] stack]; try discriminate Hs; reflexivity).
  rewrite Hopen. cbn [mbind option_bind].
  destruct fields as [|kv fields].
  - inversion H; subst. cbn [JSON.join].
    change ("" ++ "}") with "}". cbn [JSON.feed].
    change (JSON.step "}" (JSON.MDefault, JSON.CObjFirst :: stack))
      with ((fun st => (JSON.MDefault, st)) <$> JSON.deliver (VObj []) stack).
    rewrite Hdel. reflexivity.
  - rewrite (feed_members _ _ H ltac:(discriminate) [] JSON.CObjFirst stack)
      by (try (left; auto); exact Hnd).
    cbn [app]. rewrite Hdel. reflexivity.
Qed.

(** Every JSON value has a text that reads as the value. *)
Lemma jsonValue_readsAs (v : JsValue) : jsonValue v = true -> exists t, readsAs v t.
Proof.
  induction v as [| |b|m e|z|s|xs IH|fields IH] using JsValue_nested_ind;
    cbn [jsonValue]; try discriminate.
  - intros _. exists "null". apply readsAs_literal. auto.
  - intros _. destruct b; [exists "true" | exists "false"];
      apply readsAs_literal; auto.
  - intros H. eexists. apply readsAs_number. exact H.
  - intros _. eexists. apply readsAs_string.
  - intros H.
    assert (Hparts : exists parts, Forall2 readsAs xs parts).
    { induction IH as [|x xs Hx _ IHxs]; [exists []; constructor|].
      cbn [forallb] in H. apply andb_true_iff in H as [H1 H2].
      destruct (Hx H1) as [t Ht]. destruct (IHxs H2) as [parts Hparts].
      exists (t :: parts). constructor; assumption. }
    destruct Hparts as [parts Hparts]. eexists. apply readsAs_array. exact Hparts.
  - intros H. apply andb_true_iff in H as [H Hnd]. apply bool_decide_eq_true in Hnd.
    assert (Hparts : exists parts, Forall2 memberReadsAs fields parts).
    { clear Hnd. induction IH as [|[k x] fields Hx _ IHfs]; [exists []; constructor|].
      cbn [forallb] in H. apply andb_true_iff in H as [H1 H2].
      destruct (Hx H1) as [t Ht]. destruct (IHfs H2) as [parts Hparts].
      exists (memberText k t :: parts). constructor; [|assumption].
      exists t. split; [exact Ht | reflexivity]. }
    destruct Hparts as [parts Hparts]. eexists. apply readsAs_object; eassumption.
Qed.

(** What [JSON.stringify] prints for a JSON value, [JSON.parse] reads back
    as that value. *)
Lemma stringify_parse (v : JsValue) :
  jsonValue v = true ->
  exists t, JSON.stringify v = JSON.Text t /\ JSON.parse t = Some v.
Proof.
  intros H. destruct (jsonValue_readsAs v H) as (t & Hs & Hfeed).
  exists t. split; [exact Hs|].
  destruct (Hfeed [JSON.CTop] eq_refl) as (st & Hst & Hsettle).
  unfold JSON.parse. rewrite Hst. cbn [mbind option_bind].
  apply finish_settle. exact Hsettle.
Qed.

End Composite.

(** ** What a frame of [send] parses to *)

Section SendRoundTrip.

Lemma serialize_defined (fields : list (string * JsValue)) :
  JSON.serialize (VObj fields) = JSON.serialize (VObj (defined fields)).
Proof.
  cbn [JSON.serialize].
  match goal with |- match ?f fields with _ => _ end = _ => set (members := f) end.
  assert (H : members fields = members (defined fields)); [|rewrite H; reflexivity].
  induction fields as [|[k x] fields IH]; [reflexivity|].
  change (members ((k, x) :: fields))
    with (match JSON.serialize x with
          | JSON.Throw => None
          | JSON.Undefined => members fields
          | JSON.Text t => cons (JSON.quote k ++ ":" ++ t) <$> members fields
          end).
  destruct x; cbn [defined List.filter snd isUndefined negb]; fold (defined fields);
    try exact IH;
    match goal with
    | |- _ = members ((?k, ?x) :: ?fs) =>
        change (members ((k, x) :: fs))
          with (match JSON.serialize x with
                | JSON.Throw => None
                | JSON.Undefined => members fs
                | JSON.Text t => cons (JSON.quote k ++ ":" ++ t) <$> members fs
                end)
    end; rewrite IH; reflexivity.
Qed.

Lemma jsonFields_set (k : string) (v : JsValue) (o : list (string * JsValue)) :
  isUndefined v || jsonValue v = true -> jsonFields o = true ->
  jsonFields (Obj.set k v o) = true.
Proof.
  intros Hv. unfold jsonFields.
  induction o as [|[k' v'] o IH]; cbn [Obj.set forallb snd].
  - intros _. rewrite Hv. reflexivity.
  - rewrite andb_true_iff. intros [H1 H2].
    destruct (String.eqb k k'); cbn [forallb snd].
    + rewrite Hv, H2. reflexivity.
    + rewrite H1, IH by exact H2. reflexivity.
Qed.

Lemma jsonFields_assign (src o : list (string * JsValue)) :
  jsonFields src = true -> jsonFields o = true ->
  jsonFields (Obj.assign src o) = true.
Proof.
  unfold Obj.assign. revert o.
  induction src as [|[k v] src IH]; intros o Hsrc Ho; cbn [fold_left]; [exact Ho|].
  unfold jsonFields in Hsrc. cbn [forallb snd] in Hsrc.
  apply andb_true_iff in Hsrc as [Hv Hsrc].
  apply IH; [exact Hsrc|]. apply jsonFields_set; assumption.
Qed.

Lemma defined_keys (fields : list (string * JsValue)) :
  NoDup fields.*1 -> NoDup (defined fields).*1.
Proof.
  induction fields as [|[k x] fields IH]; cbn; [auto|].
  rewrite NoDup_cons. intros [Hk Hnd].
  destruct (negb (isUndefined x)); cbn; [|auto].
  apply NoDup_cons. split; [|auto].
  intros Hin. apply Hk. clear -Hin.
  induction fields as [|[k' x'] fields IH]; cbn in *; [exact Hin|].
  destruct (negb (isUndefined x')); cbn in *.
  - apply elem_of_cons in Hin as [->|Hin]; [left | right; auto].
  - right. auto.
Qed.

Lemma defined_jsonValue (fields : list (string * JsValue)) :
  jsonFields fields = true -> NoDup fields.*1 ->
  jsonValue (VObj (defined fields)) = true.
Proof.
  intros Hf Hnd. cbn [jsonValue]. apply andb_true_iff. split.
  - clear Hnd. unfold jsonFields in Hf.
    induction fields as [|[k x] fields IH]; [reflexivity|].
    cbn [forallb snd] in Hf. apply andb_true_iff in Hf as [Hx Hf].
    cbn [defined List.filter snd]. fold (defined fields).
    destruct (isUndefined x) eqn:E; cbn [negb]; [auto|].
    cbn [forallb]. cbn [orb] in Hx. rewrite Hx. auto.
  - apply bool_decide_eq_true. apply defined_keys. exact Hnd.
Qed.

Lemma envelope_json (type : string) (data : JsValue) (now : Z) :
  jsonPayload data = true ->
  let data' := match data with VUndefined => VObj [] | _ => data end in
  jsonFields (envelope type data' now) = true
  /\ NoDup (envelope type data' now).*1.
Proof.
  intros Hdata data'. unfold envelope. split.
  - apply jsonFields_set; [reflexivity|].
    apply jsonFields_assign; [|reflexivity].
    destruct data; try discriminate Hdata; subst data'; cbn [ownProps];
      (apply jsonFields_assign; [|reflexivity]); [reflexivity | exact Hdata].
  - apply NoDup_set, NoDup_assign. cbn. apply NoDup_singleton.
Qed.

(** The frame that [send] writes on an open socket, and what it parses to. *)
Lemma send_frame_parses (env : State) (w : World) (s : nat) (scope : Scope)
      (type : string) (data : JsValue) (now : Z) :
  socket env = Some s -> sockets w !! s = Some (OPEN, scope) ->
  jsonPayload data = true ->
  exists frame,
    send env type data now w = (true, after (SocketSend s frame) w)
    /\ JSON.parse frame = Some (sentMessage type data now).
Proof.
  intros Hsock Hopen Hdata.
  destruct (envelope_json type data now Hdata) as [Hf Hnd]. cbv zeta in Hf, Hnd.
  destruct (stringify_parse _ (defined_jsonValue _ Hf Hnd)) as (t & Ht & Hparse).
  exists t. split; [|exact Hparse].
  rewrite send_unfold. cbv zeta. rewrite Hsock, Hopen.
  cbn [fmap option_fmap option_map fst].
  rewrite bool_decide_eq_true_2 by reflexivity.
  unfold JSON.stringify in *. rewrite serialize_defined, Ht. reflexivity.
Qed.

(** Reading a property gives [undefined] or the value of a member. *)
Lemma get_cases (k : string) (o : list (string * JsValue)) :
  Obj.get k o = VUndefined \/ (k, Obj.get k o) ∈ o.
Proof.
  induction o as [|[k' v'] o IH]; cbn [Obj.get]; [left; reflexivity|].
  destruct (String.eqb_spec k k') as [->|_]; [right; left|].
  destruct IH as [IH|IH]; [left; exact IH | right; right; exact IH].
Qed.


Lemma elem_of_set (kv : string * JsValue) (k : string) (v : JsValue)
      (o : list (string * JsValue)) :
  kv ∈ Obj.set k v o -> kv = (k, v) \/ kv ∈ o.
Proof.
  induction o as [|[k' v'] o IH]; cbn [Obj.set].
  - intros H. apply list_elem_of_singleton in H. left. exact H.
  - destruct (String.eqb_spec k k') as [->|_]; intros H;
      apply elem_of_cons in H as [H|H].
    + left. exact H.
    + right. right. exact H.
    + right. rewrite H. left.
    + destruct (IH H) as [E|E]; [left; exact E | right; right; exact E].
Qed.

Lemma elem_of_assign (kv : string * JsValue) (src o : list (string * JsValue)) :
  kv ∈ Obj.assign src o -> kv ∈ src \/ kv ∈ o.
Proof.
  unfold Obj.assign. revert o.
  induction src as [|[k v] src IH]; intros o; cbn [fold_left fst snd];
    [right; assumption|].
  intros H. destruct (IH _ H) as [E|E]; [left; right; exact E|].
  destruct (elem_of_set _ _ _ _ E) as [->|E']; [left; left | right; exact E'].
Qed.


(** The [type] of the envelope is the [type] argument or a [type] member of
    the payload. *)
Lemma envelope_type (type : string) (data : JsValue) (now : Z) :
  let data' := match data with VUndefined => VObj [] | _ => data end in
  let t := Obj.get "type" (defined (envelope type data' now)) in
  jsonPayload data = true ->
  t = VUndefined \/ t = VStr type
  \/ exists fields, data = VObj fields /\ ("type", t) ∈ fields.
Proof.
  intros data' t Hdata. subst t.
  destruct (get_cases "type" (defined (envelope type data' now))) as [E|E];
    [left; exact E | right].
  set (t := Obj.get "type" _) in *.
  unfold defined in E. apply list_elem_of_In, filter_In in E as [E _].
  apply list_elem_of_In in E.
  unfold envelope in E.
  apply elem_of_set in E as [E|E]; [discriminate E|].
  apply elem_of_assign in E as [E|E].
  - right. destruct data; try discriminate Hdata; subst data'; cbn [ownProps] in E.
    + apply elem_of_assign in E as [E|E]; inversion E.
    + exists fields. split; [reflexivity|].
      apply elem_of_assign in E as [E|E]; [exact E | inversion E].
  - left. apply list_elem_of_singleton in E. injection E as E. exact E.
Qed.

End SendRoundTrip.

(** ** The order of the merge *)




(** On the wire: a payload with its own [type] and [timestamp]. *)
Example envelope_on_the_wire :
  let w := run [Mount; Render; SocketOpened 1; Render;
                CallSend "location"
                  (VObj [("type", VStr "mine"); ("timestamp", VStr "never")]) 0]
             (initialWorld active) in
  (fun frame => JSON.parse frame) <$> frames w
  = [Some (VObj [("type", VStr "mine");
                 ("timestamp", VStr (Date.toISOString 0))])].
Proof. vm_compute. reflexivity. Qed.

(** ** The state and its socket *)

Section Keeps.

Lemma keeps_ret {A} (x : A) : keeps (mret x).
Proof. intros w. cbn. auto 10. Qed.

Lemma keeps_bind {A B} (m : M A) (f : A -> M B) :
  keeps m -> (forall x, keeps (f x)) -> keeps (m ≫= f).
Proof.
  intros Hm Hf w. unfold mbind, M_bind.
  specialize (Hm w). destruct (m w) as [x w1]. cbn [snd] in Hm.
  destruct (Hf x w1) as (G1 & G2 & G3 & G4 & G5 & G6).
  destruct Hm as (H1 & H2 & H3 & H4 & H5 & H6).
  cbv zeta. rewrite G1, G2, G3. repeat split; auto.
  - lia.
  - intros s Hs. rewrite G5 by lia. apply H5. exact Hs.
Qed.

Lemma keeps_emit (e : Effect) : keeps (emit e).
Proof. intros w. cbn. auto 10. Qed.

Lemma keeps_setState (f : State -> State) :
  (forall s, socket (f s) = socket s /\ isConnected (f s) = isConnected s) ->
  keeps (setState f).
Proof. intros Hf w. cbn. destruct (Hf (pending w)). auto 10. Qed.

Lemma keeps_withTimers f : keeps (withTimers f).
Proof. intros w. cbn. auto 10. Qed.

Lemma keeps_readyState (s : nat) : keeps (readyState s).
Proof. intros w. cbn. auto 10. Qed.

Lemma keeps_newTimer (tm : Timer) (e : nat -> Effect) : keeps (newTimer tm e).
Proof. intros w. cbn. auto 10. Qed.

Lemma keeps_newWebSocket (scope : Scope) : keeps (newWebSocket scope).
Proof.
  intros w. cbn. repeat split; auto.
  - intros s Hs. apply lookup_insert_ne. lia.
  - intros Hfresh s Hsome. cbn in *.
    apply lookup_insert_is_Some' in Hsome as [<-|Hsome]; [lia|].
    specialize (Hfresh s Hsome). lia.
Qed.

End Keeps.

Create HintDb keeps.

#[local] Hint Resolve keeps_ret keeps_emit keeps_withTimers
  keeps_readyState keeps_newWebSocket keeps_newTimer : keeps.

(** Decompose an operation along its binds and its case distinctions. *)
Ltac keeps_step :=
  match goal with
  | |- keeps (_ ≫= _) => apply keeps_bind; [|intros ?]
  | |- keeps (setState _) => apply keeps_setState; intros ?; split; reflexivity
  | |- keeps (match ?x with _ => _ end) => destruct x
  | |- keeps (let _ := _ in _) => cbv zeta
  | |- keeps _ => solve [eauto with keeps]
  end.

Ltac keeps_tac := repeat keeps_step.

Section KeepsOperations.

Lemma keeps_console lvl what : keeps (console lvl what).
Proof. unfold console. keeps_tac. Qed.

Lemma keeps_isOpen s : keeps (isOpen s).
Proof. unfold isOpen. keeps_tac. Qed.

Lemma keeps_clearTimer t : keeps (clearTimer t).
Proof. unfold clearTimer. keeps_tac. Qed.

Lemma keeps_socketSend s text : keeps (socketSend s text).
Proof. unfold socketSend. keeps_tac. Qed.

Hint Resolve keeps_console keeps_isOpen keeps_clearTimer keeps_socketSend : keeps.

Lemma keeps_stopPingInterval env : keeps (stopPingInterval env).
Proof. unfold stopPingInterval. keeps_tac. Qed.

Hint Resolve keeps_stopPingInterval : keeps.

Lemma keeps_send env type data now : keeps (send env type data now).
Proof. unfold send. keeps_tac. Qed.

Hint Resolve keeps_send : keeps.

Lemma keeps_startPingInterval env : keeps (startPingInterval env).
Proof. unfold startPingInterval. keeps_tac. Qed.

Lemma keeps_pingTick env now : keeps (pingTick env now).
Proof. unfold pingTick. keeps_tac. Qed.

Lemma keeps_cleanupConnection env : keeps (cleanupConnection env).
Proof. unfold cleanupConnection. keeps_tac. Qed.

Lemma keeps_scheduleReconnect env random : keeps (scheduleReconnect env random).
Proof. unfold scheduleReconnect. keeps_tac. Qed.

Lemma keeps_connect scope : keeps (connect scope).
Proof. unfold connect. keeps_tac. Qed.

Hint Resolve keeps_connect : keeps.

Lemma keeps_reconnectTick nextAttempt env : keeps (reconnectTick nextAttempt env).
Proof. unfold reconnectTick. keeps_tac. Qed.

Lemma keeps_onerror s : keeps (onerror s).
Proof. unfold onerror. keeps_tac. Qed.

Lemma keeps_notify ls message : keeps (notify ls message).
Proof. induction ls as [|l ls IH]; cbn [notify]; keeps_tac. Qed.

Hint Resolve keeps_notify : keeps.

Lemma keeps_onmessage scope data : keeps (onmessage scope data).
Proof. unfold onmessage. keeps_tac. Qed.

Lemma keeps_catchLog r : keeps (catchLog r).
Proof. unfold catchLog. keeps_tac. Qed.

Hint Resolve keeps_catchLog : keeps.

Lemma keeps_addListener cb : keeps (addListener cb).
Proof. unfold addListener. keeps_tac. Qed.

Lemma keeps_removeListener cb : keeps (removeListener cb).
Proof. unfold removeListener. keeps_tac. Qed.

Lemma keeps_handleAppStateChange scope next :
  keeps (handleAppStateChange scope next).
Proof. unfold handleAppStateChange. keeps_tac. Qed.

Lemma keeps_handleNetInfo scope connected : keeps (handleNetInfo scope connected).
Proof. unfold handleNetInfo. keeps_tac. Qed.

Lemma keeps_mount scope : keeps (mount scope).
Proof. unfold mount. keeps_tac. Qed.

End KeepsOperations.

Section Invariant.

Lemma keeps_invariant {A} (m : M A) (w : World) :
  keeps m -> invariant w -> invariant (snd (m w)).
Proof.
  intros Hm (Hr & Hp & Hf & Hc).
  destruct (Hm w) as (H1 & H2 & H3 & H4 & H5 & H6).
  unfold invariant, consistent, connectedOpen in *. rewrite H1, H2, H3.
  repeat split; auto.
  intros Hconn. destruct (Hc Hconn) as (s & scope & Hs & Hopen).
  exists s, scope. split; [exact Hs|].
  rewrite H5; [exact Hopen|]. apply Hf. rewrite Hopen. eauto.
Qed.

(** Changing the ready state of a socket creates none. *)
Lemma fresh_setReadyState (s : nat) (rs : ReadyState) (w : World) :
  fresh w -> fresh (snd (setReadyState s rs w)).
Proof.
  intros Hf s' Hsome. cbn in *. apply lookup_alter_is_Some in Hsome.
  exact (Hf s' Hsome).
Qed.

Lemma onopen_invariant scope s rs w :
  sockets w !! s = Some (rs, scope) ->
  invariant w -> invariant (snd ((setReadyState s OPEN;; onopen scope s) w)).
Proof.
  intros Hs (Hr & Hp & Hf & Hc). unfold onopen.
  pose proof (fresh_setReadyState s OPEN w Hf) as Hf1.
  set (tail := setState (setIsConnecting false) ≫= _).
  assert (Htail : keeps tail)
    by (subst tail; keeps_tac; apply keeps_startPingInterval).
  run_prims. cbn in Hf1.
  match goal with |- context [tail ?w1] =>
    destruct (Htail w1) as (H1 & H2 & H3 & H4 & H5 & H6);
    change (invariant (snd (tail w1)))
  end.
  unfold invariant, consistent, connectedOpen. cbn in *. rewrite H1, H2, H3.
  split; [exact Hr|]. split; [discriminate|]. split; [exact (H6 Hf1)|].
  intros _. exists s, scope. split; [reflexivity|].
  rewrite H5 by (apply Hf; rewrite Hs; eauto).
  rewrite lookup_alter_eq, Hs. reflexivity.
Qed.

Lemma onclose_invariant scope s code random w :
  invariant w ->
  invariant (snd ((setReadyState s CLOSED;; onclose scope code random) w)).
Proof.
  intros (Hr & Hp & Hf & Hc). unfold onclose.
  pose proof (fresh_setReadyState s CLOSED w Hf) as Hf1.
  set (tail := cleanupConnection _ ≫= _).
  assert (Htail : keeps tail).
  { subst tail. keeps_tac;
      auto using keeps_cleanupConnection, keeps_scheduleReconnect. }
  run_prims. cbn in Hf1.
  match goal with |- context [tail ?w1] =>
    destruct (Htail w1) as (H1 & H2 & H3 & H4 & H5 & H6);
    change (invariant (snd (tail w1)))
  end.
  unfold invariant, consistent, connectedOpen. cbn in *. rewrite H1, H2, H3.
  split; [exact Hr|]. split; [reflexivity|]. split; [exact (H6 Hf1)|].
  discriminate.
Qed.

Lemma disconnect_invariant env w :
  invariant w -> invariant (snd (disconnect env w)).
Proof.
  intros (Hr & Hp & Hf & Hc). unfold disconnect, invariant, consistent,
    connectedOpen.
  pose proof (keeps_cleanupConnection env w) as (H1 & _ & _ & _ & _ & H6).
  cbv beta iota delta [mbind M_bind].
  destruct (cleanupConnection env w) as [[] w1]. cbn [snd] in H1, H6.
  pose proof (keeps_isOpen (socket env) w1) as (H2 & _ & _ & _ & _ & G6).
  destruct (isOpen (socket env) w1) as [open w2]. cbn [snd] in H2, G6.
  specialize (G6 (H6 Hf)).
  destruct (socket env) as [s|]; [destruct open|]; run_prims; cbn;
    rewrite ?H2, ?H1; repeat split; auto; try discriminate.
  intros s' Hsome. cbn in *. apply lookup_alter_is_Some in Hsome.
  exact (G6 s' Hsome).
Qed.

Lemma render_invariant w : invariant w -> invariant (render w).
Proof. intros (Hr & Hp & Hf & Hc). repeat split; auto. Qed.

Hint Resolve keeps_mount keeps_connect keeps_send keeps_addListener
  keeps_removeListener keeps_onerror keeps_onmessage keeps_reconnectTick
  keeps_pingTick keeps_handleAppStateChange keeps_handleNetInfo
  keeps_withTimers keeps_ret : keeps.

Lemma step_invariant (w : World) (e : Event) : invariant w -> invariant (step w e).
Proof.
  intros Hinv. unfold step.
  destruct e; cbn [handle];
    try solve [apply keeps_invariant; [keeps_tac | exact Hinv]].
  - apply render_invariant. exact Hinv.
  - apply disconnect_invariant. exact Hinv.
  - destruct (sockets w !! s) as [[[] scope]|] eqn:Hs; try exact Hinv.
    apply (onopen_invariant scope s CONNECTING); assumption.
  - destruct (sockets w !! s) as [[[] scope]|]; try exact Hinv;
      apply keeps_invariant; auto with keeps.
  - destruct (sockets w !! s) as [[[] scope]|]; try exact Hinv;
      apply onclose_invariant; exact Hinv.
  - destruct (sockets w !! s) as [[[] scope]|]; try exact Hinv;
      apply keeps_invariant; auto with keeps.
  - destruct (timers w !! t) as [[nextAttempt env|env]|]; try exact Hinv;
      apply keeps_invariant; try exact Hinv; keeps_tac.
Qed.

Lemma run_invariant (es : list Event) (w : World) :
  invariant w -> invariant (run es w).
Proof.
  revert w. induction es as [|e es IH]; intros w Hinv; [exact Hinv|].
  apply IH. apply step_invariant. exact Hinv.
Qed.

Lemma reachable_invariant (w : World) : reachable w -> invariant w.
Proof.
  intros (app & es & ->). apply run_invariant.
  split; [intros _; reflexivity|]. split; [intros _; reflexivity|].
  split; [|discriminate].
  intros s [x Hx]. cbn in Hx. rewrite lookup_empty in Hx. discriminate.
Qed.

(** Once the state has been rendered, Connected means that the socket of the
    state is open. *)
Lemma connected_socket_is_open (w : World) :
  reachable w -> rendered w = pending w ->
  connectionState (rendered w) = Connected ->
  exists s scope,
    socket (rendered w) = Some s /\ sockets w !! s = Some (OPEN, scope).
Proof.
  intros Hreach Hsettled Hconn.
  destruct (reachable_invariant w Hreach) as (_ & _ & _ & Hc).
  rewrite Hsettled in *. apply Hc.
  unfold connectionState in Hconn.
  destruct (isConnected (pending w)); [reflexivity|].
  destruct (isConnecting (pending w)); discriminate.
Qed.

End Invariant.

(** ** Sending *)

(** C7, as the code has it.  In every state the component reaches:
    whenever the socket that the state holds is open, which is so in every
    Connected state that has been rendered, [sendLocation(48.8584, 2.2945)]
    returns true and writes exactly one frame to the Transport; that frame
    parses as a JSON object whose [type] is [location], whose [latitude] is
    48.8584, whose [longitude] is 2.2945 and whose [timestamp] is a string in
    the ISO 8601 format (the clock reading a date with a four-digit year).
    Whenever that socket is not open, as in every state that is not
    Connected, it returns false and writes nothing. *)
Theorem sendLocation_round_trip (w : World) (now : Z) :
  reachable w ->
  Date.minFourDigit <= now <= Date.maxFourDigit ->
  let result := sendLocation (rendered w) (VNum 488584 (-4)) (VNum 22945 (-4)) now w in
  (forall s scope,
     socket (rendered w) = Some s -> sockets w !! s = Some (OPEN, scope) ->
     exists (frame : string) (fields : list (string * JsValue)) (ts : string),
       result = (true, after (SocketSend s frame) w)
       /\ frames (after (SocketSend s frame) w) = (frames w ++ [frame])%list
       /\ JSON.parse frame = Some (VObj fields)
       /\ Obj.get "type" fields = VStr "location"
       /\ Obj.get "latitude" fields = VNum 488584 (-4)
       /\ Obj.get "longitude" fields = VNum 22945 (-4)
       /\ Obj.get "timestamp" fields = VStr ts
       /\ Date.isISO8601 ts = true)
  /\ (connectionState (rendered w) = Connected -> rendered w = pending w ->
      exists s scope,
        socket (rendered w) = Some s /\ sockets w !! s = Some (OPEN, scope))
  /\ (fst (isOpen (socket (rendered w)) w) = false ->
      fst result = false /\ frames (snd result) = frames w)
  /\ (connectionState (rendered w) <> Connected ->
      fst result = false /\ frames (snd result) = frames w).
Proof.
  intros Hreach Hnow result. split; [|split; [|split]].
  - intros s scope Hsock Hopen.
    exact (sendLocation_on_open_socket w s scope now Hsock Hopen Hnow).
  - intros Hconn Hsettled.
    exact (connected_socket_is_open w Hreach Hsettled Hconn).
  - intros Hclosed. subst result. unfold sendLocation. rewrite send_unfold.
    cbv zeta. destruct (socket (rendered w)) as [s|].
    + unfold isOpen, readyState, mbind, M_bind, mret, M_ret in Hclosed.
      cbn [fst] in Hclosed. rewrite Hclosed. cbn [fst snd].
      rewrite frames_after, app_nil_r. auto.
    + cbn [fst snd]. rewrite frames_after, app_nil_r. auto.
  - intros Hstate. destruct (reachable_invariant w Hreach) as (Hinv & _).
    assert (Hnone : socket (rendered w) = None).
    { apply Hinv. unfold connectionState in Hstate.
      destruct (isConnected (rendered w)); [congruence | reflexivity]. }
    subst result. unfold sendLocation. rewrite send_unfold. cbv zeta.
    rewrite Hnone. cbn [fst snd]. rewrite frames_after, app_nil_r. auto.
Qed.

Lemma sendLocation_round_trip_witness :
  let w := run [Mount; Render; SocketOpened 1; Render] (initialWorld active) in
  exists (frame : string) (fields : list (string * JsValue)) (ts : string),
    sendLocation (rendered w) (VNum 488584 (-4)) (VNum 22945 (-4))
      1793664000123 w
    = (true, after (SocketSend 1 frame) w)
    /\ frames (after (SocketSend 1 frame) w) = (frames w ++ [frame])%list
    /\ JSON.parse frame = Some (VObj fields)
    /\ Obj.get "type" fields = VStr "location"
    /\ Obj.get "latitude" fields = VNum 488584 (-4)
    /\ Obj.get "longitude" fields = VNum 22945 (-4)
    /\ Obj.get "timestamp" fields = VStr ts
    /\ Date.isISO8601 ts = true.
Proof.
  intros w.
  destruct (sendLocation_round_trip w 1793664000123) as (H & _).
  - exists active. eexists. reflexivity.
  - unfold Date.minFourDigit, Date.maxFourDigit. lia.
  - apply (H 1%nat (currentScope (initialWorld active))).
    + reflexivity.
    + vm_compute. reflexivity.
Defined.

(** C7, as the specification has it, fails.  Between the close of the socket
    and the next render the state still reads Connected, while
    [sendLocation] finds the socket closed: it returns false and writes no
    frame. *)
Lemma sendLocation_connected_writes_nothing :
  let w := run [Mount; Render; SocketOpened 1; Render; SocketClosed 1 1006 0.5]
             (initialWorld active) in
  let result := sendLocation (rendered w) (VNum 488584 (-4)) (VNum 22945 (-4))
                  1793664000123 w in
  connectionState (rendered w) = Connected
  /\ fst result = false
  /\ frames (snd result) = []
  /\ writes (snd result) = 0%nat.
Proof. vm_compute. repeat split; reflexivity. Qed.

(** C2, as the code has it.  [send] returns a boolean in every case.  In a
    state the component reaches that is not Connected it returns false and
    writes nothing.  When the socket of the state is open, which is so in
    every Connected state that has been rendered, it serializes the envelope:
    if that gives a text, [send] writes this one frame and returns true; if
    [JSON.stringify] throws, the exception is caught, nothing is written and
    [send] returns false. *)
Theorem send_gating
  (w : World) (type : string) (data : JsValue) (now : Z) :
  reachable w ->
  let env := rendered w in
  let result := send env type data now w in
  let data' := match data with VUndefined => VObj [] | _ => data end in
  (connectionState env <> Connected ->
   fst result = false /\ frames (snd result) = frames w)
  /\ (forall s scope,
        socket env = Some s -> sockets w !! s = Some (OPEN, scope) ->
        match JSON.stringify (VObj (envelope type data' now)) with
        | JSON.Text text =>
            fst result = true /\ frames (snd result) = (frames w ++ [text])%list
        | _ => fst result = false /\ frames (snd result) = frames w
        end)
  /\ (connectionState env = Connected -> rendered w = pending w ->
      exists s scope, socket env = Some s /\ sockets w !! s = Some (OPEN, scope)).
Proof.
  intros Hreach env result data'.
  destruct (reachable_invariant w Hreach) as (Hinv & _).
  subst result. rewrite send_unfold. cbv zeta. fold data'. split; [|split].
  - intros Hstate.
    assert (Hnone : socket env = None).
    { apply Hinv. unfold connectionState in Hstate. fold env in Hstate |- *.
      destruct (isConnected env); [congruence | reflexivity]. }
    rewrite Hnone. cbn [fst snd]. rewrite frames_after, app_nil_r. auto.
  - intros s scope Hsock Hopen. rewrite Hsock, Hopen.
    cbn [fmap option_fmap option_map fst].
    rewrite bool_decide_eq_true_2 by reflexivity.
    destruct (JSON.stringify _); cbn [fst snd]; rewrite frames_after;
      rewrite ?app_nil_r; auto.
  - intros Hconn Hsettled.
    exact (connected_socket_is_open w Hreach Hsettled Hconn).
Qed.

Lemma send_gating_witness :
  let w := run [Mount; Render; SocketOpened 1; Render] (initialWorld active) in
  fst (send (rendered w) "location" locationPayload 0 w) = true
  /\ length (frames (snd (send (rendered w) "location" locationPayload 0 w)))
     = 1%nat.
Proof.
  intros w.
  assert (Hreach : reachable w) by (exists active; eexists; reflexivity).
  pose proof (send_gating w "location" locationPayload 0 Hreach) as (_ & H & _).
  specialize (H 1%nat (currentScope (initialWorld active))
                ltac:(reflexivity) ltac:(vm_compute; reflexivity)).
  rewrite location_frame_text in H. destruct H as [H1 H2].
  split; [exact H1|]. rewrite H2. reflexivity.
Defined.

(** C2, as the specification has it, fails.  The state is Connected and the
    socket is open, yet [send] returns false and writes nothing, because the
    payload holds a BigInt, which [JSON.stringify] refuses.  And between the
    close of the socket and the next render the state still reads Connected,
    while [send] finds the socket closed and returns false. *)
Lemma send_connected_returns_false :
  let w := run [Mount; Render; SocketOpened 1; Render] (initialWorld active) in
  let result := send (rendered w) "location" (VObj [("latitude", VBigInt 48)]) 0 w in
  let closed := run [SocketClosed 1 1006 0.5] w in
  (connectionState (rendered w) = Connected
   /\ sockets w !! 1%nat = Some (OPEN, currentScope (initialWorld active))
   /\ fst result = false
   /\ writes (snd result) = 0%nat)
  /\ (connectionState (rendered closed) = Connected
      /\ fst (send (rendered closed) "location" locationPayload 0 closed) = false).
Proof. vm_compute. repeat split; reflexivity. Qed.

(** ** Connecting *)

(** The three guards of [connect], on what its closure captured: an open
    socket or [isConnecting] resolves at once, no network rejects at once, and
    none of the three touches the world. *)
Lemma connect_guards (scope : Scope) (w : World) :
  let cur := sc_cur scope in
  (fst (isOpen (socket cur) w) = true -> connect scope w = (Resolved, w))
  /\ (isConnecting cur = true -> connect scope w = (Resolved, w))
  /\ (fst (isOpen (socket cur) w) = false -> isConnecting cur = false ->
      isNetworkAvailable cur = false ->
      connect scope w = (Rejected "No network connection available", w)).
Proof.
  intros cur. unfold connect. fold cur.
  assert (Hpure : forall s, snd (isOpen s w) = w) by (intros [s|]; reflexivity).
  cbv beta iota delta [mbind M_bind].
  specialize (Hpure (socket cur)).
  destruct (isOpen (socket cur) w) as [open w1]. cbn [fst snd] in *. subst w1.
  repeat split.
  - intros ->. reflexivity.
  - intros ->. destruct open; reflexivity.
  - intros -> -> ->. reflexivity.
Qed.

(** A call that passes the guards opens one Transport and only queues
    [isConnecting]: the closure that ran keeps seeing [false]. *)
Lemma connect_opens (scope : Scope) (w : World) :
  let cur := sc_cur scope in
  fst (isOpen (socket cur) w) = false -> isConnecting cur = false ->
  isNetworkAvailable cur = true ->
  let w' := snd (connect scope w) in
  opens w' = S (opens w)
  /\ isConnecting (pending w') = true
  /\ rendered w' = rendered w.
Proof.
  intros cur Hopen Hconn Hnet. unfold connect. fold cur.
  assert (Hpure : snd (isOpen (socket cur) w) = w)
    by (destruct (socket cur); reflexivity).
  cbv beta iota delta [mbind M_bind].
  destruct (isOpen (socket cur) w) as [open w1]. cbn [fst snd] in *.
  subst w1 open. rewrite Hconn, Hnet. run_prims. unfold opens. cbn.
  rewrite !List.filter_app, !length_app. cbn. split; [lia | auto].
Qed.

(** Once [isConnecting] has been rendered, the next call resolves at once. *)
Lemma connect_after_render (w : World) :
  isConnecting (pending w) = true ->
  connect (currentScope (render w)) (render w) = (Resolved, render w).
Proof. intros H. apply connect_guards. exact H. Qed.

(** C1 on the code.  Two calls of [connect()] in a row while Disconnected,
    with the network available, open two Transports: the first call only
    queues [isConnecting], and the second call, the same closure, still reads
    [false].  With a render between the two calls there is one open. *)
Theorem connect_twice_opens_two_transports :
  let w0 := initialWorld active in
  connectionState (rendered w0) = Disconnected
  /\ isNetworkAvailable (rendered w0) = true
  /\ opens (run [CallConnect] w0) = 1%nat
  /\ isConnecting (rendered (run [CallConnect] w0)) = false
  /\ opens (run [CallConnect; CallConnect] w0) = 2%nat
  /\ opens (run [CallConnect; Render; CallConnect] w0) = 1%nat.
Proof. vm_compute. repeat split; reflexivity. Qed.

(** ** Closing *)

(** C3 on the code.  The close handler reads [appState] and
    [isNetworkAvailable] as they were in the render whose [connect] opened the
    socket.  A socket opened in the foreground that closes abnormally after
    the app went to the background schedules a reconnect, and so does one
    that closes after the network was lost; a close with code 1000 after
    [disconnect()] schedules none. *)
Theorem close_while_backgrounded_schedules_reconnect :
  let connected := run [Mount; Render; SocketOpened 1; Render] (initialWorld active) in
  let away := run [AppStateChanged background; Render] connected in
  let offline := run [NetInfoChanged (Some false); Render] connected in
  (appState (rendered away) = background
   /\ scheduled (run [SocketClosed 1 1006 0.5; Render] away) = 1%nat
   /\ outstanding (run [SocketClosed 1 1006 0.5; Render] away) = [2%nat])
  /\ (isNetworkAvailable (rendered offline) = false
      /\ scheduled (run [SocketClosed 1 1006 0.5; Render] offline) = 1%nat)
  /\ scheduled (run [CallDisconnect; Render; SocketClosed 1 1000 0.5; Render]
                  connected) = 0%nat.
Proof. vm_compute. repeat split; reflexivity. Qed.

(** ** The ceiling *)

(** At the ceiling, [scheduleReconnect] sets no timer. *)
Lemma scheduleReconnect_at_ceiling (env : SchedEnv) (random : Q) (w : World) :
  MAX_RECONNECT_ATTEMPTS <= reconnectAttempts (se_cur env) ->
  scheduled (snd (scheduleReconnect env random w)) = scheduled w
  /\ timers (snd (scheduleReconnect env random w))
     = match reconnectTimer (se_cur env) with
       | Some t => delete t (timers w)
       | None => timers w
       end.
Proof.
  intros Hge. unfold scheduleReconnect, scheduled.
  apply Z.leb_le in Hge. rewrite Hge.
  destruct (reconnectTimer (se_cur env)); run_prims;
    rewrite ?List.filter_app; cbn; rewrite ?app_nil_r; auto.
Qed.

(** C5 on the code.  The socket opened at mount never opens; it and the five
    sockets of the automatic attempts that follow close abnormally.  After
    these closes the attempts counter is 1, not 5, and the sixth close
    schedules a sixth reconnect: each timer calls the [connect] of the first
    render, whose handlers call the [scheduleReconnect] of the first render,
    which reads 0 attempts. *)
Theorem sixth_reconnect_is_scheduled :
  let five := run (Mount :: Render :: failedAttempt 1 ++ failedAttempt 2
                     ++ failedAttempt 3 ++ failedAttempt 4 ++ failedAttempt 5)%list
                (initialWorld active) in
  let six := run [SocketError 6; SocketClosed 6 1006 0.5; Render] five in
  scheduled five = 5%nat
  /\ opens five = 6%nat
  /\ reconnectAttempts (rendered five) = 1
  /\ scheduled six = 6%nat
  /\ outstanding six = [6%nat]
  /\ List.filter isSetTimeout (trace six)
     = [SetTimeout 1 (reconnectDelay 0 0.5); SetTimeout 2 (reconnectDelay 0 0.5);
        SetTimeout 3 (reconnectDelay 0 0.5); SetTimeout 4 (reconnectDelay 0 0.5);
        SetTimeout 5 (reconnectDelay 0 0.5); SetTimeout 6 (reconnectDelay 0 0.5)].
Proof. vm_compute. repeat split; reflexivity. Qed.

(** A successful open queues the reset of the counter. *)
Lemma onopen_resets_attempts (scope : Scope) (s : nat) (w : World) :
  reconnectAttempts (pending (snd (onopen scope s w))) = 0.
Proof.
  unfold onopen, startPingInterval, stopPingInterval.
  destruct (pingInterval (sc_start scope)); run_prims; reflexivity.
Qed.

(** ** One timer *)

(** Scheduling cancels the timer that the closure reads. *)
Lemma scheduleReconnect_cancels_captured
  (env : SchedEnv) (random : Q) (w : World) (t : nat) :
  reconnectTimer (se_cur env) = Some t -> t <> next_timer w ->
  timers (snd (scheduleReconnect env random w)) !! t = None.
Proof.
  intros Ht Hne. unfold scheduleReconnect. rewrite Ht.
  destruct (MAX_RECONNECT_ATTEMPTS <=? _); run_prims.
  - apply lookup_delete_eq.
  - rewrite lookup_insert_ne by congruence. apply lookup_delete_eq.
Qed.

(** C9 on the code.  Two sockets opened by the same render close abnormally
    before any timer fires: both closes run the same [scheduleReconnect]
    closure, which reads no pending timer, so the second scheduling cancels
    nothing and two reconnect timers are outstanding. *)
Theorem two_closes_leave_two_timers :
  let w := run [CallConnect; CallConnect; Render;
                SocketClosed 1 1006 0.5; Render;
                SocketClosed 2 1006 0.5; Render] (initialWorld active) in
  outstanding w = [2%nat; 1%nat]
  /\ List.filter (fun e => match e with ClearTimer _ => true | _ => false end)
       (trace w) = []
  /\ reconnectTimer (rendered w) = Some 2%nat
  /\ reconnectAttempts (rendered w) = 0.
Proof. vm_compute. repeat split; reflexivity. Qed.

(** The same without two calls in a row: a manual [connect()] while the
    reconnect timer 2 is pending opens socket 2; the timer then fires and,
    although the state is Connected, opens socket 3 from the closures of the
    first render; when both sockets close abnormally two reconnect timers are
    outstanding. *)
Example stale_timer_reconnects_while_connected :
  let w := run [Mount; Render; SocketOpened 1; Render;
                SocketClosed 1 1006 0.5; Render;
                CallConnect; Render; SocketOpened 2; Render]
             (initialWorld active) in
  let fired := run [TimerFired 2 0; Render] w in
  let closed := run [SocketClosed 2 1006 0.5; Render;
                     SocketClosed 3 1006 0.5; Render] fired in
  connectionState (rendered w) = Connected
  /\ opens w = 2%nat
  /\ opens fired = 3%nat
  /\ outstanding closed = [4%nat; 5%nat].
Proof. vm_compute. repeat split; reflexivity. Qed.

(** ** Inbound frames *)

(** A frame that does not parse is logged and dropped. *)
Lemma onmessage_malformed (scope : Scope) (data : string) (w : World) :
  JSON.parse data = None ->
  onmessage scope data w
  = (tt, after (Console Error "Error parsing WebSocket message:") w).
Proof. intros H. unfold onmessage. rewrite H. reflexivity. Qed.

(** Every listener of the list is called, in order, whether or not an
    earlier one threw. *)
Lemma notify_calls (ls : list Listener) (message : JsValue) (w : World) :
  calls (snd (notify ls message w))
  = (calls w ++ List.map (fun l => (lid l, message)) ls)%list.
Proof.
  revert w. induction ls as [|l ls IH]; intros w; cbn [notify List.map].
  - rewrite app_nil_r. reflexivity.
  - cbv beta iota delta [mbind M_bind].
    destruct (throwsOn l message); run_prims;
      match goal with |- context [notify ls message ?w1] =>
        specialize (IH w1); destruct (notify ls message w1) as [[] w2]
      end; cbn [snd] in *; rewrite IH; unfold calls; cbn;
      rewrite !omap_app; cbn; rewrite ?app_nil_r, <- ?app_assoc; reflexivity.
Qed.

Lemma notify_pending (ls : list Listener) (message : JsValue) (w : World) :
  pending (snd (notify ls message w)) = pending w.
Proof.
  revert w. induction ls as [|l ls IH]; intros w; cbn [notify]; [reflexivity|].
  destruct (throwsOn l message); run_prims;
    match goal with |- context [notify ls message ?w1] =>
      specialize (IH w1); destruct (notify ls message w1) as [[] w2]
    end; exact IH.
Qed.

(** A frame that parses to a value other than [null], whose [type] can be
    printed, becomes [lastMessage] and goes to every listener of the set that
    the handler holds. *)
Lemma onmessage_delivers
  (scope : Scope) (data : string) (message type : JsValue) (w : World) :
  JSON.parse data = Some message -> property "type" message = Some type ->
  toStringThrows type = false ->
  let w' := snd (onmessage scope data w) in
  lastMessage (pending w') = message
  /\ calls w'
     = (calls w
        ++ List.map (fun l => (lid l, message)) (listeners (sc_cur scope)))%list.
Proof.
  intros Hparse Htype Hprints. unfold onmessage. rewrite Hparse, Htype.
  cbv zeta. rewrite Hprints, andb_false_r.
  destruct (negb (isString "pong" type) && negb (isString "server_ping" type));
    run_prims;
    match goal with |- context [notify ?ls message ?w1] =>
      pose proof (notify_pending ls message w1) as Hp;
      pose proof (notify_calls ls message w1) as Hc;
      destruct (notify ls message w1) as [[] w2]
    end; cbn [snd] in *; rewrite Hp, Hc; unfold calls; cbn;
    rewrite ?omap_app; cbn; rewrite ?app_nil_r; auto.
Qed.

(** C6 on the code.  A listener registered after [connect()] ran is not
    called: the message handler of the socket holds the listener set of the
    render that called [connect].  And the frame [null] parses, yet is logged
    as a parse error and dropped, since reading [message.type] throws. *)
Theorem late_listener_is_not_called :
  let w := run [Mount; Render; CallAddListener quiet; Render;
                SocketOpened 1; Render; SocketMessage 1 helloFrame; Render]
             (initialWorld active) in
  let w' := run [SocketMessage 1 "null"; Render] w in
  (lid <$> listeners (rendered w) = [7%nat]
   /\ lastMessage (rendered w) = VObj [("type", VStr "hello")]
   /\ calls w = [])
  /\ (JSON.parse "null" = Some VNull
      /\ lastMessage (rendered w') = VObj [("type", VStr "hello")]
      /\ trace w' = (trace w
                     ++ [Console Error "Error parsing WebSocket message:"])%list).
Proof. vm_compute. repeat split; reflexivity. Qed.

(** Listeners registered before [connect()] ran are called, also after one
    of them threw, and the message becomes [lastMessage]. *)
Example listeners_of_the_connecting_render_are_called :
  let w := run [CallAddListener thrower; CallAddListener quiet; Render;
                CallConnect; Render; SocketOpened 1; Render;
                SocketMessage 1 helloFrame; Render] (initialWorld active) in
  calls w = [(8%nat, VObj [("type", VStr "hello")]);
             (7%nat, VObj [("type", VStr "hello")])]
  /\ lastMessage (rendered w) = VObj [("type", VStr "hello")]
  /\ connectionState (rendered w) = Connected.
Proof. vm_compute. repeat split; reflexivity. Qed.

(** A frame that is not JSON changes neither the state nor [lastMessage]. *)
Example malformed_frame_is_dropped :
  let w := run [Mount; Render; SocketOpened 1; Render] (initialWorld active) in
  let w' := run [SocketMessage 1 "not json"; Render] w in
  JSON.parse "not json" = None
  /\ rendered w' = rendered w
  /\ trace w' = (trace w ++ [Console Error "Error parsing WebSocket message:"])%list.
Proof. vm_compute. repeat split; reflexivity. Qed.

(** The guard of the close handler, on what its closure captured: it sets a
    reconnect timer exactly when the code is not 1000, the captured
    [appState] is [active], the captured [isNetworkAvailable] holds and the
    captured counter is below the ceiling. *)
Lemma onclose_schedules (scope : Scope) (code : Z) (random : Q) (w : World) :
  let cur := sc_cur scope in
  scheduled (snd (onclose scope code random w))
  = if negb (code =? 1000) && bool_decide (appState cur = active)
       && isNetworkAvailable cur
       && (reconnectAttempts (se_cur (sc_sched scope)) <? MAX_RECONNECT_ATTEMPTS)
    then S (scheduled w) else scheduled w.
Proof.
  intros cur. unfold onclose, cleanupConnection, stopPingInterval,
    scheduleReconnect, scheduled. fold cur.
  rewrite Z.ltb_antisym.
  destruct (negb (code =? 1000)), (bool_decide (appState cur = active)),
    (isNetworkAvailable cur),
    (MAX_RECONNECT_ATTEMPTS <=? reconnectAttempts (se_cur (sc_sched scope)));
    cbn [andb negb];
    destruct (pingInterval cur), (reconnectTimer cur);
    try destruct (reconnectTimer (se_cur (sc_sched scope)));
    run_prims; rewrite ?List.filter_app, ?length_app; cbn; lia.
Qed.

(** [disconnect] cancels the timers of the state it reads, closes its socket
    with code 1000 when that socket is open, and sets no timer. *)
Lemma disconnect_effects (env : State) (s : nat) (scope : Scope) (w : World) :
  socket env = Some s -> sockets w !! s = Some (OPEN, scope) ->
  let w' := snd (disconnect env w) in
  trace w'
  = (trace w
     ++ match pingInterval env with Some i => [ClearTimer i] | None => [] end
     ++ match reconnectTimer env with Some t => [ClearTimer t] | None => [] end
     ++ [SocketClose s 1000])%list
  /\ scheduled w' = scheduled w
  /\ socket (pending w') = None
  /\ isConnected (pending w') = false
  /\ sockets w' !! s = Some (CLOSING, scope).
Proof.
  intros Hsock Hopen. unfold disconnect, cleanupConnection, stopPingInterval,
    scheduled.
  rewrite Hsock.
  destruct (pingInterval env), (reconnectTimer env); run_prims;
    rewrite Hopen; cbn [fmap option_fmap option_map fst];
    rewrite bool_decide_eq_true_2 by reflexivity; run_prims;
    rewrite lookup_alter_eq, Hopen; cbn;
    rewrite <- ?app_assoc; cbn;
    rewrite ?List.filter_app; cbn; rewrite ?app_nil_r; auto.
Qed.

(** * Further properties

    What the code shows beyond the claims: the ping interval, the attempts
    counter and the delay, the triggers of [connect] (mount, app state,
    network), the cleanup at unmount, the listeners of a socket, and the
    frames of [send] read back by [JSON.parse]. *)

(** ** The invariant of the event loop *)

Section Later.

Lemma advances_refl rs : advances rs rs = true.
Proof. destruct rs; reflexivity. Qed.

Lemma advances_trans rs1 rs2 rs3 :
  advances rs1 rs2 = true -> advances rs2 rs3 = true -> advances rs1 rs3 = true.
Proof. destruct rs1, rs2, rs3; cbn; congruence. Qed.

Lemma later_refl w : later w w.
Proof.
  split; [|lia]. intros s rs scope H. exists rs. split; [exact H | apply advances_refl].
Qed.

Lemma later_trans w1 w2 w3 : later w1 w2 -> later w2 w3 -> later w1 w3.
Proof.
  intros [H1 N1] [H2 N2]. split; [|lia].
  intros s rs scope H. destruct (H1 s rs scope H) as (rs' & H' & A1).
  destruct (H2 s rs' scope H') as (rs'' & H'' & A2).
  exists rs''. split; [exact H''|]. exact (advances_trans _ _ _ A1 A2).
Qed.

Lemma later_same w w' :
  sockets w' = sockets w -> next_timer w' = next_timer w -> later w w'.
Proof.
  intros Hs Ht. split; [|lia]. intros s rs scope H. exists rs.
  rewrite Hs. split; [exact H | apply advances_refl].
Qed.

Lemma hasOpened_later w w' o : later w w' -> hasOpened w o = true -> hasOpened w' o = true.
Proof.
  intros [H _]. destruct o as [s|]; [|reflexivity]. cbn.
  destruct (sockets w !! s) as [[rs scope]|] eqn:E; [|discriminate].
  destruct (H s rs scope E) as (rs' & -> & A).
  destruct rs, rs'; cbn in *; congruence.
Qed.

Lemma isOver_later w w' o : later w w' -> isOver w o = true -> isOver w' o = true.
Proof.
  intros [H _]. destruct o as [s|]; [|reflexivity]. cbn.
  destruct (sockets w !! s) as [[rs scope]|] eqn:E; [|discriminate].
  destruct (H s rs scope E) as (rs' & -> & A).
  destruct rs, rs'; cbn in *; congruence.
Qed.

Lemma isOver_hasOpened w o : isOver w o = true -> hasOpened w o = true.
Proof.
  destruct o as [s|]; [|reflexivity]. cbn.
  destruct (sockets w !! s) as [[[] scope]|]; congruence.
Qed.

Lemma goodState_later w w' st : later w w' -> goodState w st -> goodState w' st.
Proof.
  intros L (H1 & H2 & H3 & H4 & H5). pose proof L as [_ N].
  repeat split; auto; try lia.
  - eapply hasOpened_later; eassumption.
  - intros t Ht. specialize (H4 t Ht). lia.
  - intros t Ht. specialize (H5 t Ht). lia.
Qed.

Lemma goodEnv_later w w' env : later w w' -> goodEnv w env -> goodEnv w' env.
Proof.
  intros L (H1 & H2 & H3).
  split; [|split]; [eapply goodState_later; eauto .. | exact H3].
Qed.

Lemma goodScope_later w w' scope : later w w' -> goodScope w scope -> goodScope w' scope.
Proof.
  intros L (H1 & H2 & H3 & H4).
  split; [|split; [|split]];
    [eapply goodState_later; eauto | eapply goodEnv_later; eauto
    | eapply goodState_later; eauto | exact H4].
Qed.

Lemma goodTimer_later w w' t tm : later w w' -> goodTimer w t tm -> goodTimer w' t tm.
Proof.
  intros L. destruct tm as [n env|env]; cbn.
  - intros [H1 H2]. split; [eapply goodEnv_later; eauto | exact H2].
  - intros [H1 H2]. split; [eapply isOver_later; eauto | exact H2].
Qed.

Lemma goodEnv_schedScope w env : goodEnv w env -> goodScope w (schedScope env).
Proof.
  intros (H1 & H2 & H3). split; [exact H1|]. split; [|split; assumption].
  split; [exact H1|]. split; assumption.
Qed.

End Later.

Section Setters.

Context (w : World).

Lemma goodState_setSocket v st :
  hasOpened w v = true -> goodState w st -> goodState w (setSocket v st).
Proof. intros Hv (H1 & H2 & H3 & H4 & H5). repeat split; auto; apply H2. Qed.

Lemma goodState_setIsConnected v st : goodState w st -> goodState w (setIsConnected v st).
Proof. intros H. exact H. Qed.

Lemma goodState_setIsConnecting v st : goodState w st -> goodState w (setIsConnecting v st).
Proof. intros H. exact H. Qed.

Lemma goodState_setConnectionError v st :
  goodState w st -> goodState w (setConnectionError v st).
Proof. intros H. exact H. Qed.

Lemma goodState_setLastMessage v st : goodState w st -> goodState w (setLastMessage v st).
Proof. intros H. exact H. Qed.

Lemma goodState_setIsNetworkAvailable v st :
  goodState w st -> goodState w (setIsNetworkAvailable v st).
Proof. intros H. exact H. Qed.

Lemma goodState_setAppState v st : goodState w st -> goodState w (setAppState v st).
Proof. intros H. exact H. Qed.

Lemma goodState_setReconnectAttempts v st :
  0 <= v <= MAX_RECONNECT_ATTEMPTS ->
  goodState w st -> goodState w (setReconnectAttempts v st).
Proof. intros Hv (H1 & H2 & H3 & H4 & H5). repeat split; auto; apply Hv. Qed.

Lemma goodState_setPingInterval v st :
  (forall t, v = Some t -> (t < next_timer w)%nat) ->
  goodState w st -> goodState w (setPingInterval v st).
Proof. intros Hv (H1 & H2 & H3 & H4 & H5). repeat split; auto; apply H2. Qed.

Lemma goodState_setReconnectTimer v st :
  (forall t, v = Some t -> (t < next_timer w)%nat) ->
  goodState w st -> goodState w (setReconnectTimer v st).
Proof. intros Hv (H1 & H2 & H3 & H4 & H5). repeat split; auto; apply H2. Qed.

Lemma goodState_setListeners f st :
  NoDup (lid <$> f (listeners st)) ->
  goodState w st -> goodState w (setListeners f st).
Proof. intros Hv (H1 & H2 & H3 & H4 & H5). repeat split; auto; apply H2. Qed.

End Setters.

Section Primitives.

(** A step that leaves the cells of the latest render and the memoized
    closures alone: what is new has to be good, what was there stays so. *)
Lemma sound_change (w w' : World) :
  sound w -> later w w' ->
  rendered w' = rendered w -> memo_sched w' = memo_sched w ->
  memo_start w' = memo_start w -> eff_app w' = eff_app w -> eff_net w' = eff_net w ->
  (next_socket w <= next_socket w')%nat ->
  goodState w' (pending w') ->
  (forall t tm, timers w' !! t = Some tm ->
     timers w !! t = Some tm \/ ((t < next_timer w')%nat /\ goodTimer w' t tm)) ->
  (forall s rs scope, sockets w' !! s = Some (rs, scope) ->
     (exists rs0, sockets w !! s = Some (rs0, scope)
                  /\ (rs = CONNECTING -> rs0 = CONNECTING))
     \/ ((s < next_socket w')%nat /\ goodScope w' scope
         /\ (rs = CONNECTING -> isOver w' (socket (sc_start scope)) = true))) ->
  sound w'.
Proof.
  intros (S1 & S2 & S3 & S4 & S5 & S6 & S7) L Er Ems Emt Ea En Hn Hp Ht Hs.
  pose proof L as [_ N].
  unfold sound, currentScope in *. rewrite Er, Ems, Emt, Ea, En.
  split; [eapply goodState_later; eauto|]. split; [exact Hp|].
  split; [eapply goodScope_later; eauto|].
  split; [eapply goodScope_later; eauto|].
  split; [eapply goodScope_later; eauto|]. split.
  - intros t tm H. destruct (Ht t tm H) as [H0|H0]; [|exact H0].
    destruct (S6 t tm H0) as [Hlt Hg].
    split; [lia | eapply goodTimer_later; eauto].
  - intros s rs scope H. destruct (Hs s rs scope H) as [(rs0 & H0 & Hc)|H0]; [|exact H0].
    destruct (S7 s rs0 scope H0) as (Hlt & Hg & Ho).
    split; [lia|]. split; [eapply goodScope_later; eauto|].
    intros E. eapply isOver_later; eauto.
Qed.

Ltac same_sockets := intros ? ? ? ?; left; eauto.

Lemma emit_inv w0 w e : inv w0 w -> inv w0 (snd (emit e w)).
Proof.
  intros [S L]. assert (L' : later w (snd (emit e w))) by (apply later_same; reflexivity).
  split; [|eapply later_trans; eauto].
  apply (sound_change w); auto; cbn.
  - eapply goodState_later; [exact L' | apply S].
  - same_sockets.
Qed.

Lemma console_inv w0 w lvl what : inv w0 w -> inv w0 (snd (console lvl what w)).
Proof. apply emit_inv. Qed.

Lemma socketSend_inv w0 w s text : inv w0 w -> inv w0 (snd (socketSend s text w)).
Proof. apply emit_inv. Qed.

Lemma setState_inv w0 w f :
  inv w0 w -> goodState w (f (pending w)) -> inv w0 (snd (setState f w)).
Proof.
  intros [S L] Hf.
  assert (L' : later w (snd (setState f w))) by (apply later_same; reflexivity).
  split; [|eapply later_trans; eauto].
  apply (sound_change w); auto; cbn; same_sockets.
Qed.

Lemma deleteTimer_inv w0 w t : inv w0 w -> inv w0 (snd (withTimers (delete t) w)).
Proof.
  intros [S L].
  assert (L' : later w (snd (withTimers (delete t) w)))
    by (apply later_same; reflexivity).
  split; [|eapply later_trans; eauto].
  apply (sound_change w); auto; cbn.
  - eapply goodState_later; [exact L' | apply S].
  - intros t' tm H. left. apply lookup_delete_Some in H. apply H.
  - same_sockets.
Qed.

Lemma clearTimer_inv w0 w t : inv w0 w -> inv w0 (snd (clearTimer t w)).
Proof.
  intros H. unfold clearTimer, mbind, M_bind.
  pose proof (deleteTimer_inv w0 w t H) as H1.
  destruct (withTimers (delete t) w) as [[] w1]. apply emit_inv. exact H1.
Qed.

Lemma newTimer_inv w0 w tm e :
  inv w0 w -> goodTimer w (next_timer w) tm -> inv w0 (snd (newTimer tm e w)).
Proof.
  intros [S L] Hg.
  assert (L' : later w (snd (newTimer tm e w))).
  { split; cbn; [|lia]. intros s rs scope H. exists rs. split; [exact H | apply advances_refl]. }
  split; [|eapply later_trans; eauto].
  apply (sound_change w); auto; cbn.
  - eapply goodState_later; [exact L' | apply S].
  - intros t tm' H. apply lookup_insert_Some in H as [[<- <-]|[_ H]]; [right | left; exact H].
    split; [lia|]. eapply goodTimer_later; [exact L' | exact Hg].
  - same_sockets.
Qed.

Lemma newWebSocket_inv w0 w scope :
  inv w0 w -> goodScope w scope -> isOver w (socket (sc_start scope)) = true ->
  inv w0 (snd (newWebSocket scope w)).
Proof.
  intros [S L] Hg Ho.
  assert (L' : later w (snd (newWebSocket scope w))).
  { split; cbn; [|lia]. intros s rs sc H. exists rs. split; [|apply advances_refl].
    rewrite lookup_insert_ne; [exact H|].
    destruct S as (_ & _ & _ & _ & _ & _ & S7). destruct (S7 s rs sc H). lia. }
  split; [|eapply later_trans; eauto].
  apply (sound_change w); auto; cbn.
  - lia.
  - eapply goodState_later; [exact L' | apply S].
  - intros s rs sc H. apply lookup_insert_Some in H as [[<- E]|[_ H]]; [right | left; eauto].
    injection E as <- <-. split; [lia|].
    split; [eapply goodScope_later; eauto|]. intros _. eapply isOver_later; eauto.
Qed.

Lemma alter_inv w0 w s rs :
  inv w0 w -> rs <> CONNECTING ->
  (forall rs0 scope, sockets w !! s = Some (rs0, scope) -> advances rs0 rs = true) ->
  inv w0 (snd (withSockets (alter (fun '(_, sc) => (rs, sc)) s) w)).
Proof.
  intros [S L] Hrs Hadv.
  assert (L' : later w (snd (withSockets (alter (fun '(_, sc) => (rs, sc)) s) w))).
  { split; cbn; [|lia]. intros s' rs0 sc H.
    destruct (decide (s' = s)) as [->|Hne].
    - exists rs. rewrite lookup_alter_eq, H. split; [reflexivity | eauto].
    - exists rs0. rewrite lookup_alter_ne by congruence. split; [exact H | apply advances_refl]. }
  split; [|eapply later_trans; eauto].
  apply (sound_change w); auto; cbn.
  - eapply goodState_later; [exact L' | apply S].
  - intros s' rs' sc H. left.
    destruct (decide (s' = s)) as [->|Hne].
    + rewrite lookup_alter_eq in H.
      destruct (sockets w !! s) as [[rs0 sc0]|] eqn:E; [|discriminate].
      cbn in H. injection H as <- <-. exists rs0. split; [reflexivity | congruence].
    + rewrite lookup_alter_ne in H by congruence. eauto.
Qed.

Lemma setReadyState_inv w0 w s rs :
  inv w0 w -> rs <> CONNECTING ->
  (forall rs0 scope, sockets w !! s = Some (rs0, scope) -> advances rs0 rs = true) ->
  inv w0 (snd (setReadyState s rs w)).
Proof. apply alter_inv. Qed.

Lemma socketClose_inv w0 w s code : inv w0 w -> inv w0 (snd (socketClose s code w)).
Proof.
  intros H. unfold socketClose, mbind, M_bind.
  assert (H1 : inv w0 (snd (withSockets (alter (fun '(_, sc) => (CLOSING, sc)) s) w))).
  { apply alter_inv; [exact H | discriminate |]. intros [] ? _; reflexivity. }
  destruct (withSockets _ w) as [[] w1]. apply emit_inv. exact H1.
Qed.

(** Sequencing. *)
Lemma inv_bind {A B} (m : M A) (f : A -> M B) w0 w :
  (forall x w1, m w = (x, w1) -> inv w0 (snd (f x w1))) ->
  inv w0 (snd ((m ≫= f) w)).
Proof.
  intros H. unfold mbind, M_bind. destruct (m w) as [x w1]. apply H. reflexivity.
Qed.

Lemma inv_then {A B} (m : M A) (f : A -> M B) w0 w :
  inv w0 (snd (m w)) -> (forall x w1, inv w0 w1 -> inv w0 (snd (f x w1))) ->
  inv w0 (snd ((m ≫= f) w)).
Proof.
  intros H1 H2. apply inv_bind. intros x w1 E. apply H2. rewrite E in H1. exact H1.
Qed.

Lemma inv_ret {A} (x : A) w0 w : inv w0 w -> inv w0 (snd ((mret x : M A) w)).
Proof. intros H. exact H. Qed.

Lemma isOpen_eq o w :
  isOpen o w
  = (match o with
     | Some s => bool_decide (fst <$> sockets w !! s = Some OPEN)
     | None => false
     end, w).
Proof. destruct o; reflexivity. Qed.

Lemma isOpen_false w o :
  hasOpened w o = true -> fst (isOpen o w) = false -> isOver w o = true.
Proof.
  rewrite isOpen_eq. destruct o as [s|]; [|reflexivity]. cbn.
  destruct (sockets w !! s) as [[[] sc]|]; cbn; try congruence.
  rewrite bool_decide_eq_true_2 by reflexivity. discriminate.
Qed.

Lemma isOpen_over w o : isOver w o = true -> fst (isOpen o w) = false.
Proof.
  rewrite isOpen_eq. destruct o as [s|]; [|reflexivity]. cbn.
  destruct (sockets w !! s) as [[[] sc]|]; cbn; try congruence;
    intros _; apply bool_decide_eq_false_2; discriminate.
Qed.

End Primitives.

Section Handlers.

Lemma inv_pending w0 w : inv w0 w -> goodState w (pending w).
Proof. intros [S _]. apply S. Qed.

Lemma inv_rebase w0 w w' : later w0 w -> inv w w' -> inv w0 w'.
Proof. intros L [S L']. split; [exact S | eapply later_trans; eauto]. Qed.

Lemma inv_start w : sound w -> inv w w.
Proof. intros S. split; [exact S | apply later_refl]. Qed.

Lemma stopPingInterval_inv w0 w env :
  inv w0 w -> inv w0 (snd (stopPingInterval env w)).
Proof.
  intros H. unfold stopPingInterval. destruct (pingInterval env) as [i|]; [|exact H].
  apply inv_then; [apply clearTimer_inv; exact H|]. intros _ w1 H1.
  apply setState_inv; [exact H1|].
  apply goodState_setPingInterval; [discriminate | exact (inv_pending _ _ H1)].
Qed.

Lemma send_inv w0 w env type data now :
  inv w0 w -> inv w0 (snd (send env type data now w)).
Proof.
  intros H. rewrite send_unfold. cbv zeta.
  repeat case_match; cbn [snd]; apply emit_inv; exact H.
Qed.

Lemma startPingInterval_inv w0 w env :
  inv w0 w -> goodState w0 env -> isOver w0 (socket env) = true ->
  inv w0 (snd (startPingInterval env w)).
Proof.
  intros H Hg Ho. unfold startPingInterval.
  apply inv_then; [apply stopPingInterval_inv; exact H|]. intros _ w1 H1.
  apply inv_bind. intros t w2 E.
  assert (Hw2 : inv w0 w2 /\ (t < next_timer w2)%nat).
  { assert (G : goodTimer w1 (next_timer w1) (PingTimer env)).
    { destruct H1 as [_ L1]. split; [eapply isOver_later; eauto|].
      intros i Hi. destruct Hg as (_ & _ & _ & G & _). specialize (G i Hi).
      destruct L1 as [_ N]. lia. }
    pose proof (newTimer_inv w0 w1 _ SetInterval H1 G) as X. rewrite E in X.
    unfold newTimer in E. injection E as <- <-. split; [exact X | cbn; lia]. }
  destruct Hw2 as [H2 Ht].
  apply setState_inv; [exact H2|].
  apply goodState_setPingInterval; [|exact (inv_pending _ _ H2)].
  intros t' [= <-]. exact Ht.
Qed.

Lemma pingTick_inv w0 w env now : inv w0 w -> inv w0 (snd (pingTick env now w)).
Proof.
  intros H. unfold pingTick. apply inv_bind. intros open w1 E.
  rewrite isOpen_eq in E. injection E as <- <-.
  destruct (match socket env with Some _ => _ | None => _ end).
  - apply inv_then; [apply send_inv; exact H | intros; assumption].
  - apply stopPingInterval_inv. exact H.
Qed.

Lemma cleanupConnection_inv w0 w env :
  inv w0 w -> inv w0 (snd (cleanupConnection env w)).
Proof.
  intros H. unfold cleanupConnection.
  apply inv_then; [apply stopPingInterval_inv; exact H|]. intros _ w1 H1.
  destruct (reconnectTimer env) as [t|]; [|exact H1].
  apply inv_then; [apply clearTimer_inv; exact H1|]. intros _ w2 H2.
  apply setState_inv; [exact H2|].
  apply goodState_setReconnectTimer; [discriminate | exact (inv_pending _ _ H2)].
Qed.

Lemma scheduleReconnect_inv w0 w env random :
  inv w0 w -> goodEnv w0 env -> inv w0 (snd (scheduleReconnect env random w)).
Proof.
  intros H Hg. unfold scheduleReconnect. cbv zeta.
  apply inv_then.
  { destruct (reconnectTimer (se_cur env)); [apply clearTimer_inv|]; exact H. }
  intros _ w1 H1.
  destruct (Z.leb_spec MAX_RECONNECT_ATTEMPTS (reconnectAttempts (se_cur env)))
    as [Hge|Hlt]; [apply console_inv; exact H1|].
  apply inv_then; [apply console_inv; exact H1|]. intros _ w2 H2.
  apply inv_bind. intros t w3 E.
  assert (Hw3 : inv w0 w3 /\ (t < next_timer w3)%nat).
  { assert (G : goodTimer w2 (next_timer w2)
                  (ReconnectTimer (reconnectAttempts (se_cur env) + 1) env)).
    { split; [eapply goodEnv_later; [apply H2 | exact Hg]|].
      destruct Hg as ((_ & Ha & _) & _). lia. }
    pose proof (newTimer_inv w0 w2 _
                  (fun t => SetTimeout t
                     (reconnectDelay (reconnectAttempts (se_cur env)) random))
                  H2 G) as X.
    rewrite E in X. unfold newTimer in E. injection E as <- <-.
    split; [exact X | cbn; lia]. }
  destruct Hw3 as [H3 Ht].
  apply setState_inv; [exact H3|].
  apply goodState_setReconnectTimer; [|exact (inv_pending _ _ H3)].
  intros t' [= <-]. exact Ht.
Qed.

Lemma connect_inv w0 w scope :
  inv w0 w -> goodScope w0 scope -> inv w0 (snd (connect scope w)).
Proof.
  intros H Hg0. pose proof H as [S L]. apply (inv_rebase w0 w); [exact L|].
  pose proof (goodScope_later _ _ _ L Hg0) as Hg. clear H Hg0.
  pose proof (inv_start w S) as H.
  unfold connect. cbv zeta. apply inv_bind. intros open w1 E.
  rewrite isOpen_eq in E.
  assert (Hopen : fst (isOpen (socket (sc_cur scope)) w) = open)
    by (rewrite isOpen_eq; injection E as <- _; reflexivity).
  injection E as _ <-.
  destruct open; [exact H|].
  destruct (isConnecting (sc_cur scope)); [exact H|].
  destruct (negb (isNetworkAvailable (sc_cur scope))); [exact H|].
  assert (Hover : isOver w (socket (sc_start scope)) = true).
  { destruct Hg as ((Ho & _) & _ & _ & ->). apply isOpen_false; assumption. }
  apply inv_then.
  { apply setState_inv; [exact H | exact (inv_pending _ _ H)]. }
  intros _ w1 H1. apply inv_then.
  { apply setState_inv; [exact H1 | exact (inv_pending _ _ H1)]. }
  intros _ w2 H2. apply inv_then; [apply console_inv; exact H2|].
  intros _ w3 H3. apply inv_then; [|intros; assumption].
  apply newWebSocket_inv; [exact H3 | |].
  - eapply goodScope_later; [apply H3 | exact Hg].
  - eapply isOver_later; [apply H3 | exact Hover].
Qed.

Lemma onopen_inv w0 w scope s :
  inv w0 w -> goodScope w0 scope -> isOver w0 (socket (sc_start scope)) = true ->
  hasOpened w0 (Some s) = true ->
  inv w0 (snd (onopen scope s w)).
Proof.
  intros H Hg Ho Hs. unfold onopen.
  apply inv_then; [apply console_inv; exact H|]. intros _ w1 H1.
  apply inv_then.
  { apply setState_inv; [exact H1|].
    apply goodState_setSocket; [|exact (inv_pending _ _ H1)].
    eapply hasOpened_later; [apply H1 | exact Hs]. }
  intros _ w2 H2. apply inv_then.
  { apply setState_inv; [exact H2 | exact (inv_pending _ _ H2)]. }
  intros _ w3 H3. apply inv_then.
  { apply setState_inv; [exact H3 | exact (inv_pending _ _ H3)]. }
  intros _ w4 H4. apply inv_then.
  { apply setState_inv; [exact H4|].
    apply goodState_setReconnectAttempts; [|exact (inv_pending _ _ H4)].
    unfold MAX_RECONNECT_ATTEMPTS. lia. }
  intros _ w5 H5. apply inv_then.
  { apply startPingInterval_inv; [exact H5 | apply Hg | exact Ho]. }
  intros _ w6 H6. apply emit_inv. exact H6.
Qed.

Lemma onclose_inv w0 w scope code random :
  inv w0 w -> goodScope w0 scope -> inv w0 (snd (onclose scope code random w)).
Proof.
  intros H Hg. unfold onclose. cbv zeta.
  apply inv_then; [apply console_inv; exact H|]. intros _ w1 H1.
  apply inv_then.
  { apply setState_inv; [exact H1 | exact (inv_pending _ _ H1)]. }
  intros _ w2 H2. apply inv_then.
  { apply setState_inv; [exact H2 | exact (inv_pending _ _ H2)]. }
  intros _ w3 H3. apply inv_then.
  { apply setState_inv; [exact H3|].
    apply goodState_setSocket; [reflexivity | exact (inv_pending _ _ H3)]. }
  intros _ w4 H4. apply inv_then; [apply cleanupConnection_inv; exact H4|].
  intros _ w5 H5.
  destruct (_ && _); [|exact H5].
  apply scheduleReconnect_inv; [exact H5 | apply Hg].
Qed.

Lemma onerror_inv w0 w s : inv w0 w -> inv w0 (snd (onerror s w)).
Proof.
  intros H. unfold onerror.
  apply inv_then; [apply console_inv; exact H|]. intros _ w1 H1.
  apply inv_then.
  { apply setState_inv; [exact H1 | exact (inv_pending _ _ H1)]. }
  intros _ w2 H2. apply inv_then.
  { apply setState_inv; [exact H2 | exact (inv_pending _ _ H2)]. }
  intros _ w3 H3. apply emit_inv. exact H3.
Qed.

Lemma notify_inv w0 w ls message : inv w0 w -> inv w0 (snd (notify ls message w)).
Proof.
  revert w. induction ls as [|l ls IH]; intros w H; [exact H|]. cbn [notify].
  apply inv_then; [apply emit_inv; exact H|]. intros _ w1 H1.
  apply inv_then; [|intros _ w2 H2; apply IH; exact H2].
  destruct (throwsOn l message); [apply console_inv|]; exact H1.
Qed.

Lemma onmessage_inv w0 w scope data : inv w0 w -> inv w0 (snd (onmessage scope data w)).
Proof.
  intros H. unfold onmessage.
  destruct (JSON.parse data) as [message|]; [|apply console_inv; exact H].
  destruct (property "type" message) as [type|]; [|apply console_inv; exact H].
  cbv zeta. destruct (_ && toStringThrows type); [apply console_inv; exact H|].
  apply inv_then.
  { destruct (_ && _); [apply console_inv|]; exact H. }
  intros _ w1 H1. apply inv_then.
  { apply setState_inv; [exact H1 | exact (inv_pending _ _ H1)]. }
  intros _ w2 H2. apply notify_inv. exact H2.
Qed.

Lemma disconnect_inv w0 w env : inv w0 w -> inv w0 (snd (disconnect env w)).
Proof.
  intros H. unfold disconnect.
  apply inv_then; [apply cleanupConnection_inv; exact H|]. intros _ w1 H1.
  apply inv_bind. intros open w2 E. rewrite isOpen_eq in E. injection E as _ <-.
  apply inv_then.
  { destruct (socket env); [destruct open; [apply socketClose_inv|]|]; exact H1. }
  intros _ w3 H3. apply inv_then.
  { apply setState_inv; [exact H3|].
    apply goodState_setSocket; [reflexivity | exact (inv_pending _ _ H3)]. }
  intros _ w4 H4.
  apply setState_inv; [exact H4 | exact (inv_pending _ _ H4)].
Qed.

(** The two updates of the listener set keep its callbacks distinct. *)
Lemma existsb_sameListener cb ls :
  existsb (sameListener cb) ls = false -> lid cb ∉ lid <$> ls.
Proof.
  induction ls as [|l ls IH]; cbn; [intros _ H; inversion H|].
  intros H. apply orb_false_iff in H as [H1 H2]. apply Nat.eqb_neq in H1.
  rewrite not_elem_of_cons. split; [exact H1 | apply IH; exact H2].
Qed.

Lemma filter_lid_subset (P : Listener -> bool) ls x :
  x ∈ lid <$> List.filter P ls -> x ∈ lid <$> ls.
Proof.
  induction ls as [|l ls IH]; cbn; [auto|].
  destruct (P l); cbn; rewrite ?elem_of_cons; intuition.
Qed.

Lemma NoDup_filter_lid (P : Listener -> bool) ls :
  NoDup (lid <$> ls) -> NoDup (lid <$> List.filter P ls).
Proof.
  induction ls as [|l ls IH]; cbn; [auto|].
  rewrite NoDup_cons. intros [Hn Hd].
  destruct (P l); cbn; [|auto]. apply NoDup_cons. split; [|auto].
  intros Hin. apply Hn. eapply filter_lid_subset. exact Hin.
Qed.

Lemma addListener_inv w0 w cb : inv w0 w -> inv w0 (snd (addListener cb w)).
Proof.
  intros H. unfold addListener. apply setState_inv; [exact H|].
  pose proof (inv_pending _ _ H) as G.
  apply goodState_setListeners; [|exact G].
  destruct G as (_ & _ & Hnd & _).
  destruct (existsb (sameListener cb) (listeners (pending w))) eqn:E; [exact Hnd|].
  rewrite fmap_app. cbn. apply NoDup_app. split; [exact Hnd|].
  split; [|apply NoDup_singleton].
  intros x Hx Hx'. apply list_elem_of_singleton in Hx'. subst x.
  exact (existsb_sameListener _ _ E Hx).
Qed.

Lemma removeListener_inv w0 w cb : inv w0 w -> inv w0 (snd (removeListener cb w)).
Proof.
  intros H. unfold removeListener. apply setState_inv; [exact H|].
  pose proof (inv_pending _ _ H) as G.
  apply goodState_setListeners; [|exact G].
  apply NoDup_filter_lid. apply G.
Qed.

Lemma reconnectTick_inv w0 w nextAttempt env :
  inv w0 w -> goodEnv w0 env -> 1 <= nextAttempt <= MAX_RECONNECT_ATTEMPTS ->
  inv w0 (snd (reconnectTick nextAttempt env w)).
Proof.
  intros H Hg Hn. unfold reconnectTick.
  apply inv_then.
  { apply setState_inv; [exact H|].
    apply goodState_setReconnectAttempts; [lia | exact (inv_pending _ _ H)]. }
  intros _ w1 H1. apply inv_then; [apply console_inv; exact H1|].
  intros _ w2 H2. apply inv_then.
  { apply connect_inv; [exact H2 | apply goodEnv_schedScope; exact Hg]. }
  intros r w3 H3. destruct r; [exact H3 | apply console_inv; exact H3 | exact H3].
Qed.

Lemma catchLog_inv w0 w r : inv w0 w -> inv w0 (snd (catchLog r w)).
Proof. intros H. destruct r; [exact H | apply console_inv; exact H | exact H]. Qed.

Lemma handleAppStateChange_inv w0 w scope next :
  inv w0 w -> goodScope w0 scope ->
  inv w0 (snd (handleAppStateChange scope next w)).
Proof.
  intros H Hg. unfold handleAppStateChange. cbv zeta.
  apply inv_then.
  { destruct (_ && _); [|exact H].
    apply inv_then; [apply connect_inv; assumption|].
    intros r w1 H1. apply catchLog_inv. exact H1. }
  intros _ w1 H1. apply setState_inv; [exact H1 | exact (inv_pending _ _ H1)].
Qed.

Lemma handleNetInfo_inv w0 w scope connected :
  inv w0 w -> goodScope w0 scope ->
  inv w0 (snd (handleNetInfo scope connected w)).
Proof.
  intros H Hg. unfold handleNetInfo. cbv zeta.
  apply inv_then.
  { destruct (_ && _); [|exact H].
    apply inv_then; [apply connect_inv; assumption|].
    intros r w1 H1. apply catchLog_inv. exact H1. }
  intros _ w1 H1. apply setState_inv; [exact H1 | exact (inv_pending _ _ H1)].
Qed.

Lemma mount_inv w0 w scope :
  inv w0 w -> goodScope w0 scope -> inv w0 (snd (mount scope w)).
Proof.
  intros H Hg. unfold mount. cbv zeta.
  destruct (_ && _); [|exact H].
  apply inv_then; [apply connect_inv; assumption|].
  intros r w1 H1. destruct r; [exact H1 | apply console_inv; exact H1 | exact H1].
Qed.

End Handlers.

Section Reachable.

Lemma render_sound w : sound w -> sound (render w).
Proof.
  intros (S1 & S2 & S3 & S4 & S5 & S6 & S7).
  assert (L : later w (render w)) by (apply later_same; reflexivity).
  destruct S3 as (C1 & C2 & C3 & C4). cbn [currentScope sc_cur sc_sched sc_start] in *.
  set (start := if bool_decide (socket (rendered w) = socket (pending w))
                then memo_start w else pending w).
  assert (Hstart : goodState w start /\ socket start = socket (pending w)).
  { subst start. case_bool_decide as E; [|auto]. split; [exact C3|]. congruence. }
  destruct Hstart as [G1 G2].
  set (sched := if bool_decide (reconnectAttempts (rendered w)
                                = reconnectAttempts (pending w))
                   && bool_decide (reconnectTimer (rendered w)
                                   = reconnectTimer (pending w))
                then memo_sched w else mkSchedEnv (pending w) start).
  assert (Hsched : goodEnv w sched).
  { subst sched. destruct (_ && _); [exact C2|]. split; [exact S2|]. split; assumption. }
  set (scope := mkScope (pending w) sched start).
  assert (Hscope : goodScope w scope).
  { split; [exact S2|]. split; [exact Hsched|]. split; assumption. }
  assert (Happ : goodScope w (eff_app (render w))).
  { cbn [render eff_app]. fold start. fold sched. fold scope.
    match goal with |- goodScope _ (if ?b then _ else _) => destruct b end;
      assumption. }
  assert (Hnet : goodScope w (eff_net (render w))).
  { cbn [render eff_net]. fold start. fold sched. fold scope.
    match goal with |- goodScope _ (if ?b then _ else _) => destruct b end;
      assumption. }
  assert (Hcur : currentScope (render w) = scope) by reflexivity.
  unfold sound. rewrite Hcur.
  change (rendered (render w)) with (pending w).
  change (pending (render w)) with (pending w).
  change (timers (render w)) with (timers w).
  change (sockets (render w)) with (sockets w).
  change (next_timer (render w)) with (next_timer w).
  change (next_socket (render w)) with (next_socket w).
  split; [eapply goodState_later; [exact L | exact S2]|].
  split; [eapply goodState_later; [exact L | exact S2]|].
  split; [eapply goodScope_later; [exact L | exact Hscope]|].
  split; [eapply goodScope_later; [exact L | exact Happ]|].
  split; [eapply goodScope_later; [exact L | exact Hnet]|].
  split.
  - intros t tm H. destruct (S6 t tm H) as [Hlt Hg].
    split; [exact Hlt | eapply goodTimer_later; eauto].
  - intros s rs sc H. destruct (S7 s rs sc H) as (Hlt & Hg & Ho).
    split; [exact Hlt|]. split; [eapply goodScope_later; eauto|].
    intros E. eapply isOver_later; eauto.
Qed.

Lemma step_inv (w : World) (e : Event) : sound w -> inv w (step w e).
Proof.
  intros S. pose proof (inv_start w S) as H.
  pose proof S as (S1 & S2 & S3 & S4 & S5 & S6 & S7).
  unfold step. destruct e; cbn [handle].
  - split; [apply render_sound; exact S | apply later_same; reflexivity].
  - apply mount_inv; assumption.
  - apply inv_then; [apply connect_inv; assumption | intros; assumption].
  - apply disconnect_inv. exact H.
  - apply inv_then; [apply send_inv; assumption | intros; assumption].
  - apply inv_then; [apply send_inv; assumption | intros; assumption].
  - apply inv_then; [apply send_inv; assumption | intros; assumption].
  - apply addListener_inv. exact H.
  - apply removeListener_inv. exact H.
  - destruct (sockets w !! s) as [[[] scope]|] eqn:E; try exact H.
    destruct (S7 s _ scope E) as (_ & Hg & Ho). specialize (Ho eq_refl).
    assert (H1 : inv w (snd (setReadyState s OPEN w))).
    { apply setReadyState_inv; [exact H | discriminate |].
      intros rs0 sc E'. rewrite E in E'. injection E' as <- <-. reflexivity. }
    apply inv_bind. intros [] w1 E1. rewrite E1 in H1. cbn [snd] in H1.
    pose proof H1 as [_ L1]. apply (inv_rebase w w1); [exact L1|].
    apply onopen_inv.
    + apply inv_start. apply H1.
    + eapply goodScope_later; eauto.
    + eapply isOver_later; eauto.
    + unfold setReadyState, withSockets in E1. injection E1 as <-.
      cbn. rewrite lookup_alter_eq, E. reflexivity.
  - destruct (sockets w !! s) as [[[] scope]|]; try exact H;
      apply onerror_inv; exact H.
  - destruct (sockets w !! s) as [[rs scope]|] eqn:E; [|exact H].
    destruct (S7 s _ scope E) as (_ & Hg & _).
    assert (H1 : inv w (snd (setReadyState s CLOSED w))).
    { apply setReadyState_inv; [exact H | discriminate |]. intros [] ? _; reflexivity. }
    assert (H2 : inv w (snd ((setReadyState s CLOSED;; onclose scope code random) w))).
    { apply inv_then; [exact H1|]. intros _ w1 Hw1. apply onclose_inv; assumption. }
    destruct rs; try exact H; apply H2.
  - destruct (sockets w !! s) as [[[] scope]|]; try exact H;
      apply onmessage_inv; exact H.
  - destruct (timers w !! t) as [[nextAttempt env|env]|] eqn:E; [| |exact H].
    + destruct (S6 t _ E) as (_ & Hg & Hn).
      apply inv_then; [apply deleteTimer_inv; exact H|].
      intros _ w1 H1. apply reconnectTick_inv; assumption.
    + apply pingTick_inv. exact H.
  - apply handleAppStateChange_inv; assumption.
  - apply handleNetInfo_inv; assumption.
Qed.

Lemma step_sound (w : World) (e : Event) : sound w -> sound (step w e).
Proof. intros S. apply (step_inv w e S). Qed.

Lemma run_inv (es : list Event) (w : World) : sound w -> inv w (run es w).
Proof.
  revert w. induction es as [|e es IH]; intros w S; [apply inv_start; exact S|].
  pose proof (step_inv w e S) as [S1 L1].
  apply (inv_rebase w (step w e)); [exact L1|]. apply IH. exact S1.
Qed.

Lemma run_sound (es : list Event) (w : World) : sound w -> sound (run es w).
Proof. intros S. apply (run_inv es w S). Qed.

Lemma initialWorld_sound (app : AppStateStatus) : sound (initialWorld app).
Proof.
  assert (G : goodState (initialWorld app) (initialState app)).
  { split; [reflexivity|]. split; [unfold MAX_RECONNECT_ATTEMPTS; cbn; lia|].
    split; [constructor|]. split; intros t; discriminate. }
  assert (GS : goodScope (initialWorld app)
                 (mkScope (initialState app)
                    (mkSchedEnv (initialState app) (initialState app))
                    (initialState app))).
  { split; [exact G|]. split; [|split; [exact G | reflexivity]].
    split; [exact G|]. split; [exact G | reflexivity]. }
  split; [exact G|]. split; [exact G|]. split; [exact GS|].
  split; [exact GS|]. split; [exact GS|].
  split; intros x y; cbn; rewrite lookup_empty; discriminate.
Qed.

Lemma reachable_sound (w : World) : reachable w -> sound w.
Proof. intros (app & es & ->). apply run_sound. apply initialWorld_sound. Qed.

End Reachable.

(** ** Who writes to the socket *)

Section Silent.

Lemma silent_ret {A} (x : A) : silent (mret x).
Proof. intros w. reflexivity. Qed.

Lemma silent_bind {A B} (m : M A) (f : A -> M B) :
  silent m -> (forall x, silent (f x)) -> silent (m ≫= f).
Proof.
  intros Hm Hf w. unfold mbind, M_bind. specialize (Hm w).
  destruct (m w) as [x w1]. rewrite (Hf x w1). exact Hm.
Qed.

Lemma silent_emit (e : Effect) : isSocketSend e = false -> silent (emit e).
Proof.
  intros He w. change (snd (emit e w)) with (after e w). rewrite frames_after.
  destruct e; try discriminate He; apply app_nil_r.
Qed.

Lemma silent_setState f : silent (setState f).
Proof. intros w. reflexivity. Qed.

Lemma silent_withSockets f : silent (withSockets f).
Proof. intros w. reflexivity. Qed.

Lemma silent_withTimers f : silent (withTimers f).
Proof. intros w. reflexivity. Qed.

Lemma silent_readyState s : silent (readyState s).
Proof. intros w. reflexivity. Qed.

Lemma silent_newTimer tm e :
  (forall t, isSocketSend (e t) = false) -> silent (newTimer tm e).
Proof.
  intros He w. unfold frames. cbn. rewrite omap_app. cbn.
  specialize (He (next_timer w)). destruct (e (next_timer w)); try discriminate He;
    apply app_nil_r.
Qed.

Lemma silent_newWebSocket scope : silent (newWebSocket scope).
Proof. intros w. unfold frames. cbn. rewrite omap_app. apply app_nil_r. Qed.

End Silent.

Create HintDb silent.

#[local] Hint Resolve silent_ret silent_setState silent_withSockets silent_withTimers
  silent_readyState silent_newWebSocket : silent.
#[local] Hint Extern 1 (silent (emit _)) => apply silent_emit; reflexivity : silent.
#[local] Hint Extern 1 (silent (newTimer _ _)) =>
  apply silent_newTimer; intros ?; reflexivity : silent.

Ltac silent_step :=
  match goal with
  | |- silent (_ ≫= _) => apply silent_bind; [|intros ?]
  | |- silent (match ?x with _ => _ end) => destruct x
  | |- silent (let _ := _ in _) => cbv zeta
  | |- silent _ => solve [eauto with silent]
  end.

Ltac silent_tac := repeat silent_step.

Section SilentOperations.

Lemma silent_console lvl what : silent (console lvl what).
Proof. unfold console. silent_tac. Qed.

Lemma silent_isOpen s : silent (isOpen s).
Proof. unfold isOpen. silent_tac. Qed.

Lemma silent_clearTimer t : silent (clearTimer t).
Proof. unfold clearTimer. silent_tac. Qed.

Lemma silent_socketClose s code : silent (socketClose s code).
Proof. unfold socketClose. silent_tac. Qed.

Hint Resolve silent_console silent_isOpen silent_clearTimer silent_socketClose : silent.

Lemma silent_stopPingInterval env : silent (stopPingInterval env).
Proof. unfold stopPingInterval. silent_tac. Qed.

Hint Resolve silent_stopPingInterval : silent.

Lemma silent_startPingInterval env : silent (startPingInterval env).
Proof. unfold startPingInterval. silent_tac. Qed.

Lemma silent_cleanupConnection env : silent (cleanupConnection env).
Proof. unfold cleanupConnection. silent_tac. Qed.

Lemma silent_scheduleReconnect env random : silent (scheduleReconnect env random).
Proof. unfold scheduleReconnect. silent_tac. Qed.

Lemma silent_connect scope : silent (connect scope).
Proof. unfold connect. silent_tac. Qed.

Hint Resolve silent_startPingInterval silent_cleanupConnection
  silent_scheduleReconnect silent_connect : silent.

Lemma silent_onopen scope s : silent (onopen scope s).
Proof. unfold onopen. silent_tac. Qed.

Lemma silent_onclose scope code random : silent (onclose scope code random).
Proof. unfold onclose. silent_tac. Qed.

Lemma silent_onerror s : silent (onerror s).
Proof. unfold onerror. silent_tac. Qed.

Lemma silent_notify ls message : silent (notify ls message).
Proof. induction ls as [|l ls IH]; cbn [notify]; silent_tac. Qed.

Hint Resolve silent_notify : silent.

Lemma silent_onmessage scope data : silent (onmessage scope data).
Proof. unfold onmessage. silent_tac. Qed.

Lemma silent_disconnect env : silent (disconnect env).
Proof. unfold disconnect. silent_tac. Qed.

Lemma silent_addListener cb : silent (addListener cb).
Proof. unfold addListener. silent_tac. Qed.

Lemma silent_removeListener cb : silent (removeListener cb).
Proof. unfold removeListener. silent_tac. Qed.

Lemma silent_reconnectTick nextAttempt env : silent (reconnectTick nextAttempt env).
Proof. unfold reconnectTick. silent_tac. Qed.

Lemma silent_catchLog r : silent (catchLog r).
Proof. unfold catchLog. silent_tac. Qed.

Hint Resolve silent_catchLog : silent.

Lemma silent_handleAppStateChange scope next : silent (handleAppStateChange scope next).
Proof. unfold handleAppStateChange. silent_tac. Qed.

Lemma silent_handleNetInfo scope connected : silent (handleNetInfo scope connected).
Proof. unfold handleNetInfo. silent_tac. Qed.

Lemma silent_mount scope : silent (mount scope).
Proof. unfold mount. silent_tac. Qed.

(** The tick of a ping interval whose socket is closing, closed or null
    takes the branch that stops the interval. *)
Lemma pingTick_over env now w :
  isOver w (socket env) = true -> pingTick env now w = stopPingInterval env w.
Proof.
  intros Ho. unfold pingTick, mbind, M_bind.
  pose proof (isOpen_over w _ Ho) as E. rewrite isOpen_eq in *. cbn [fst] in E.
  rewrite E. reflexivity.
Qed.

(** [send] writes at most the one frame. *)
Lemma send_writes_at_most_one env type data now w :
  (length (frames (snd (send env type data now w))) <= S (length (frames w)))%nat.
Proof.
  rewrite send_unfold. cbv zeta.
  repeat case_match; cbn [snd]; rewrite frames_after, length_app; cbn; lia.
Qed.

Lemma step_frames (w : World) (e : Event) :
  sound w ->
  (length (frames (step w e))
   <= length (frames w) + (if isSendCall e then 1 else 0))%nat.
Proof.
  intros S. pose proof S as (_ & _ & _ & _ & _ & S6 & _).
  assert (Hsend : forall env type data now,
            (length (frames (snd ((send env type data now;; mret tt) w)))
             <= length (frames w) + 1)%nat).
  { intros env type data now. unfold mbind, M_bind.
    pose proof (send_writes_at_most_one env type data now w) as H.
    destruct (send env type data now w) as [b w1]. unfold mret, M_ret.
    cbn [snd] in *. lia. }
  assert (Hsilent : forall (m : M unit),
            silent m -> (length (frames (snd (m w))) <= length (frames w) + 0)%nat).
  { intros m Hm. rewrite (Hm w). lia. }
  unfold step. destruct e; cbn [handle isSendCall];
    try (apply Hsend);
    try (apply Hsilent;
         auto using silent_mount, silent_disconnect, silent_addListener,
           silent_removeListener, silent_handleAppStateChange, silent_handleNetInfo).
  - unfold frames. cbn [snd render trace]. lia.
  - silent_tac.
  - destruct (sockets w !! s) as [[[] scope]|]; cbn [snd]; try lia;
      apply Hsilent; silent_tac; apply silent_onopen.
  - destruct (sockets w !! s) as [[[] scope]|]; cbn [snd]; try lia;
      apply Hsilent; apply silent_onerror.
  - destruct (sockets w !! s) as [[[] scope]|]; cbn [snd]; try lia;
      apply Hsilent; silent_tac; apply silent_onclose.
  - destruct (sockets w !! s) as [[[] scope]|]; cbn [snd]; try lia;
      apply Hsilent; apply silent_onmessage.
  - destruct (timers w !! t) as [[nextAttempt env|env]|] eqn:E; cbn [snd]; try lia.
    + apply Hsilent. silent_tac. apply silent_reconnectTick.
    + destruct (S6 t _ E) as (_ & Ho & _).
      rewrite pingTick_over by exact Ho. apply Hsilent. apply silent_stopPingInterval.
Qed.

Lemma run_frames (es : list Event) (w : World) :
  sound w ->
  (length (frames (run es w))
   <= length (frames w) + length (List.filter isSendCall es))%nat.
Proof.
  revert w. induction es as [|e es IH]; intros w S; cbn [run fold_left List.filter].
  - lia.
  - pose proof (step_frames w e S) as H1.
    pose proof (IH (step w e) (step_sound w e S)) as H2.
    change (fold_left step es (step w e)) with (run es (step w e)).
    destruct (isSendCall e); cbn [length]; lia.
Qed.

End SilentOperations.

(** X1.  The provider writes to a socket only when the consumer calls [send],
    [sendLocation] or [notifyPhotoCapture], and then at most one frame per
    call: whatever else happens (opens, closes, messages, timers that fire,
    among them the ticks of the ping interval), no frame is written.  In
    particular no keep-alive ping ever goes out. *)
Theorem frames_only_from_send_calls (app : AppStateStatus) (es : list Event) :
  (length (frames (run es (initialWorld app)))
   <= length (List.filter isSendCall es))%nat.
Proof.
  pose proof (run_frames es (initialWorld app) (initialWorld_sound app)) as H.
  exact H.
Qed.

(** ** The ping interval *)

(** X2.  The tick of a ping interval does nothing that keeps the connection
    alive: in every world the component reaches, when a ping interval fires
    no frame is written, no socket changes, and the interval itself is still
    running afterwards. *)
Theorem ping_interval_never_stops (w : World) (t : nat) (env : State) (now : Z) :
  reachable w -> timers w !! t = Some (PingTimer env) ->
  let w' := step w (TimerFired t now) in
  timers w' !! t = Some (PingTimer env)
  /\ frames w' = frames w
  /\ sockets w' = sockets w.
Proof.
  intros Hreach Ht. pose proof (reachable_sound w Hreach) as S.
  destruct S as (_ & _ & _ & _ & _ & S6 & _).
  destruct (S6 t _ Ht) as (_ & Ho & Hi).
  unfold step. cbn [handle]. rewrite Ht, pingTick_over by exact Ho.
  unfold stopPingInterval. destruct (pingInterval env) as [i|] eqn:E.
  - specialize (Hi i eq_refl). run_prims.
    rewrite lookup_delete_ne by lia. split; [exact Ht|].
    split; [|reflexivity]. unfold frames. cbn. rewrite omap_app. apply app_nil_r.
  - cbn. auto.
Qed.

Lemma ping_interval_never_stops_witness :
  let w := run [Mount; Render; SocketOpened 1; Render] (initialWorld active) in
  timers (step w (TimerFired 1 0)) !! 1%nat = Some (PingTimer (initialState active))
  /\ frames (step w (TimerFired 1 0)) = frames w
  /\ sockets (step w (TimerFired 1 0)) = sockets w.
Proof.
  intros w. apply (ping_interval_never_stops w 1 (initialState active) 0).
  - exists active. eexists. reflexivity.
  - vm_compute. reflexivity.
Defined.

(** The listener set holds every callback at most once, as a [Set] does. *)
Lemma listeners_are_distinct (w : World) :
  reachable w ->
  NoDup (lid <$> listeners (rendered w)) /\ NoDup (lid <$> listeners (pending w)).
Proof.
  intros Hreach. pose proof (reachable_sound w Hreach) as S.
  destruct S as (S1 & S2 & _). split; [apply S1 | apply S2].
Qed.

Section PingInterval.

(** What [onopen] does to the timers: it sets the ping interval, after
    cancelling the one its [startPingInterval] closure reads. *)
Lemma onopen_timers (scope : Scope) (s : nat) (w : World) :
  let w' := snd (onopen scope s w) in
  timers w'
  = <[next_timer w := PingTimer (sc_start scope)]>
      (match pingInterval (sc_start scope) with
       | Some i => delete i (timers w)
       | None => timers w
       end)
  /\ next_timer w' = S (next_timer w)
  /\ pingInterval (pending w') = Some (next_timer w)
  /\ sockets w' = sockets w
  /\ rendered w' = rendered w.
Proof.
  unfold onopen, startPingInterval, stopPingInterval.
  destruct (pingInterval (sc_start scope)); run_prims; auto.
Qed.

(** The close handler cancels only the timers that its closures read. *)
Lemma onclose_spares (scope : Scope) (code : Z) (random : Q) (w : World)
      (t : nat) (tm : Timer) :
  timers w !! t = Some tm -> (t < next_timer w)%nat ->
  pingInterval (sc_cur scope) <> Some t ->
  reconnectTimer (sc_cur scope) <> Some t ->
  reconnectTimer (se_cur (sc_sched scope)) <> Some t ->
  timers (snd (onclose scope code random w)) !! t = Some tm.
Proof.
  intros Ht Hlt H1 H2 H3.
  unfold onclose, cleanupConnection, stopPingInterval, scheduleReconnect.
  destruct (pingInterval (sc_cur scope)) as [i|],
    (reconnectTimer (sc_cur scope)) as [j|],
    (negb (code =? 1000) && bool_decide (appState (sc_cur scope) = active)
       && isNetworkAvailable (sc_cur scope));
    try destruct (reconnectTimer (se_cur (sc_sched scope))) as [k|];
    try destruct (MAX_RECONNECT_ATTEMPTS <=? reconnectAttempts (se_cur (sc_sched scope)));
    run_prims;
    rewrite ?lookup_insert_ne by lia;
    rewrite ?lookup_delete_ne by congruence; exact Ht.
Qed.

End PingInterval.

(** X3.  The ping interval that an open starts outlives the connection: when
    the socket that opened closes, with whatever code, the interval is still
    running.  The close handler cancels the interval that the state held when
    [connect()] was called, which is an older one or none. *)
Theorem close_leaves_ping_interval_running
  (w : World) (s : nat) (scope : Scope) (code : Z) (random : Q) :
  reachable w -> sockets w !! s = Some (CONNECTING, scope) ->
  let t := next_timer w in
  let connected := run [SocketOpened s; Render] w in
  let closed := run [SocketClosed s code random; Render] connected in
  timers connected !! t = Some (PingTimer (sc_start scope))
  /\ pingInterval (rendered connected) = Some t
  /\ timers closed !! t = Some (PingTimer (sc_start scope)).
Proof.
  intros Hreach Hs t connected closed.
  pose proof (reachable_sound w Hreach) as (_ & _ & _ & _ & _ & _ & S7).
  destruct (S7 s _ scope Hs) as (_ & Hg & _).
  destruct Hg as ((_ & _ & _ & P1 & R1) & ((_ & _ & _ & _ & R2) & _) & (_ & _ & _ & P3 & _) & _).
  set (w1 := snd (setReadyState s OPEN w)).
  assert (E1 : step w (SocketOpened s) = snd (onopen scope s w1)).
  { unfold step. cbn [handle]. rewrite Hs. unfold mbind, M_bind. reflexivity. }
  destruct (onopen_timers scope s w1) as (T1 & N1 & I1 & S1 & R1').
  rewrite <- E1 in T1, N1, I1, S1, R1'.
  set (w2 := step w (SocketOpened s)) in *.
  assert (Ht2 : timers w2 !! t = Some (PingTimer (sc_start scope))).
  { rewrite T1. apply lookup_insert_eq. }
  assert (Hs2 : sockets w2 !! s = Some (OPEN, scope)).
  { rewrite S1. subst w1. cbn. rewrite lookup_alter_eq, Hs. reflexivity. }
  assert (Ec : connected = render w2) by reflexivity.
  assert (E3 : step connected (SocketClosed s code random)
               = snd (onclose scope code random (snd (setReadyState s CLOSED connected)))).
  { unfold step. cbn [handle].
    change (sockets connected) with (sockets w2). rewrite Hs2.
    unfold mbind, M_bind. reflexivity. }
  split; [exact Ht2|]. split; [exact I1|].
  change (timers closed) with (timers (step connected (SocketClosed s code random))).
  rewrite E3. apply onclose_spares.
  - exact Ht2.
  - change (next_timer (snd (setReadyState s CLOSED connected))) with (next_timer w2).
    rewrite N1. subst t w1. cbn. lia.
  - intros E. specialize (P1 _ E). subst t. lia.
  - intros E. specialize (R1 _ E). subst t. lia.
  - intros E. specialize (R2 _ E). subst t. lia.
Qed.

Lemma close_leaves_ping_interval_running_witness :
  let w := run [Mount; Render] (initialWorld active) in
  let connected := run [SocketOpened 1; Render] w in
  let closed := run [SocketClosed 1 1006 0.5; Render] connected in
  timers connected !! 1%nat = Some (PingTimer (initialState active))
  /\ pingInterval (rendered connected) = Some 1%nat
  /\ timers closed !! 1%nat = Some (PingTimer (initialState active)).
Proof.
  intros w.
  apply (close_leaves_ping_interval_running w 1 (currentScope (initialWorld active))
           1006 0.5).
  - exists active. eexists. reflexivity.
  - vm_compute. reflexivity.
Defined.

(** ** The attempts counter and the reconnect delay *)

(** X4.  The attempts counter never leaves the range from 0 to
    [MAX_RECONNECT_ATTEMPTS], in the cells of the latest render and in the
    queued updates, and every reconnect timer that is set carries an attempt
    number from 1 to [MAX_RECONNECT_ATTEMPTS]. *)
Theorem attempts_stay_within_bounds (w : World) :
  reachable w ->
  0 <= reconnectAttempts (rendered w) <= MAX_RECONNECT_ATTEMPTS
  /\ 0 <= reconnectAttempts (pending w) <= MAX_RECONNECT_ATTEMPTS
  /\ (forall t nextAttempt env,
        timers w !! t = Some (ReconnectTimer nextAttempt env) ->
        1 <= nextAttempt <= MAX_RECONNECT_ATTEMPTS).
Proof.
  intros Hreach. pose proof (reachable_sound w Hreach) as S.
  destruct S as (S1 & S2 & _ & _ & _ & S6 & _).
  split; [apply S1|]. split; [apply S2|].
  intros t n env Ht. destruct (S6 t _ Ht) as (_ & _ & Hn). exact Hn.
Qed.

Lemma attempts_stay_within_bounds_witness :
  let w := run [Mount; Render; SocketClosed 1 1006 0.5; Render; TimerFired 1 0; Render]
             (initialWorld active) in
  0 <= reconnectAttempts (rendered w) <= MAX_RECONNECT_ATTEMPTS
  /\ 0 <= reconnectAttempts (pending w) <= MAX_RECONNECT_ATTEMPTS
  /\ (forall t nextAttempt env,
        timers w !! t = Some (ReconnectTimer nextAttempt env) ->
        1 <= nextAttempt <= MAX_RECONNECT_ATTEMPTS).
Proof.
  intros w. apply (attempts_stay_within_bounds w).
  exists active. eexists. reflexivity.
Defined.

Section Emits.

Context (P : Effect -> Prop).

Lemma emits_ret {A} (x : A) : emits P (mret x).
Proof. intros w. exists []. split; [symmetry; apply app_nil_r | constructor]. Qed.

Lemma emits_bind {A B} (m : M A) (f : A -> M B) :
  emits P m -> (forall x, emits P (f x)) -> emits P (m ≫= f).
Proof.
  intros Hm Hf w. unfold mbind, M_bind. destruct (Hm w) as (l1 & E1 & F1).
  destruct (m w) as [x w1]. cbn [snd] in E1.
  destruct (Hf x w1) as (l2 & E2 & F2). exists (l1 ++ l2)%list.
  rewrite E2, E1, <- app_assoc. split; [reflexivity | apply Forall_app; auto].
Qed.

Lemma emits_emit (e : Effect) : P e -> emits P (emit e).
Proof. intros He w. exists [e]. split; [reflexivity | repeat constructor; exact He]. Qed.

Lemma emits_setState f : emits P (setState f).
Proof. intros w. exists []. split; [symmetry; apply app_nil_r | constructor]. Qed.

Lemma emits_withSockets f : emits P (withSockets f).
Proof. intros w. exists []. split; [symmetry; apply app_nil_r | constructor]. Qed.

Lemma emits_withTimers f : emits P (withTimers f).
Proof. intros w. exists []. split; [symmetry; apply app_nil_r | constructor]. Qed.

Lemma emits_readyState s : emits P (readyState s).
Proof. intros w. exists []. split; [symmetry; apply app_nil_r | constructor]. Qed.

Lemma emits_newTimer tm e : (forall t, P (e t)) -> emits P (newTimer tm e).
Proof.
  intros He w. exists [e (next_timer w)].
  split; [reflexivity | repeat constructor; apply He].
Qed.

Lemma emits_newWebSocket scope :
  (forall s, P (NewWebSocket s)) -> emits P (newWebSocket scope).
Proof.
  intros He w. exists [NewWebSocket (next_socket w)].
  split; [reflexivity | repeat constructor; apply He].
Qed.

End Emits.

Create HintDb emits.

#[local] Hint Resolve emits_ret emits_setState emits_withSockets emits_withTimers
  emits_readyState : emits.
#[local] Hint Extern 1 (emits delayInRange (emit _)) =>
  apply emits_emit; exact I : emits.
#[local] Hint Extern 1 (emits delayInRange (newTimer _ SetInterval)) =>
  apply emits_newTimer; intros ?; exact I : emits.
#[local] Hint Extern 1 (emits delayInRange (newWebSocket _)) =>
  apply emits_newWebSocket; intros ?; exact I : emits.

Ltac emits_step :=
  match goal with
  | |- emits _ (_ ≫= _) => apply emits_bind; [|intros ?]
  | |- emits _ (match ?x with _ => _ end) => destruct x
  | |- emits _ (let _ := _ in _) => cbv zeta
  | |- emits _ _ => solve [eauto with emits]
  end.

Ltac emits_tac := repeat emits_step.

Section Delays.

#[local] Abbreviation ok := (emits delayInRange).

Lemma delay_console lvl what : ok (console lvl what).
Proof. unfold console. emits_tac. Qed.

Lemma delay_isOpen s : ok (isOpen s).
Proof. unfold isOpen. emits_tac. Qed.

Lemma delay_clearTimer t : ok (clearTimer t).
Proof. unfold clearTimer. emits_tac. Qed.

Lemma delay_socketClose s code : ok (socketClose s code).
Proof. unfold socketClose. emits_tac. Qed.

Lemma delay_socketSend s text : ok (socketSend s text).
Proof. unfold socketSend. emits_tac. Qed.

Hint Resolve delay_console delay_isOpen delay_clearTimer delay_socketClose
  delay_socketSend : emits.

Lemma delay_stopPingInterval env : ok (stopPingInterval env).
Proof. unfold stopPingInterval. emits_tac. Qed.

Hint Resolve delay_stopPingInterval : emits.

Lemma delay_send env type data now : ok (send env type data now).
Proof. unfold send. emits_tac. Qed.

Hint Resolve delay_send : emits.

Lemma delay_startPingInterval env : ok (startPingInterval env).
Proof. unfold startPingInterval. emits_tac. Qed.

Lemma delay_pingTick env now : ok (pingTick env now).
Proof. unfold pingTick. emits_tac. Qed.

Lemma delay_cleanupConnection env : ok (cleanupConnection env).
Proof. unfold cleanupConnection. emits_tac. Qed.

Lemma delay_connect scope : ok (connect scope).
Proof. unfold connect. emits_tac. Qed.

Hint Resolve delay_startPingInterval delay_cleanupConnection delay_connect : emits.

(** The one place where a timeout is set. *)
Lemma delay_scheduleReconnect env random :
  Double.isDouble random = true -> (0 <= random)%Q -> (random < 1)%Q ->
  0 <= reconnectAttempts (se_cur env) ->
  ok (scheduleReconnect env random).
Proof.
  intros Hd H0 H1 Ha. unfold scheduleReconnect. cbv zeta.
  apply emits_bind; [emits_tac | intros _].
  destruct (Z.leb_spec MAX_RECONNECT_ATTEMPTS (reconnectAttempts (se_cur env)))
    as [Hge|Hlt]; [emits_tac|].
  destruct (backoffBase_below_ceiling (reconnectAttempts (se_cur env)))
    as (_ & Hlo & Hhi); [lia|].
  destruct (reconnectDelay_bounds (reconnectAttempts (se_cur env)) random
              Hd H0 H1 Ha) as [Dlo Dhi].
  apply emits_bind; [emits_tac | intros _].
  apply emits_bind; [|intros t; emits_tac].
  apply emits_newTimer. intros t. cbn [delayInRange].
  set (b := backoffBase (reconnectAttempts (se_cur env))) in *.
  set (d := reconnectDelay (reconnectAttempts (se_cur env)) random) in *.
  split; lra.
Qed.

Lemma delay_onopen scope s : ok (onopen scope s).
Proof. unfold onopen. emits_tac. Qed.

Lemma delay_onclose scope code random :
  Double.isDouble random = true -> (0 <= random)%Q -> (random < 1)%Q ->
  0 <= reconnectAttempts (se_cur (sc_sched scope)) ->
  ok (onclose scope code random).
Proof.
  intros Hd H0 H1 Ha. unfold onclose. cbv zeta.
  repeat (apply emits_bind; [emits_tac | intros _]).
  destruct (_ && _); [apply delay_scheduleReconnect; assumption | emits_tac].
Qed.

Lemma delay_onerror s : ok (onerror s).
Proof. unfold onerror. emits_tac. Qed.

Lemma delay_notify ls message : ok (notify ls message).
Proof. induction ls as [|l ls IH]; cbn [notify]; emits_tac. Qed.

Hint Resolve delay_notify : emits.

Lemma delay_onmessage scope data : ok (onmessage scope data).
Proof. unfold onmessage. emits_tac. Qed.

Lemma delay_disconnect env : ok (disconnect env).
Proof. unfold disconnect. emits_tac. Qed.

Lemma delay_addListener cb : ok (addListener cb).
Proof. unfold addListener. emits_tac. Qed.

Lemma delay_removeListener cb : ok (removeListener cb).
Proof. unfold removeListener. emits_tac. Qed.

Lemma delay_reconnectTick nextAttempt env : ok (reconnectTick nextAttempt env).
Proof. unfold reconnectTick. emits_tac. Qed.

Lemma delay_catchLog r : ok (catchLog r).
Proof. unfold catchLog. emits_tac. Qed.

Hint Resolve delay_catchLog : emits.

Lemma delay_handleAppStateChange scope next : ok (handleAppStateChange scope next).
Proof. unfold handleAppStateChange. emits_tac. Qed.

Lemma delay_handleNetInfo scope connected : ok (handleNetInfo scope connected).
Proof. unfold handleNetInfo. emits_tac. Qed.

Lemma delay_mount scope : ok (mount scope).
Proof. unfold mount. emits_tac. Qed.

Hint Resolve delay_mount delay_disconnect delay_addListener delay_removeListener
  delay_handleAppStateChange delay_handleNetInfo delay_onerror delay_onmessage
  delay_pingTick delay_reconnectTick delay_onopen : emits.

Lemma step_delays (w : World) (e : Event) :
  sound w -> randomInRange e ->
  Forall delayInRange (trace w) -> Forall delayInRange (trace (step w e)).
Proof.
  intros S Hr Hw. pose proof S as (_ & _ & _ & _ & _ & _ & S7).
  assert (Hok : forall (m : M unit), ok m -> Forall delayInRange (trace (snd (m w)))).
  { intros m Hm. destruct (Hm w) as (l & -> & Hl). apply Forall_app. auto. }
  unfold step. destruct e; cbn [handle]; try (apply Hok; emits_tac).
  - exact Hw.
  - destruct (sockets w !! s) as [[[] scope]|]; try exact Hw; apply Hok; emits_tac.
  - destruct (sockets w !! s) as [[[] scope]|]; try exact Hw; apply Hok; emits_tac.
  - destruct (sockets w !! s) as [[rs scope]|] eqn:E; [|exact Hw].
    destruct (S7 s rs scope E) as (_ & (_ & ((_ & Ha & _) & _) & _) & _).
    destruct Hr as (Hd & H0 & H1).
    destruct rs; try exact Hw; apply Hok; (apply emits_bind; [emits_tac | intros _]);
      apply delay_onclose; (assumption || apply Ha).
  - destruct (sockets w !! s) as [[[] scope]|]; try exact Hw; apply Hok; emits_tac.
  - destruct (timers w !! t) as [[nextAttempt env|env]|]; try exact Hw;
      apply Hok; emits_tac.
Qed.

Lemma run_delays (es : list Event) (w : World) :
  sound w -> Forall randomInRange es ->
  Forall delayInRange (trace w) -> Forall delayInRange (trace (run es w)).
Proof.
  revert w. induction es as [|e es IH]; intros w S Hes Hw; [exact Hw|].
  apply Forall_cons in Hes as [He Hes]. cbn [run fold_left].
  apply IH; [apply step_sound; exact S | exact Hes | apply step_delays; assumption].
Qed.

End Delays.

(** X5.  Every reconnect delay lies between 2.4 and 18.225 seconds.  Whatever
    happens to the component from its first render on, every [setTimeout]
    it calls has a delay of at least 2400 and at most 18225 ms, provided
    [Math.random()] returns a double in [0, 1): a timer is only set below the
    ceiling of 5 attempts, where the base delay [3000 * 1.5^attempts] is at
    most 15187.5 ms, so that the cap of 30000 ms is never what the minimum
    selects.  The upper end is reached: after four attempts and with the
    largest random number below 1 the delay is 18225 ms. *)
Theorem reconnect_delays_in_range (app : AppStateStatus) (es : list Event) :
  Forall randomInRange es ->
  Forall delayInRange (trace (run es (initialWorld app))).
Proof.
  intros Hes. apply run_delays; [apply initialWorld_sound | exact Hes | constructor].
Qed.

Lemma reconnect_delays_in_range_witness :
  let largest := (1 - 2 ^ (-53))%Q in
  let es := (failedManualAttempt 1 ++ failedManualAttempt 3
             ++ failedManualAttempt 5 ++ failedManualAttempt 7
             ++ [CallConnect; Render; SocketClosed 9 1006 largest])%list in
  let w := run es (initialWorld active) in
  Forall delayInRange (trace w)
  /\ last (trace w) = Some (SetTimeout 9 (reconnectDelay 4 largest))
  /\ (reconnectDelay 4 largest == 18225)%Q.
Proof.
  intros largest es w. split; [|split].
  - apply (reconnect_delays_in_range active).
    repeat constructor; by_computation.
  - vm_compute. reflexivity.
  - by_computation.
Defined.

(** ** What triggers a connection, and the cleanup at unmount *)

Section Triggers.

Lemma connect_unfold (scope : Scope) (w : World) :
  connect scope w
  = let cur := sc_cur scope in
    if fst (isOpen (socket cur) w) then (Resolved, w)
    else if isConnecting cur then (Resolved, w)
    else if negb (isNetworkAvailable cur)
         then (Rejected "No network connection available", w)
         else (Pending (next_socket w), connecting scope w).
Proof.
  unfold connect, connecting. cbv zeta. unfold mbind at 1. unfold M_bind at 1.
  rewrite isOpen_eq. cbn [fst].
  destruct (match socket (sc_cur scope) with Some _ => _ | None => _ end);
    [reflexivity|].
  destruct (isConnecting (sc_cur scope)); [reflexivity|].
  destruct (negb (isNetworkAvailable (sc_cur scope))); reflexivity.
Qed.

Lemma connecting_facts (scope : Scope) (w : World) :
  let w' := connecting scope w in
  sockets w' = <[next_socket w := (CONNECTING, scope)]> (sockets w)
  /\ opens w' = S (opens w)
  /\ scheduled w' = scheduled w
  /\ timers w' = timers w
  /\ rendered w' = rendered w
  /\ appState (pending w') = appState (pending w)
  /\ isNetworkAvailable (pending w') = isNetworkAvailable (pending w).
Proof.
  unfold connecting, after, opens, scheduled. cbn.
  rewrite !List.filter_app, !length_app. cbn. repeat split; lia.
Qed.

Lemma handleAppStateChange_unfold (scope : Scope) (next : AppStateStatus) (w : World) :
  snd (handleAppStateChange scope next w)
  = snd (setState (setAppState next)
           (if cameToForeground (sc_cur scope) next
               && negb (fst (isOpen (socket (sc_cur scope)) w))
            then connecting scope w else w)).
Proof.
  unfold handleAppStateChange, cameToForeground. cbv zeta.
  destruct (wasAway (appState (sc_cur scope)) && bool_decide (next = active)
            && negb (isConnected (sc_cur scope)) && negb (isConnecting (sc_cur scope))
            && isNetworkAvailable (sc_cur scope)) eqn:E; [|reflexivity].
  apply andb_true_iff in E as [E Hnet]. apply andb_true_iff in E as [_ Hconn].
  apply negb_true_iff in Hconn.
  unfold mbind at 1. unfold M_bind at 1. unfold mbind at 1. unfold M_bind at 1.
  rewrite connect_unfold. cbv zeta. rewrite Hconn, Hnet. cbn [negb andb].
  destruct (fst (isOpen (socket (sc_cur scope)) w)); reflexivity.
Qed.

Lemma handleNetInfo_unfold (scope : Scope) (connected : option bool) (w : World) :
  snd (handleNetInfo scope connected w)
  = snd (setState (setIsNetworkAvailable (bool_decide (connected = Some true)))
           (if bool_decide (connected = Some true)
               && negb (isNetworkAvailable (sc_cur scope))
               && negb (isConnected (sc_cur scope))
               && negb (isConnecting (sc_cur scope))
               && negb (fst (isOpen (socket (sc_cur scope)) w))
            then after (Console Error "No network connection available") w
            else w)).
Proof.
  unfold handleNetInfo. cbv zeta.
  destruct (bool_decide (connected = Some true)
            && negb (isNetworkAvailable (sc_cur scope))
            && negb (isConnected (sc_cur scope))
            && negb (isConnecting (sc_cur scope))) eqn:E; [|reflexivity].
  apply andb_true_iff in E as [E Hconn]. apply andb_true_iff in E as [E _].
  apply andb_true_iff in E as [_ Hnet].
  apply negb_true_iff in Hconn.
  unfold mbind at 1. unfold M_bind at 1. unfold mbind at 1. unfold M_bind at 1.
  rewrite connect_unfold. cbv zeta. rewrite Hconn, Hnet. cbn [negb andb].
  destruct (fst (isOpen (socket (sc_cur scope)) w)); reflexivity.
Qed.

End Triggers.

(** X6.  A change of the network state never opens a socket.  The listener
    calls [connect()] when the network is back and the render it belongs to
    saw no network and was neither connected nor connecting; the [connect] it
    holds is the one of that render, which, unless its socket is open,
    rejects with [No network connection available], and the rejection is
    logged.  Nothing else happens but that the new value of
    [isNetworkAvailable] is queued: no socket is opened or closed, no timer
    is set or cancelled, no other cell is written. *)
Theorem network_change_opens_no_socket (w : World) (connected : option bool) :
  let w' := step w (NetInfoChanged connected) in
  let cur := sc_cur (eff_net w) in
  let nowAvailable := bool_decide (connected = Some true) in
  let rejected :=
    nowAvailable && negb (isNetworkAvailable cur)
    && negb (isConnected cur) && negb (isConnecting cur)
    && negb (fst (isOpen (socket cur) w)) in
  trace w'
  = (trace w
     ++ if rejected then [Console Error "No network connection available"]
        else [])%list
  /\ pending w' = setIsNetworkAvailable nowAvailable (pending w)
  /\ rendered w' = rendered w
  /\ sockets w' = sockets w
  /\ timers w' = timers w
  /\ opens w' = opens w.
Proof.
  unfold step. cbn [handle]. rewrite handleNetInfo_unfold.
  destruct (_ && negb (fst (isOpen _ w))); cbn; unfold opens; cbn;
    rewrite ?List.filter_app, ?length_app; cbn;
    rewrite ?Nat.add_0_r, ?app_nil_r; auto 10.
Qed.

(** X7.  What a change of the app state does: it queues the new app state,
    and it opens one socket exactly when the listener's render saw the app
    inactive or in the background, the new state is [active], that render was
    neither connected nor connecting, the network was available to it and its
    socket is not open.  In every other case, going to the background
    among them, it opens no socket; it never closes one, and it sets and
    cancels no timer. *)
Theorem foreground_opens_one_socket
  (scope : Scope) (next : AppStateStatus) (w : World) :
  let w' := snd (handleAppStateChange scope next w) in
  let opening := cameToForeground (sc_cur scope) next
                 && negb (fst (isOpen (socket (sc_cur scope)) w)) in
  appState (pending w') = next
  /\ opens w' = (if opening then S (opens w) else opens w)
  /\ sockets w'
     = (if opening then <[next_socket w := (CONNECTING, scope)]> (sockets w)
        else sockets w)
  /\ scheduled w' = scheduled w
  /\ timers w' = timers w.
Proof.
  cbv zeta. rewrite handleAppStateChange_unfold.
  destruct (connecting_facts scope w) as (H0 & H1 & H2 & H3 & _).
  destruct (_ && _); cbn; auto.
Qed.

(** X8.  A connection opened on the return to the foreground is never
    reconnected: the socket that a change of the app state opens has a close
    handler that still sees the app away, so that, whenever and with whatever
    code this socket closes, no reconnect timer is scheduled. *)
Theorem foreground_socket_never_reconnects
  (w : World) (next : AppStateStatus) (s : nat) (rs : ReadyState) (scope : Scope)
  (es : list Event) (code : Z) (random : Q) :
  reachable w -> sockets w !! s = None ->
  let w1 := step w (AppStateChanged next) in
  sockets w1 !! s = Some (rs, scope) ->
  scheduled (run (es ++ [SocketClosed s code random]) w1) = scheduled (run es w1).
Proof.
  intros Hreach Hnone w1 Hs.
  assert (Haway : wasAway (appState (sc_cur scope)) = true).
  { subst w1. unfold step in Hs. cbn [handle] in Hs.
    rewrite handleAppStateChange_unfold in Hs. cbn in Hs.
    destruct (cameToForeground (sc_cur (eff_app w)) next) eqn:E;
      [|cbn in Hs; congruence].
    destruct (negb _); [|cbn in Hs; congruence].
    cbn in Hs. apply lookup_insert_Some in Hs as [[_ Hs]|[_ Hs]]; [|congruence].
    injection Hs as _ <-. unfold cameToForeground in E.
    repeat (apply andb_true_iff in E as [E _]). exact E. }
  pose proof (step_sound w (AppStateChanged next) (reachable_sound w Hreach)) as S1.
  fold w1 in S1. destruct (run_inv es w1 S1) as [_ [L _]].
  destruct (L s rs scope Hs) as (rs' & Hs' & _).
  unfold run. rewrite fold_left_app. cbn [fold_left]. fold (run es w1).
  unfold step at 1. cbn [handle]. rewrite Hs'.
  assert (H : scheduled
                (snd ((setReadyState s CLOSED;; onclose scope code random) (run es w1)))
              = scheduled (run es w1)).
  { unfold mbind, M_bind. cbn [setReadyState withSockets].
    rewrite onclose_schedules.
    destruct (appState (sc_cur scope)); try discriminate Haway;
      rewrite bool_decide_eq_false_2 by discriminate;
      rewrite andb_false_r; reflexivity. }
  destruct rs'; [exact H | exact H | exact H | reflexivity].
Qed.

Lemma foreground_socket_never_reconnects_witness :
  let w := run [Mount; Render] (initialWorld background) in
  let w1 := step w (AppStateChanged active) in
  scheduled (run ([Render; SocketOpened 1; Render] ++ [SocketClosed 1 1006 0.5]) w1)
  = scheduled (run [Render; SocketOpened 1; Render] w1).
Proof.
  intros w.
  apply (foreground_socket_never_reconnects w active 1 CONNECTING
           (eff_app w) [Render; SocketOpened 1; Render] 1006 0.5).
  - exists background. eexists. reflexivity.
  - vm_compute. reflexivity.
  - vm_compute. reflexivity.
Defined.

(** X9.  How the provider starts.  The mount effect opens a socket exactly
    when the app is [active] at the first render.  When the app was inactive
    or in the background, the first change to [active] opens the socket; when
    the app state was [unknown] or [extension], that change opens none. *)
Theorem startup_connects_in_foreground
  (app : AppStateStatus) :
  opens (run [Mount] (initialWorld app))
  = (if bool_decide (app = active) then 1 else 0)%nat
  /\ opens (run [Mount; Render; AppStateChanged active] (initialWorld app))
     = (if bool_decide (app = active) || wasAway app then 1 else 0)%nat.
Proof. destruct app; vm_compute; split; reflexivity. Qed.

(** X10.  Unmounting the provider releases nothing.  The cleanup of the mount
    effect is a closure of the first render, in which the socket and the two
    timers are null: whatever the component has done since, the cleanup
    closes no socket and cancels no timer, it leaves the world as it is. *)
Theorem unmount_releases_nothing (app : AppStateStatus) (es : list Event) :
  let w := run es (initialWorld app) in
  unmount (currentScope (initialWorld app)) w = (tt, w).
Proof. reflexivity. Qed.

(** ** Disconnecting and errors *)

Section Disconnect.

(** [disconnect] touches no socket but an open one. *)
Lemma disconnect_spares (env : State) (w : World) (s : nat) (rs : ReadyState)
      (scope : Scope) :
  sockets w !! s = Some (rs, scope) -> rs <> OPEN ->
  sockets (snd (disconnect env w)) !! s = Some (rs, scope).
Proof.
  intros Hs Hrs. unfold disconnect, cleanupConnection, stopPingInterval.
  destruct (pingInterval env), (reconnectTimer env), (socket env) as [s'|];
    run_prims; try exact Hs;
    (destruct (bool_decide _) eqn:E; run_prims; [|exact Hs];
     apply bool_decide_eq_true in E;
     destruct (decide (s' = s)) as [->|Hne];
     [rewrite Hs in E; cbn in E; congruence
     |rewrite lookup_alter_ne by exact Hne; exact Hs]).
Qed.

Lemma onopen_pending (scope : Scope) (s : nat) (w : World) :
  let w' := snd (onopen scope s w) in
  socket (pending w') = Some s
  /\ isConnected (pending w') = true
  /\ isConnecting (pending w') = false
  /\ sockets w' = sockets w.
Proof.
  unfold onopen, startPingInterval, stopPingInterval.
  destruct (pingInterval (sc_start scope)); run_prims; auto.
Qed.

End Disconnect.

(** X12.  [disconnect()] does not abort a connection attempt.  Called while a
    socket is still connecting, it closes nothing (it only closes the socket
    of the state, and only when that one is open); when the connecting socket
    opens afterwards, the provider is Connected again, on that socket. *)
Theorem disconnect_does_not_abort_connecting
  (w : World) (s : nat) (scope : Scope) :
  sockets w !! s = Some (CONNECTING, scope) ->
  let w' := run [CallDisconnect; Render; SocketOpened s; Render] w in
  sockets (run [CallDisconnect; Render] w) !! s = Some (CONNECTING, scope)
  /\ connectionState (rendered w') = Connected
  /\ socket (rendered w') = Some s
  /\ sockets w' !! s = Some (OPEN, scope).
Proof.
  intros Hs. cbn [run fold_left].
  set (w1 := step w CallDisconnect).
  assert (H1 : sockets w1 !! s = Some (CONNECTING, scope)).
  { subst w1. unfold step. cbn [handle]. apply disconnect_spares; [exact Hs | discriminate]. }
  set (w2 := step w1 Render).
  assert (H2 : sockets w2 !! s = Some (CONNECTING, scope)) by exact H1.
  set (w3 := step w2 (SocketOpened s)).
  assert (E3 : w3 = snd (onopen scope s (snd (setReadyState s OPEN w2)))).
  { subst w3. unfold step. cbn [handle]. rewrite H2. reflexivity. }
  destruct (onopen_pending scope s (snd (setReadyState s OPEN w2)))
    as (P1 & P2 & P3 & P4).
  rewrite <- E3 in P1, P2, P3, P4.
  split; [exact H2|].
  change (rendered (step w3 Render)) with (pending w3).
  change (sockets (step w3 Render)) with (sockets w3).
  change (sockets (snd (setReadyState s OPEN w2)))
    with (alter (fun '(_, sc) => (OPEN, sc)) s (sockets w2)) in P4.
  clearbody w3 w2 w1.
  unfold connectionState. rewrite P2, P1, P4, lookup_alter_eq, H2. auto.
Qed.

Lemma disconnect_does_not_abort_connecting_witness :
  let w := run [Mount; Render] (initialWorld active) in
  let w' := run [CallDisconnect; Render; SocketOpened 1; Render] w in
  sockets (run [CallDisconnect; Render] w) !! 1%nat
  = Some (CONNECTING, currentScope (initialWorld active))
  /\ connectionState (rendered w') = Connected
  /\ socket (rendered w') = Some 1%nat
  /\ sockets w' !! 1%nat = Some (OPEN, currentScope (initialWorld active)).
Proof.
  intros w.
  apply (disconnect_does_not_abort_connecting w 1 (currentScope (initialWorld active))).
  vm_compute. reflexivity.
Defined.

(** X13.  An error event does not disconnect.  When a socket that is not
    closed reports an error, the provider records the error and stops being
    connecting, and that is all: [isConnected] and the socket of the state
    are as before (a Connected provider stays Connected), no socket is
    closed or opened, no timer is set or cancelled.  Only the close event
    that follows takes the connection down. *)
Theorem error_keeps_connection
  (w : World) (s : nat) (rs : ReadyState) (scope : Scope) :
  sockets w !! s = Some (rs, scope) -> rs <> CLOSED ->
  let w' := run [SocketError s; Render] w in
  isConnected (rendered w') = isConnected (pending w)
  /\ socket (rendered w') = socket (pending w)
  /\ isConnecting (rendered w') = false
  /\ connectionError (rendered w') = Some "WebSocket connection error"
  /\ sockets w' = sockets w /\ timers w' = timers w
  /\ opens w' = opens w /\ scheduled w' = scheduled w.
Proof.
  intros Hs Hrs. cbn [run fold_left].
  assert (E : step w (SocketError s) = snd (onerror s w)).
  { unfold step. cbn [handle]. rewrite Hs. destruct rs; try contradiction; reflexivity. }
  assert (H : forall w1, w1 = snd (onerror s w) ->
            isConnected (rendered (step w1 Render)) = isConnected (pending w)
            /\ socket (rendered (step w1 Render)) = socket (pending w)
            /\ isConnecting (rendered (step w1 Render)) = false
            /\ connectionError (rendered (step w1 Render))
               = Some "WebSocket connection error"
            /\ sockets (step w1 Render) = sockets w
            /\ timers (step w1 Render) = timers w
            /\ opens (step w1 Render) = opens w
            /\ scheduled (step w1 Render) = scheduled w).
  { intros w1 ->. unfold onerror, opens, scheduled. run_prims. cbn.
    rewrite !List.filter_app. cbn. rewrite !app_nil_r. auto 10. }
  apply H. exact E.
Qed.

Lemma error_keeps_connection_witness :
  let w := run [Mount; Render; SocketOpened 1; Render] (initialWorld active) in
  let w' := run [SocketError 1; Render] w in
  isConnected (rendered w') = isConnected (pending w)
  /\ socket (rendered w') = socket (pending w)
  /\ isConnecting (rendered w') = false
  /\ connectionError (rendered w') = Some "WebSocket connection error"
  /\ sockets w' = sockets w /\ timers w' = timers w
  /\ opens w' = opens w /\ scheduled w' = scheduled w.
Proof.
  intros w.
  apply (error_keeps_connection w 1 OPEN (currentScope (initialWorld active))).
  - vm_compute. reflexivity.
  - discriminate.
Defined.

(** ** The frames of [send], read back *)

(** X14.  What [send] writes can be read back.  While Connected (a state the
    component has reached and rendered), for every type and every payload that
    is absent or an object of JSON values (strings with any characters,
    decimal numbers, nested arrays and objects; members that are [undefined]
    allowed), [send] returns true and writes one frame, and [JSON.parse] of
    that frame is the envelope [{ type, ...data, timestamp }] without its
    [undefined] members. *)
Theorem send_round_trip (w : World) (type : string) (data : JsValue) (now : Z) :
  reachable w -> rendered w = pending w ->
  connectionState (rendered w) = Connected ->
  jsonPayload data = true ->
  exists (s : nat) (frame : string),
    send (rendered w) type data now w = (true, after (SocketSend s frame) w)
    /\ frames (after (SocketSend s frame) w) = (frames w ++ [frame])%list
    /\ JSON.parse frame = Some (sentMessage type data now).
Proof.
  intros Hreach Hsettled Hconn Hdata.
  destruct (connected_socket_is_open w Hreach Hsettled Hconn)
    as (s & scope & Hsock & Hopen).
  destruct (send_frame_parses (rendered w) w s scope type data now Hsock Hopen Hdata)
    as (frame & Hsend & Hparse).
  exists s, frame. split; [exact Hsend|]. split; [apply frames_after | exact Hparse].
Qed.

Lemma send_round_trip_witness :
  let w := run [Mount; Render; SocketOpened 1; Render] (initialWorld active) in
  exists (s : nat) (frame : string),
    send (rendered w) "chat" chatPayload 0 w = (true, after (SocketSend s frame) w)
    /\ frames (after (SocketSend s frame) w) = (frames w ++ [frame])%list
    /\ JSON.parse frame = Some (sentMessage "chat" chatPayload 0).
Proof.
  intros w. apply (send_round_trip w "chat" chatPayload 0).
  - exists active. eexists. reflexivity.
  - vm_compute. reflexivity.
  - vm_compute. reflexivity.
  - vm_compute. reflexivity.
Defined.

(** X15.  [sendLocation] carries every pair of coordinates unchanged: when
    the socket that the state holds is open, for all decimal numbers
    [latitude] and [longitude] and every reading of the clock, it returns
    true and writes one frame, which parses to an object with exactly the
    fields [type = location], [latitude], [longitude] and [timestamp], in
    this order, the coordinates being the numbers given. *)
Theorem sendLocation_any_coordinates
  (w : World) (s : nat) (scope : Scope) (m1 e1 m2 e2 : Z) (now : Z) :
  socket (rendered w) = Some s -> sockets w !! s = Some (OPEN, scope) ->
  canonical m1 e1 = true -> canonical m2 e2 = true ->
  exists frame : string,
    sendLocation (rendered w) (VNum m1 e1) (VNum m2 e2) now w
    = (true, after (SocketSend s frame) w)
    /\ frames (after (SocketSend s frame) w) = (frames w ++ [frame])%list
    /\ JSON.parse frame
       = Some (VObj [("type", VStr "location"); ("latitude", VNum m1 e1);
                     ("longitude", VNum m2 e2);
                     ("timestamp", VStr (Date.toISOString now))]).
Proof.
  intros Hsock Hopen H1 H2.
  destruct (send_frame_parses (rendered w) w s scope "location"
              (VObj [("latitude", VNum m1 e1); ("longitude", VNum m2 e2)]) now
              Hsock Hopen) as (frame & Hsend & Hparse).
  { cbn [jsonPayload jsonFields forallb snd isUndefined orb jsonValue].
    rewrite H1, H2. reflexivity. }
  exists frame. split; [exact Hsend|]. split; [apply frames_after|].
  rewrite Hparse. reflexivity.
Qed.

Lemma sendLocation_any_coordinates_witness :
  let w := run [Mount; Render; SocketOpened 1; Render] (initialWorld active) in
  exists frame : string,
    sendLocation (rendered w) (VNum (-338688) (-4)) (VNum 1512093 (-4)) 0 w
    = (true, after (SocketSend 1 frame) w)
    /\ frames (after (SocketSend 1 frame) w) = (frames w ++ [frame])%list
    /\ JSON.parse frame
       = Some (VObj [("type", VStr "location"); ("latitude", VNum (-338688) (-4));
                     ("longitude", VNum 1512093 (-4));
                     ("timestamp", VStr (Date.toISOString 0))]).
Proof.
  intros w.
  apply (sendLocation_any_coordinates w 1 (currentScope (initialWorld active))
           (-338688) (-4) 1512093 (-4) 0).
  - reflexivity.
  - vm_compute. reflexivity.
  - reflexivity.
  - reflexivity.
Defined.

(** X16.  [notifyPhotoCapture] announces a photo by its id: when the socket
    that the state holds is open, for every id that is a JSON value (a
    string or a number) and metadata that is absent or a JSON value, it
    returns true and writes one frame, which parses to an object with the
    fields [type = photo_capture], [photoId], then [metadata] only when
    metadata was given, and [timestamp]. *)
Theorem notifyPhotoCapture_round_trip
  (w : World) (s : nat) (scope : Scope) (photoId metadata : JsValue) (now : Z) :
  socket (rendered w) = Some s -> sockets w !! s = Some (OPEN, scope) ->
  jsonValue photoId = true -> isUndefined metadata || jsonValue metadata = true ->
  exists frame : string,
    notifyPhotoCapture (rendered w) photoId metadata now w
    = (true, after (SocketSend s frame) w)
    /\ frames (after (SocketSend s frame) w) = (frames w ++ [frame])%list
    /\ JSON.parse frame
       = Some (VObj ([("type", VStr "photo_capture"); ("photoId", photoId)]
                     ++ (if isUndefined metadata then []
                         else [("metadata", metadata)])
                     ++ [("timestamp", VStr (Date.toISOString now))])%list).
Proof.
  intros Hsock Hopen Hid Hmeta.
  destruct (send_frame_parses (rendered w) w s scope "photo_capture"
              (VObj [("photoId", photoId); ("metadata", metadata)]) now
              Hsock Hopen) as (frame & Hsend & Hparse).
  { cbn [jsonPayload jsonFields forallb snd]. rewrite Hid, Hmeta, orb_true_r.
    reflexivity. }
  exists frame. split; [exact Hsend|]. split; [apply frames_after|].
  rewrite Hparse.
  assert (Hdef : isUndefined photoId = false)
    by (destruct photoId; try reflexivity; discriminate Hid).
  unfold sentMessage, envelope. generalize (Date.toISOString now) as ts. intros ts.
  unfold defined. cbn. rewrite Hdef. destruct (isUndefined metadata); reflexivity.
Qed.

Lemma notifyPhotoCapture_round_trip_witness :
  let w := run [Mount; Render; SocketOpened 1; Render] (initialWorld active) in
  exists frame : string,
    notifyPhotoCapture (rendered w) (VStr "IMG_0042") VUndefined 0 w
    = (true, after (SocketSend 1 frame) w)
    /\ frames (after (SocketSend 1 frame) w) = (frames w ++ [frame])%list
    /\ JSON.parse frame
       = Some (VObj [("type", VStr "photo_capture"); ("photoId", VStr "IMG_0042");
                     ("timestamp", VStr (Date.toISOString 0))]).
Proof.
  intros w.
  apply (notifyPhotoCapture_round_trip w 1 (currentScope (initialWorld active))
           (VStr "IMG_0042") VUndefined 0).
  - reflexivity.
  - vm_compute. reflexivity.
  - reflexivity.
  - reflexivity.
Defined.

(** ** The messages of a socket *)

Section FanOut.

Lemma listener_event_keeps (w : World) (e : Event) :
  isListenerEvent e = true ->
  sockets (step w e) = sockets w /\ trace (step w e) = trace w.
Proof. destruct e; try discriminate; intros _; split; reflexivity. Qed.

Lemma listener_events_keep (es : list Event) (w : World) :
  forallb isListenerEvent es = true ->
  sockets (run es w) = sockets w /\ trace (run es w) = trace w.
Proof.
  revert w. induction es as [|e es IH]; intros w; cbn [forallb run fold_left];
    [auto|].
  rewrite andb_true_iff. intros [He Hes].
  destruct (listener_event_keeps w e He) as [H1 H2].
  destruct (IH (step w e) Hes) as [H3 H4].
  change (fold_left step es (step w e)) with (run es (step w e)).
  rewrite H3, H4. auto.
Qed.

End FanOut.

(** X11.  Who receives the messages of a socket is fixed when [connect()] is
    called: whatever listeners are added or removed afterwards, and however
    often the provider renders, a message that arrives on the open socket,
    that parses and whose [type] can be printed, is delivered to exactly the
    callbacks that were registered in the render that called [connect()], in
    their order, each with the same value, which also becomes [lastMessage].
    A callback removed since is still called, one added since is not.  When
    the frame is what [JSON.stringify] prints for a JSON value, that value
    is what they receive. *)
Theorem fan_out_is_fixed_at_connect
  (w : World) (s : nat) (scope : Scope) (es : list Event)
  (data : string) (message type : JsValue) :
  sockets w !! s = Some (OPEN, scope) ->
  forallb isListenerEvent es = true ->
  JSON.parse data = Some message -> property "type" message = Some type ->
  toStringThrows type = false ->
  let w' := run (es ++ [SocketMessage s data]) w in
  exists delivered : JsValue,
    calls w'
    = (calls w
       ++ List.map (fun l => (lid l, delivered)) (listeners (sc_cur scope)))%list
    /\ lastMessage (pending w') = delivered
    /\ (forall v : JsValue,
          jsonValue v = true -> JSON.stringify v = JSON.Text data ->
          delivered = v).
Proof.
  intros Hs Hes Hparse Htype Hprints w'. exists message.
  destruct (listener_events_keep es w Hes) as [H1 H2].
  assert (E : w' = snd (onmessage scope data (run es w))).
  { subst w'. unfold run. rewrite fold_left_app. cbn [fold_left]. fold (run es w).
    unfold step. cbn [handle]. rewrite H1, Hs. reflexivity. }
  destruct (onmessage_delivers scope data message type (run es w)
              Hparse Htype Hprints) as [Hlast Hcalls].
  rewrite E. split; [|split].
  - rewrite Hcalls. unfold calls. rewrite H2. reflexivity.
  - exact Hlast.
  - intros v Hv Htext. destruct (stringify_parse v Hv) as (t & Ht & Hread).
    rewrite Htext in Ht. injection Ht as <-. congruence.
Qed.

Lemma fan_out_is_fixed_at_connect_witness :
  let w := run [CallAddListener quiet; Render; CallConnect; Render;
                SocketOpened 1; Render] (initialWorld active) in
  let es := [CallRemoveListener quiet; Render; CallAddListener thrower; Render] in
  listeners (rendered (run es w)) = [thrower]
  /\ exists delivered : JsValue,
       calls (run (es ++ [SocketMessage 1 helloFrame]) w)
       = (calls w ++ [(lid quiet, delivered)])%list
       /\ lastMessage (pending (run (es ++ [SocketMessage 1 helloFrame]) w))
          = delivered
       /\ (forall v : JsValue,
             jsonValue v = true -> JSON.stringify v = JSON.Text helloFrame ->
             delivered = v).
Proof.
  intros w es. split; [reflexivity|].
  apply (fan_out_is_fixed_at_connect w 1
           (mkScope (rendered (run [CallAddListener quiet; Render]
                                 (initialWorld active)))
              (memo_sched (initialWorld active)) (memo_start (initialWorld active)))
           es helloFrame (VObj [("type", VStr "hello")]) (VStr "hello")).
  - vm_compute. reflexivity.
  - reflexivity.
  - vm_compute. reflexivity.
  - reflexivity.
  - reflexivity.
Defined.

(** X18.  A message whose [type] cannot be printed is dropped.  A frame that
    arrives on an open socket and parses, but whose [type] is an object with
    a [toString] member of its own (or an array that holds such an object),
    makes the template literal of the log line throw: the handler reports it
    as a parse error and drops it.  [lastMessage] and every other cell stay
    as they are, and no listener is called. *)
Theorem unprintable_type_is_dropped
  (w : World) (s : nat) (scope : Scope) (data : string) (message type : JsValue) :
  sockets w !! s = Some (OPEN, scope) ->
  JSON.parse data = Some message -> property "type" message = Some type ->
  toStringThrows type = true ->
  let w' := step w (SocketMessage s data) in
  trace w' = (trace w ++ [Console Error "Error parsing WebSocket message:"])%list
  /\ calls w' = calls w
  /\ pending w' = pending w
  /\ rendered w' = rendered w
  /\ sockets w' = sockets w
  /\ timers w' = timers w.
Proof.
  intros Hs Hparse Htype Hthrows w'. subst w'.
  unfold step. cbn [handle]. rewrite Hs.
  unfold onmessage. rewrite Hparse, Htype. cbv zeta. rewrite Hthrows.
  assert (Hlogged : negb (isString "pong" type)
                    && negb (isString "server_ping" type) = true)
    by (destruct type; try discriminate Hthrows; reflexivity).
  rewrite Hlogged. unfold calls. cbn. rewrite omap_app. cbn.
  rewrite app_nil_r. auto 10.
Qed.

Lemma unprintable_type_is_dropped_witness :
  let w := run [CallAddListener quiet; Render; CallConnect; Render;
                SocketOpened 1; Render; SocketMessage 1 helloFrame; Render]
             (initialWorld active) in
  let w' := step w (SocketMessage 1 unprintableFrame) in
  (calls w = [(lid quiet, VObj [("type", VStr "hello")])]
   /\ JSON.parse unprintableFrame
      = Some (VObj [("type", VObj [("toString", VNum 1 0)])]))
  /\ trace w' = (trace w ++ [Console Error "Error parsing WebSocket message:"])%list
  /\ calls w' = calls w
  /\ pending w' = pending w
  /\ rendered w' = rendered w
  /\ sockets w' = sockets w
  /\ timers w' = timers w.
Proof.
  intros w. split; [split; vm_compute; reflexivity|].
  apply (unprintable_type_is_dropped w 1
           (mkScope (rendered (run [CallAddListener quiet; Render]
                                 (initialWorld active)))
              (memo_sched (initialWorld active)) (memo_start (initialWorld active)))
           unprintableFrame
           (VObj [("type", VObj [("toString", VNum 1 0)])])
           (VObj [("toString", VNum 1 0)])).
  - vm_compute. reflexivity.
  - vm_compute. reflexivity.
  - reflexivity.
  - reflexivity.
Defined.

(** X17.  The two directions of the protocol agree.  A frame that [send] wrote,
    for a payload whose [type], if it has one, can be printed, when it
    arrives on a socket of a provider (the server echoes it, or relays it to
    another client), goes through the message handler without an error: the
    envelope becomes [lastMessage] and every listener of the handler is
    called with it. *)
Theorem sent_frame_is_delivered
  (env : State) (w : World) (s : nat) (scope : Scope)
  (type : string) (data : JsValue) (now : Z) (receiver : Scope) (w' : World) :
  socket env = Some s -> sockets w !! s = Some (OPEN, scope) ->
  jsonPayload data = true ->
  (forall fields v,
     data = VObj fields -> ("type", v) ∈ fields -> toStringThrows v = false) ->
  exists frame,
    send env type data now w = (true, after (SocketSend s frame) w)
    /\ lastMessage (pending (snd (onmessage receiver frame w')))
       = sentMessage type data now
    /\ calls (snd (onmessage receiver frame w'))
       = (calls w'
          ++ List.map (fun l => (lid l, sentMessage type data now))
               (listeners (sc_cur receiver)))%list.
Proof.
  intros Hsock Hopen Hdata Hprints.
  destruct (send_frame_parses env w s scope type data now Hsock Hopen Hdata)
    as (frame & Hsend & Hparse).
  exists frame. split; [exact Hsend|].
  apply (onmessage_delivers receiver frame (sentMessage type data now)
           (Obj.get "type"
              (defined (envelope type
                          (match data with VUndefined => VObj [] | _ => data end)
                          now)))).
  - exact Hparse.
  - reflexivity.
  - destruct (envelope_type type data now Hdata) as [E|[E|(fields & E1 & E2)]].
    + rewrite E. reflexivity.
    + rewrite E. reflexivity.
    + exact (Hprints fields _ E1 E2).
Qed.

Lemma sent_frame_is_delivered_witness :
  let w := run [CallAddListener quiet; Render; CallConnect; Render;
                SocketOpened 1; Render] (initialWorld active) in
  let receiver := mkScope (rendered (run [CallAddListener quiet; Render]
                                       (initialWorld active)))
                    (memo_sched (initialWorld active))
                    (memo_start (initialWorld active)) in
  exists frame,
    send (rendered w) "chat" chatPayload 0 w = (true, after (SocketSend 1 frame) w)
    /\ lastMessage (pending (snd (onmessage receiver frame w)))
       = sentMessage "chat" chatPayload 0
    /\ calls (snd (onmessage receiver frame w))
       = (calls w
          ++ List.map (fun l => (lid l, sentMessage "chat" chatPayload 0))
               (listeners (sc_cur receiver)))%list.
Proof.
  intros w receiver.
  apply (sent_frame_is_delivered (rendered w) w 1 receiver "chat" chatPayload 0
           receiver w).
  - reflexivity.
  - vm_compute. reflexivity.
  - reflexivity.
  - intros fields v E Hin. injection E as <-.
    repeat (apply elem_of_cons in Hin as [Hin|Hin]; [discriminate Hin|]).
    inversion Hin.
Defined.
